(** * ghostselfbot: rate limiting, throttling, caching and gateway heartbeat

    A shallow embedding of the stateful core of the library:

    - [CacheManager]      (util/CacheManager.js)  bounded stores with expiry,
    - [ThrottlingManager] (dist/util/ThrottlingManager.js) client-side
      admission control with per-route queues,
    - [RESTManager]       (rest/RESTManager.js) request execution and retry,
    - [Client]            (client/Client.js) gateway heartbeat handling.

    JavaScript numbers that hold counts and millisecond timestamps are
    integers ([Z]); a JavaScript [Map] keyed by strings whose iteration
    order matters is an association list in insertion order; the other
    maps are [gmap]s. *)

From Stdlib Require Import ZArith Lia Ascii QArith_base Qcanon.
From stdpp Require Import base numbers list strings pretty gmap fin_maps.

Local Open Scope string_scope.
Local Open Scope list_scope.
Local Open Scope Z_scope.

(** Turn the boolean comparisons of the hypotheses into propositions. *)
Ltac zbool :=
  repeat match goal with
  | H : context [(_ >=? _)] |- _ => rewrite Z.geb_leb in H
  | H : context [(_ >? _)] |- _ => rewrite Z.gtb_ltb in H
  | H : (_ <=? _) = true |- _ => apply Z.leb_le in H
  | H : (_ <=? _) = false |- _ => apply Z.leb_gt in H
  | H : (_ <? _) = true |- _ => apply Z.ltb_lt in H
  | H : (_ <? _) = false |- _ => apply Z.ltb_ge in H
  | H : (_ =? _) = true |- _ => apply Z.eqb_eq in H
  | H : (_ =? _) = false |- _ => apply Z.eqb_neq in H
  end.

(** Membership in an explicit list. *)
Ltac elem_solve :=
  repeat rewrite elem_of_cons in *; repeat rewrite elem_of_nil in *;
  intuition auto.

(** ** JavaScript [Map] with string keys, in insertion order *)

Module JsMap.
Section JsMap.
Context {A : Type}.

Definition t := list (string * A).

Fixpoint get (k : string) (m : list (string * A)) : option A :=
  match m with
  | [] => None
  | (k', v) :: r => if decide (k = k') then Some v else get k r
  end.

Definition has (k : string) (m : list (string * A)) : bool :=
  match get k m with Some _ => true | None => false end.

(** [Map.prototype.set]: an existing key keeps its position, a new key goes
    to the end. *)
Fixpoint set (k : string) (v : A) (m : list (string * A)) : list (string * A) :=
  match m with
  | [] => [(k, v)]
  | (k', v') :: r =>
      if decide (k = k') then (k, v) :: r else (k', v') :: set k v r
  end.

(** [Map.prototype.delete]. *)
Fixpoint delete (k : string) (m : list (string * A)) : list (string * A) :=
  match m with
  | [] => []
  | (k', v') :: r =>
      if decide (k = k') then delete k r else (k', v') :: delete k r
  end.

Definition size (m : list (string * A)) : Z := Z.of_nat (length m).

Definition keys (m : list (string * A)) : list string := m.*1.

Lemma get_set_eq k v m : get k (set k v m) = Some v.
Proof.
  induction m as [|[k' v'] r IH]; simpl.
  - by rewrite decide_True.
  - destruct (decide (k = k')) as [->|Hne]; simpl.
    + by rewrite decide_True.
    + by rewrite decide_False.
Qed.

Lemma get_set_ne k k' v m : k ≠ k' → get k' (set k v m) = get k' m.
Proof.
  intros Hne. induction m as [|[k0 v0] r IH]; simpl.
  - by rewrite decide_False.
  - destruct (decide (k = k0)) as [->|Hne0]; simpl.
    + by rewrite !decide_False.
    + destruct (decide (k' = k0)); done.
Qed.

Lemma get_delete_eq k m : get k (delete k m) = None.
Proof.
  induction m as [|[k' v'] r IH]; simpl; [done|].
  destruct (decide (k = k')) as [->|Hne]; simpl; [done|].
  by rewrite decide_False.
Qed.

Lemma get_delete_ne k k' m : k ≠ k' → get k' (delete k m) = get k' m.
Proof.
  intros Hne. induction m as [|[k0 v0] r IH]; simpl; [done|].
  destruct (decide (k = k0)) as [->|Hne0]; simpl.
  - by rewrite decide_False.
  - destruct (decide (k' = k0)); done.
Qed.

Lemma get_Some_keys k v m : get k m = Some v → k ∈ keys m.
Proof.
  induction m as [|[k' v'] r IH]; simpl; [done|].
  destruct (decide (k = k')) as [->|Hne]; intros H.
  - apply list_elem_of_here.
  - apply list_elem_of_further. by apply IH.
Qed.

Lemma get_Some_elem k v m : get k m = Some v → (k, v) ∈ m.
Proof.
  induction m as [|[k' v'] r IH]; simpl; [done|].
  destruct (decide (k = k')) as [->|Hne]; intros H.
  - injection H as ->. apply list_elem_of_here.
  - apply list_elem_of_further. by apply IH.
Qed.

Lemma keys_get_is_Some k m : k ∈ keys m → is_Some (get k m).
Proof.
  induction m as [|[k' v'] r IH]; simpl.
  - intros H. by apply elem_of_nil in H.
  - intros H. destruct (decide (k = k')) as [->|Hne]; [by eexists|].
    apply elem_of_cons in H as [?|H]; [done|]. by apply IH.
Qed.

Lemma get_None_keys k m : get k m = None ↔ k ∉ keys m.
Proof.
  split.
  - intros H Hin. apply keys_get_is_Some in Hin as [v Hv]. congruence.
  - intros H. destruct (get k m) eqn:E; [|done].
    exfalso. apply H. by eapply get_Some_keys.
Qed.




Lemma keys_set k v m k' : k' ∈ keys (set k v m) ↔ k' = k ∨ k' ∈ keys m.
Proof.
  induction m as [|[k0 v0] r IH]; simpl.
  - rewrite elem_of_cons. by rewrite elem_of_nil.
  - destruct (decide (k = k0)) as [->|Hne]; simpl.
    + rewrite !elem_of_cons. tauto.
    + rewrite !elem_of_cons, IH. tauto.
Qed.

Lemma keys_delete k m k' : k' ∈ keys (delete k m) ↔ k' ≠ k ∧ k' ∈ keys m.
Proof.
  induction m as [|[k0 v0] r IH]; simpl.
  - rewrite elem_of_nil. tauto.
  - destruct (decide (k = k0)) as [->|Hne]; simpl.
    + rewrite IH, elem_of_cons. split; [tauto|].
      intros [Hne [->|H]]; [done|tauto].
    + rewrite !elem_of_cons, IH. split; [|tauto].
      intros [->|[? ?]]; [split; [congruence|by left]|tauto].
Qed.

Lemma NoDup_keys_set k v m : NoDup (keys m) → NoDup (keys (set k v m)).
Proof.
  induction m as [|[k0 v0] r IH]; simpl; intros Hnd.
  - apply NoDup_singleton.
  - apply NoDup_cons in Hnd as [Hnotin Hnd].
    destruct (decide (k = k0)) as [->|Hne]; simpl.
    + by apply NoDup_cons.
    + apply NoDup_cons. split; [|by apply IH].
      rewrite keys_set. intros [?|?]; [congruence|done].
Qed.

Lemma NoDup_keys_delete k m : NoDup (keys m) → NoDup (keys (delete k m)).
Proof.
  induction m as [|[k0 v0] r IH]; simpl; intros Hnd; [done|].
  apply NoDup_cons in Hnd as [Hnotin Hnd].
  destruct (decide (k = k0)) as [->|Hne]; simpl; [by apply IH|].
  apply NoDup_cons. split; [|by apply IH].
  rewrite keys_delete. tauto.
Qed.

End JsMap.
End JsMap.

(** ** CacheManager (util/CacheManager.js) *)

Module CacheManager.

(** The five entity kinds; the source repeats the same code for each. *)
Inductive Kind := Messages | Users | Channels | Guilds | Members.

Record Options := {
  messageCacheMaxSize : Z;
  messageCacheLifetime : Z;
  messageSweepInterval : Z;
  userCacheMaxSize : Z;
  userCacheLifetime : Z;
  channelCacheMaxSize : Z;
  channelCacheLifetime : Z;
  guildCacheMaxSize : Z;
  guildCacheLifetime : Z;
  memberCacheMaxSize : Z;
  memberCacheLifetime : Z;
  sweepInterval : Z
}.

(** The defaults of the constructor's [Object.assign]. *)
Definition defaults : Options := {|
  messageCacheMaxSize := 200;
  messageCacheLifetime := 0;
  messageSweepInterval := 0;
  userCacheMaxSize := 1000;
  userCacheLifetime := 3600000;
  channelCacheMaxSize := 1000;
  channelCacheLifetime := 3600000;
  guildCacheMaxSize := 100;
  guildCacheLifetime := 3600000;
  memberCacheMaxSize := 2000;
  memberCacheLifetime := 3600000;
  sweepInterval := 300000
|}.

Definition maxSize (o : Options) (k : Kind) : Z :=
  match k with
  | Messages => messageCacheMaxSize o
  | Users => userCacheMaxSize o
  | Channels => channelCacheMaxSize o
  | Guilds => guildCacheMaxSize o
  | Members => memberCacheMaxSize o
  end.

Definition lifetime (o : Options) (k : Kind) : Z :=
  match k with
  | Messages => messageCacheLifetime o
  | Users => userCacheLifetime o
  | Channels => channelCacheLifetime o
  | Guilds => guildCacheLifetime o
  | Members => memberCacheLifetime o
  end.

(** JavaScript truthiness of a value that is [null] or a string: the empty
    string is falsy. *)
Definition truthy (o : option string) : bool :=
  match o with
  | Some s => negb (String.eqb s "")
  | None => false
  end.

(** [expireTime < oldestTime], where [None] stands for [Infinity]. *)
Definition lt_oldest (expireTime : Z) (oldestTime : option Z) : bool :=
  match oldestTime with
  | None => true
  | Some o => expireTime <? o
  end.

(** The [for ... of expirations.entries()] loop of [_getOldestEntry], with its
    two mutable variables. *)
Fixpoint scan_oldest (es : list (string * Z))
    (oldestId : option string) (oldestTime : option Z)
    : option string * option Z :=
  match es with
  | [] => (oldestId, oldestTime)
  | (id, expireTime) :: r =>
      if lt_oldest expireTime oldestTime
      then scan_oldest r (Some id) (Some expireTime)
      else scan_oldest r oldestId oldestTime
  end.

Section Data.
(** The cached objects. They are JavaScript objects, hence truthy: [get]'s
    [|| null] never replaces a stored value. *)
Context {V : Type}.

Record t := {
  options : Options;
  messages : list (string * V);
  users : list (string * V);
  channels : list (string * V);
  guilds : list (string * V);
  members : list (string * V);
  _messageExpires : list (string * Z);
  _userExpires : list (string * Z);
  _channelExpires : list (string * Z);
  _guildExpires : list (string * Z);
  _memberExpires : list (string * Z)
}.

Definition constructor (o : Options) : t := {|
  options := o;
  messages := []; users := []; channels := []; guilds := []; members := [];
  _messageExpires := []; _userExpires := []; _channelExpires := [];
  _guildExpires := []; _memberExpires := []
|}.

Definition collection (k : Kind) (cm : t) : list (string * V) :=
  match k with
  | Messages => messages cm
  | Users => users cm
  | Channels => channels cm
  | Guilds => guilds cm
  | Members => members cm
  end.

Definition expirations (k : Kind) (cm : t) : list (string * Z) :=
  match k with
  | Messages => _messageExpires cm
  | Users => _userExpires cm
  | Channels => _channelExpires cm
  | Guilds => _guildExpires cm
  | Members => _memberExpires cm
  end.

Definition set_collection (k : Kind) (c : list (string * V)) (cm : t) : t :=
  match k with
  | Messages =>
      {| options := options cm; messages := c; users := users cm;
         channels := channels cm; guilds := guilds cm; members := members cm;
         _messageExpires := _messageExpires cm; _userExpires := _userExpires cm;
         _channelExpires := _channelExpires cm;
         _guildExpires := _guildExpires cm;
         _memberExpires := _memberExpires cm |}
  | Users =>
      {| options := options cm; messages := messages cm; users := c;
         channels := channels cm; guilds := guilds cm; members := members cm;
         _messageExpires := _messageExpires cm; _userExpires := _userExpires cm;
         _channelExpires := _channelExpires cm;
         _guildExpires := _guildExpires cm;
         _memberExpires := _memberExpires cm |}
  | Channels =>
      {| options := options cm; messages := messages cm; users := users cm;
         channels := c; guilds := guilds cm; members := members cm;
         _messageExpires := _messageExpires cm; _userExpires := _userExpires cm;
         _channelExpires := _channelExpires cm;
         _guildExpires := _guildExpires cm;
         _memberExpires := _memberExpires cm |}
  | Guilds =>
      {| options := options cm; messages := messages cm; users := users cm;
         channels := channels cm; guilds := c; members := members cm;
         _messageExpires := _messageExpires cm; _userExpires := _userExpires cm;
         _channelExpires := _channelExpires cm;
         _guildExpires := _guildExpires cm;
         _memberExpires := _memberExpires cm |}
  | Members =>
      {| options := options cm; messages := messages cm; users := users cm;
         channels := channels cm; guilds := guilds cm; members := c;
         _messageExpires := _messageExpires cm; _userExpires := _userExpires cm;
         _channelExpires := _channelExpires cm;
         _guildExpires := _guildExpires cm;
         _memberExpires := _memberExpires cm |}
  end.

Definition set_expirations (k : Kind) (e : list (string * Z)) (cm : t) : t :=
  match k with
  | Messages =>
      {| options := options cm; messages := messages cm; users := users cm;
         channels := channels cm; guilds := guilds cm; members := members cm;
         _messageExpires := e; _userExpires := _userExpires cm;
         _channelExpires := _channelExpires cm;
         _guildExpires := _guildExpires cm;
         _memberExpires := _memberExpires cm |}
  | Users =>
      {| options := options cm; messages := messages cm; users := users cm;
         channels := channels cm; guilds := guilds cm; members := members cm;
         _messageExpires := _messageExpires cm; _userExpires := e;
         _channelExpires := _channelExpires cm;
         _guildExpires := _guildExpires cm;
         _memberExpires := _memberExpires cm |}
  | Channels =>
      {| options := options cm; messages := messages cm; users := users cm;
         channels := channels cm; guilds := guilds cm; members := members cm;
         _messageExpires := _messageExpires cm; _userExpires := _userExpires cm;
         _channelExpires := e;
         _guildExpires := _guildExpires cm;
         _memberExpires := _memberExpires cm |}
  | Guilds =>
      {| options := options cm; messages := messages cm; users := users cm;
         channels := channels cm; guilds := guilds cm; members := members cm;
         _messageExpires := _messageExpires cm; _userExpires := _userExpires cm;
         _channelExpires := _channelExpires cm;
         _guildExpires := e;
         _memberExpires := _memberExpires cm |}
  | Members =>
      {| options := options cm; messages := messages cm; users := users cm;
         channels := channels cm; guilds := guilds cm; members := members cm;
         _messageExpires := _messageExpires cm; _userExpires := _userExpires cm;
         _channelExpires := _channelExpires cm;
         _guildExpires := _guildExpires cm;
         _memberExpires := e |}
  end.

(** [_getOldestEntry(collection, expirations)]: [null] is [None]. *)
Definition _getOldestEntry (coll : list (string * V))
    (exps : list (string * Z)) : option string :=
  if JsMap.size coll =? 0 then None
  else
    let oldestId := (scan_oldest exps None None).1 in
    if truthy oldestId then oldestId else head (JsMap.keys coll).

(** [removeMessage], [removeUser], ...: the result of [Map.delete] and the
    new state. *)
Definition remove (k : Kind) (id : string) (cm : t) : bool * t :=
  let cm1 := set_expirations k (JsMap.delete id (expirations k cm)) cm in
  (JsMap.has id (collection k cm1),
   set_collection k (JsMap.delete id (collection k cm1)) cm1).

(** [addMessage], [addUser], ...; [now] is the value of [Date.now()]. *)
Definition add (k : Kind) (id : string) (data : V) (now : Z) (cm : t) : t :=
  let cm1 :=
    if JsMap.size (collection k cm) >=? maxSize (options cm) k then
      let oldestId := _getOldestEntry (collection k cm) (expirations k cm) in
      match oldestId with
      | Some oid => if truthy oldestId then (remove k oid cm).2 else cm
      | None => cm
      end
    else cm in
  let cm2 := set_collection k (JsMap.set id data (collection k cm1)) cm1 in
  if lifetime (options cm2) k >? 0
  then set_expirations k
         (JsMap.set id (now + lifetime (options cm2) k) (expirations k cm2)) cm2
  else cm2.

(** [getMessage], [getUser], ... *)
Definition get (k : Kind) (id : string) (cm : t) : option V :=
  JsMap.get id (collection k cm).

(** One of the five loops of [sweep]: the number of removed entries and the
    new state. Deleting the entry under the cursor does not disturb the
    iteration over the remaining entries of a JavaScript [Map], so the loop
    runs over the entries present when it starts. *)
Definition sweep_kind (k : Kind) (now : Z) (cm : t) : Z * t :=
  if lifetime (options cm) k >? 0 then
    fold_left
      (fun (acc : Z * t) (e : string * Z) =>
         if now >? e.2 then (acc.1 + 1, (remove k e.1 acc.2).2) else acc)
      (expirations k cm) (0, cm)
  else (0, cm).

Record SweepResult := {
  deletedMessages : Z;
  deletedUsers : Z;
  deletedChannels : Z;
  deletedGuilds : Z;
  deletedMembers : Z
}.

Definition sweep (now : Z) (cm : t) : SweepResult * t :=
  let r1 := sweep_kind Messages now cm in
  let r2 := sweep_kind Users now r1.2 in
  let r3 := sweep_kind Channels now r2.2 in
  let r4 := sweep_kind Guilds now r3.2 in
  let r5 := sweep_kind Members now r4.2 in
  ({| deletedMessages := r1.1; deletedUsers := r2.1; deletedChannels := r3.1;
      deletedGuilds := r4.1; deletedMembers := r5.1 |}, r5.2).

Definition addMessage := add Messages.
Definition addUser := add Users.
Definition addChannel := add Channels.
Definition addGuild := add Guilds.
Definition addMember := add Members.
Definition removeMessage := remove Messages.
Definition removeUser := remove Users.
Definition getMessage := get Messages.
Definition getUser := get Users.

(** The operations a caller can apply to a manager, and their effect on the
    state. *)
Inductive Op :=
  | OpAdd (k : Kind) (id : string) (data : V) (now : Z)
  | OpGet (k : Kind) (id : string)
  | OpRemove (k : Kind) (id : string)
  | OpSweep (now : Z).

Definition step (cm : t) (op : Op) : t :=
  match op with
  | OpAdd k id data now => add k id data now cm
  | OpGet k id => cm
  | OpRemove k id => (remove k id cm).2
  | OpSweep now => (sweep now cm).2
  end.

Definition run (ops : list Op) (cm : t) : t := fold_left step ops cm.

(** The operation does not add [id] to the store of kind [k]. *)
Definition not_add (k : Kind) (id : string) (op : Op) : Prop :=
  match op with
  | OpAdd k' id' _ _ => k' ≠ k ∨ id' ≠ id
  | _ => True
  end.


(** *** Field access through [set_collection], [set_expirations], [remove] *)

Lemma collection_set_collection k c cm :
  collection k (set_collection k c cm) = c.
Proof. by destruct k. Qed.

Lemma collection_set_collection_ne k k' c cm :
  k ≠ k' → collection k' (set_collection k c cm) = collection k' cm.
Proof. by destruct k, k'. Qed.

Lemma expirations_set_collection k k' c cm :
  expirations k' (set_collection k c cm) = expirations k' cm.
Proof. by destruct k, k'. Qed.

Lemma options_set_collection k c cm :
  options (set_collection k c cm) = options cm.
Proof. by destruct k. Qed.

Lemma expirations_set_expirations k e cm :
  expirations k (set_expirations k e cm) = e.
Proof. by destruct k. Qed.

Lemma expirations_set_expirations_ne k k' e cm :
  k ≠ k' → expirations k' (set_expirations k e cm) = expirations k' cm.
Proof. by destruct k, k'. Qed.

Lemma collection_set_expirations k k' e cm :
  collection k' (set_expirations k e cm) = collection k' cm.
Proof. by destruct k, k'. Qed.

Lemma options_set_expirations k e cm :
  options (set_expirations k e cm) = options cm.
Proof. by destruct k. Qed.

Lemma collection_remove k id cm :
  collection k (remove k id cm).2 = JsMap.delete id (collection k cm).
Proof.
  unfold remove; simpl.
  by rewrite collection_set_collection, collection_set_expirations.
Qed.

Lemma expirations_remove k id cm :
  expirations k (remove k id cm).2 = JsMap.delete id (expirations k cm).
Proof.
  unfold remove; simpl.
  by rewrite expirations_set_collection, expirations_set_expirations.
Qed.

Lemma collection_remove_ne k k' id cm :
  k ≠ k' → collection k' (remove k id cm).2 = collection k' cm.
Proof.
  intros Hne. unfold remove; simpl.
  by rewrite collection_set_collection_ne, collection_set_expirations.
Qed.

Lemma expirations_remove_ne k k' id cm :
  k ≠ k' → expirations k' (remove k id cm).2 = expirations k' cm.
Proof.
  intros Hne. unfold remove; simpl.
  by rewrite expirations_set_collection, expirations_set_expirations_ne.
Qed.

Lemma options_remove k id cm : options (remove k id cm).2 = options cm.
Proof.
  unfold remove; simpl.
  by rewrite options_set_collection, options_set_expirations.
Qed.

#[local] Instance Kind_eq_dec : EqDecision Kind.
Proof. solve_decision. Defined.

(** *** The loop of [_getOldestEntry] finds a minimal expiration time *)

Lemma scan_oldest_spec es oid ot :
  (scan_oldest es oid ot = (oid, ot)
   ∧ Forall (λ e, lt_oldest e.2 ot = false) es)
  ∨ (∃ id t, scan_oldest es oid ot = (Some id, Some t)
       ∧ (id, t) ∈ es ∧ lt_oldest t ot = true
       ∧ Forall (λ e, t ≤ e.2) es).
Proof.
  revert oid ot. induction es as [|[id e] r IH]; intros oid ot; simpl.
  - left. by split.
  - destruct (lt_oldest e ot) eqn:Hlt.
    + right. destruct (IH (Some id) (Some e)) as [[Heq Hall]|(id' & t' & Heq & Hin & Hlt' & Hall)].
      * exists id, e. split; [done|]. split; [apply list_elem_of_here|].
        split; [done|]. apply Forall_cons. split; [simpl; lia|].
        eapply Forall_impl; [exact Hall|]. simpl. intros [? ?] H; simpl in *. lia.
      * exists id', t'. split; [done|]. split; [by apply list_elem_of_further|].
        simpl in Hlt'. split.
        -- destruct ot as [o|]; simpl in *; [lia|done].
        -- apply Forall_cons. split; [simpl; lia|done].
    + destruct (IH oid ot) as [[Heq Hall]|(id' & t' & Heq & Hin & Hlt' & Hall)].
      * left. split; [done|]. by apply Forall_cons.
      * right. exists id', t'. split; [done|].
        split; [by apply list_elem_of_further|]. split; [done|].
        apply Forall_cons. split; [|done].
        destruct ot as [o|]; simpl in *; [lia|done].
Qed.

(** From the initial [null] and [Infinity]: nothing is found exactly when
    there is no expiration record. *)
Lemma scan_oldest_init es :
  (es = [] ∧ scan_oldest es None None = (None, None))
  ∨ (∃ id t, scan_oldest es None None = (Some id, Some t)
       ∧ (id, t) ∈ es ∧ Forall (λ e, t ≤ e.2) es).
Proof.
  destruct (scan_oldest_spec es None None)
    as [[Heq Hall]|(id & t & Heq & Hin & _ & Hall)].
  - left. split; [|done]. destruct es as [|e r]; [done|].
    by apply Forall_cons in Hall as [? _].
  - right. by exists id, t.
Qed.

Lemma truthy_Some s : truthy (Some s) = true ↔ s ≠ "".
Proof.
  simpl. rewrite negb_true_iff. split.
  - intros H ->. by rewrite String.eqb_refl in H.
  - intros H. by apply String.eqb_neq.
Qed.


(** *** Size bound *)



Lemma options_add k id data now cm : options (add k id data now cm) = options cm.
Proof.
  unfold add.
  repeat (case_match; rewrite ?options_set_expirations, ?options_set_collection,
            ?options_remove); done.
Qed.


(** A property of the state that every removal preserves is preserved by a
    sweep. *)
Lemma sweep_loop_preserves (P : t → Prop) :
  (∀ k id cm, P cm → P (remove k id cm).2) →
  ∀ k now (l : list (string * Z)) (acc : Z * t),
    P acc.2 →
    P (fold_left
         (fun (acc : Z * t) (e : string * Z) =>
            if now >? e.2 then (acc.1 + 1, (remove k e.1 acc.2).2) else acc)
         l acc).2.
Proof.
  intros Hrem k now l. induction l as [|e r IH]; intros acc HP; simpl; [done|].
  destruct (now >? e.2); [|by apply IH]. apply IH. simpl. by apply Hrem.
Qed.

Lemma sweep_kind_preserves (P : t → Prop) :
  (∀ k id cm, P cm → P (remove k id cm).2) →
  ∀ k now cm, P cm → P (sweep_kind k now cm).2.
Proof.
  intros Hrem k now cm HP. unfold sweep_kind.
  destruct (lifetime (options cm) k >? 0); [|done].
  by apply sweep_loop_preserves.
Qed.

Lemma sweep_preserves (P : t → Prop) :
  (∀ k id cm, P cm → P (remove k id cm).2) →
  ∀ now cm, P cm → P (sweep now cm).2.
Proof.
  intros Hrem now cm HP. unfold sweep. simpl.
  by do 5 apply (sweep_kind_preserves P Hrem).
Qed.

Lemma options_step cm op : options (step cm op) = options cm.
Proof.
  destruct op as [k id data now|k id|k id|now]; simpl.
  - apply options_add.
  - done.
  - apply options_remove.
  - apply (sweep_preserves (λ c, options c = options cm)); [|done].
    intros k id c Hc. by rewrite options_remove.
Qed.

Lemma options_run ops cm : options (run ops cm) = options cm.
Proof.
  revert cm. induction ops as [|op r IH]; intros cm; simpl; [done|].
  unfold run in IH. by rewrite IH, options_step.
Qed.



(** *** The shape of the state after [add] *)

Lemma add_other_kind k k' id data now cm :
  k ≠ k' →
  collection k' (add k id data now cm) = collection k' cm
  ∧ expirations k' (add k id data now cm) = expirations k' cm.
Proof.
  intros Hk. unfold add.
  repeat (case_match;
    rewrite ?collection_set_expirations, ?expirations_set_collection,
      ?collection_set_collection_ne, ?expirations_set_expirations_ne,
      ?collection_remove_ne, ?expirations_remove_ne by done); done.
Qed.

Lemma add_shape k id data now cm :
  ∃ cm1, (cm1 = cm ∨ ∃ oid, cm1 = (remove k oid cm).2)
    ∧ collection k (add k id data now cm) = JsMap.set id data (collection k cm1)
    ∧ expirations k (add k id data now cm) =
        (if lifetime (options cm) k >? 0
         then JsMap.set id (now + lifetime (options cm) k) (expirations k cm1)
         else expirations k cm1).
Proof.
  unfold add.
  set (cm1 := if JsMap.size (collection k cm) >=? maxSize (options cm) k
              then _ else cm).
  assert (H1 : cm1 = cm ∨ ∃ oid, cm1 = (remove k oid cm).2).
  { subst cm1. repeat case_match; eauto. }
  assert (Ho : options cm1 = options cm).
  { destruct H1 as [->|[oid ->]]; [done|apply options_remove]. }
  exists cm1. split; [done|].
  rewrite options_set_collection, Ho.
  destruct (lifetime (options cm) k >? 0).
  - by rewrite collection_set_expirations, expirations_set_expirations,
      collection_set_collection, expirations_set_collection.
  - by rewrite collection_set_collection, expirations_set_collection.
Qed.

(** *** Eviction policy for non-empty ids *)

(** At capacity, with non-empty ids, [add] evicts an entry before
    inserting: one with the least expiration time, or the first inserted
    entry when no expiration is recorded. *)
Lemma eviction_policy_nonempty_ids k id data now cm :
  maxSize (options cm) k ≤ JsMap.size (collection k cm) →
  collection k cm ≠ [] →
  "" ∉ JsMap.keys (collection k cm) →
  "" ∉ JsMap.keys (expirations k cm) →
  ∃ victim,
    collection k (add k id data now cm) =
      JsMap.set id data (JsMap.delete victim (collection k cm))
    ∧ (expirations k cm = [] →
         head (JsMap.keys (collection k cm)) = Some victim)
    ∧ (expirations k cm ≠ [] →
         ∃ t, (victim, t) ∈ expirations k cm
              ∧ Forall (λ e, t ≤ e.2) (expirations k cm)).
Proof.
  intros Hcap Hne Hc He.
  assert (Hv : ∃ victim, _getOldestEntry (collection k cm) (expirations k cm)
                 = Some victim ∧ victim ≠ ""
      ∧ (expirations k cm = [] →
           head (JsMap.keys (collection k cm)) = Some victim)
      ∧ (expirations k cm ≠ [] →
           ∃ t, (victim, t) ∈ expirations k cm
                ∧ Forall (λ e, t ≤ e.2) (expirations k cm))).
  { unfold _getOldestEntry.
    destruct (collection k cm) as [|[k0 v0] r] eqn:Ec; [done|].
    unfold JsMap.size. cbn [length].
    destruct (Z.eqb_spec (Z.of_nat (S (length r))) 0) as [E|_]; [lia|].
    assert (Hk0 : k0 ≠ "").
    { intros ->. apply Hc. apply list_elem_of_here. }
    destruct (scan_oldest_init (expirations k cm))
      as [[Hnil Heq]|(i & t & Heq & Hin & Hall)]; rewrite Heq; simpl.
    - exists k0. split; [done|]. split; [done|]. split; [done|]. by intros ?.
    - assert (Hi : i ≠ "").
      { intros ->. apply He. apply list_elem_of_fmap. by exists ("", t). }
      apply String.eqb_neq in Hi as Hi'. rewrite Hi'. simpl.
      exists i. split; [done|]. split; [done|]. split.
      + intros E. rewrite E in Hin. by apply elem_of_nil in Hin.
      + intros _. by exists t. }
  destruct Hv as (victim & Hget & Hvne & Hnil & Hmin).
  exists victim. split; [|done].
  unfold add.
  apply Z.geb_le in Hcap. rewrite Hcap, Hget.
  apply truthy_Some in Hvne. rewrite Hvne.
  destruct (lifetime _ k >? 0).
  - by rewrite collection_set_expirations, collection_set_collection,
      collection_remove.
  - by rewrite collection_set_collection, collection_remove.
Qed.

(** *** Expiry *)

(** A stored [id] carries the expiration time [e]. *)
Definition stamped (k : Kind) (id : string) (e : Z) (cm : t) : Prop :=
  id ∈ JsMap.keys (collection k cm) →
  JsMap.get id (expirations k cm) = Some e.

Definition absent (k : Kind) (id : string) (cm : t) : Prop :=
  id ∉ JsMap.keys (collection k cm).

Lemma stamped_remove k id e k' id' cm :
  stamped k id e cm → stamped k id e (remove k' id' cm).2.
Proof.
  unfold stamped. intros H. destruct (decide (k' = k)) as [->|Hk].
  - rewrite collection_remove, expirations_remove, JsMap.keys_delete.
    intros [Hne Hin]. rewrite JsMap.get_delete_ne by done. by apply H.
  - by rewrite collection_remove_ne, expirations_remove_ne.
Qed.

Lemma absent_remove k id k' id' cm :
  absent k id cm → absent k id (remove k' id' cm).2.
Proof.
  unfold absent. intros H. destruct (decide (k' = k)) as [->|Hk].
  - rewrite collection_remove, JsMap.keys_delete. tauto.
  - by rewrite collection_remove_ne.
Qed.

Lemma stamped_add_other k id e k' id' data now cm :
  k' ≠ k ∨ id' ≠ id →
  stamped k id e cm → stamped k id e (add k' id' data now cm).
Proof.
  intros Hother H. destruct (decide (k' = k)) as [->|Hk].
  - destruct Hother as [?|Hid]; [done|].
    destruct (add_shape k id' data now cm) as (cm1 & H1 & Hc & He).
    assert (Hs1 : stamped k id e cm1).
    { destruct H1 as [->|[oid ->]]; [done|by apply stamped_remove]. }
    unfold stamped. rewrite Hc, He, JsMap.keys_set.
    intros [?|Hin]; [congruence|].
    destruct (lifetime _ k >? 0); [rewrite JsMap.get_set_ne by done|];
      by apply Hs1.
  - unfold stamped. by destruct (add_other_kind k' k id' data now cm Hk) as [-> ->].
Qed.

Lemma absent_add_other k id k' id' data now cm :
  k' ≠ k ∨ id' ≠ id →
  absent k id cm → absent k id (add k' id' data now cm).
Proof.
  intros Hother H. destruct (decide (k' = k)) as [->|Hk].
  - destruct Hother as [?|Hid]; [done|].
    destruct (add_shape k id' data now cm) as (cm1 & H1 & Hc & He).
    assert (Hs1 : absent k id cm1).
    { destruct H1 as [->|[oid ->]]; [done|by apply absent_remove]. }
    unfold absent. rewrite Hc, JsMap.keys_set. intros [?|?]; [congruence|done].
  - unfold absent. by destruct (add_other_kind k' k id' data now cm Hk) as [-> _].
Qed.

Lemma stamped_run k id e ops cm :
  Forall (not_add k id) ops → stamped k id e cm → stamped k id e (run ops cm).
Proof.
  intros Hops. revert cm. induction Hops as [|op r Hop Hr IH]; intros cm H; [done|].
  simpl. apply IH. destruct op as [k' id' data now|k' id'|k' id'|now]; simpl.
  - by apply stamped_add_other.
  - done.
  - by apply stamped_remove.
  - apply (sweep_preserves (stamped k id e)); [|done].
    intros k0 i c. apply stamped_remove.
Qed.

Lemma absent_run k id ops cm :
  Forall (not_add k id) ops → absent k id cm → absent k id (run ops cm).
Proof.
  intros Hops. revert cm. induction Hops as [|op r Hop Hr IH]; intros cm H; [done|].
  simpl. apply IH. destruct op as [k' id' data now|k' id'|k' id'|now]; simpl.
  - by apply absent_add_other.
  - done.
  - by apply absent_remove.
  - apply (sweep_preserves (absent k id)); [|done].
    intros k0 i c. apply absent_remove.
Qed.

Lemma stamped_add k id data now cm :
  0 < lifetime (options cm) k →
  stamped k id (now + lifetime (options cm) k) (add k id data now cm).
Proof.
  intros Hl _. destruct (add_shape k id data now cm) as (cm1 & _ & _ & ->).
  apply Z.gtb_lt in Hl. rewrite Hl. apply JsMap.get_set_eq.
Qed.

(** The loop of [sweep] for kind [k] removes a stamped entry whose
    expiration time has passed. *)
Lemma sweep_kind_removes k id e now cm :
  0 < lifetime (options cm) k → e < now →
  stamped k id e cm → absent k id (sweep_kind k now cm).2.
Proof.
  intros Hl He Hs. unfold sweep_kind. apply Z.gtb_lt in Hl. rewrite Hl.
  destruct (decide (id ∈ JsMap.keys (collection k cm))) as [Hin|Hout].
  2:{ apply (sweep_loop_preserves (absent k id)); [|done].
      intros k0 i c. apply absent_remove. }
  apply Hs, JsMap.get_Some_elem in Hin.
  generalize (0, cm). revert Hin. generalize (expirations k cm).
  intros l. induction l as [|x r IH]; intros Hin acc; cbn [fold_left].
  - by apply elem_of_nil in Hin.
  - apply elem_of_cons in Hin as [<-|Hin].
    + cbn [fst snd]. apply Z.gtb_lt in He. rewrite He.
      apply (sweep_loop_preserves (absent k id)).
      * intros k0 i c. apply absent_remove.
      * cbn [fst snd]. unfold absent.
        rewrite collection_remove, JsMap.keys_delete. tauto.
    + by apply IH.
Qed.

Lemma options_sweep_kind k now cm : options (sweep_kind k now cm).2 = options cm.
Proof.
  apply (sweep_kind_preserves (λ c, options c = options cm)); [|done].
  intros k0 id c Hc. by rewrite options_remove.
Qed.

Lemma sweep_removes k id e now cm :
  0 < lifetime (options cm) k → e < now →
  stamped k id e cm → absent k id (sweep now cm).2.
Proof.
  intros Hl He Hs.
  assert (Hst : ∀ k' c, stamped k id e c → stamped k id e (sweep_kind k' now c).2).
  { intros k' c. apply (sweep_kind_preserves (stamped k id e)).
    intros k0 i c0. apply stamped_remove. }
  assert (Hab : ∀ k' c, absent k id c → absent k id (sweep_kind k' now c).2).
  { intros k' c. apply (sweep_kind_preserves (absent k id)).
    intros k0 i c0. apply absent_remove. }
  assert (Hrm : ∀ c, options c = options cm → stamped k id e c →
                     absent k id (sweep_kind k now c).2).
  { intros c Hc. apply sweep_kind_removes; [by rewrite Hc|done]. }
  unfold sweep. simpl.
  destruct k; repeat first
    [ apply Hrm; [by rewrite ?options_sweep_kind|]
    | apply Hab
    | apply Hst
    | done ].
Qed.

(** C7 (amended). In a store with a lifetime greater than 0, an entry added
    at time [t0] and not added again is absent from [get] after any sweep
    that runs at a time strictly later than [t0 + lifetime], whatever other
    operations run before and after that sweep. *)
Theorem expired_entry_absent_after_sweep k id data t0 ops1 now ops2 (cm : t) :
  0 < lifetime (options cm) k →
  t0 + lifetime (options cm) k < now →
  Forall (not_add k id) ops1 →
  Forall (not_add k id) ops2 →
  get k id (run ops2 (sweep now (run ops1 (add k id data t0 cm))).2) = None.
Proof.
  intros Hl Hnow Hops1 Hops2. unfold get. apply JsMap.get_None_keys.
  apply absent_run; [done|].
  apply (sweep_removes k id (t0 + lifetime (options cm) k)).
  - by rewrite options_run, options_add.
  - done.
  - apply stamped_run; [done|]. by apply stamped_add.
Qed.

End Data.
Arguments t : clear implicits.
Arguments Op : clear implicits.

(** Options that differ from the defaults in the bounds of the message store
    and in the lifetime of the user store. *)
Definition options_with (messageMax messageLife userLife : Z) : Options := {|
  messageCacheMaxSize := messageMax;
  messageCacheLifetime := messageLife;
  messageSweepInterval := 0;
  userCacheMaxSize := 1000;
  userCacheLifetime := userLife;
  channelCacheMaxSize := 1000;
  channelCacheLifetime := 3600000;
  guildCacheMaxSize := 100;
  guildCacheLifetime := 3600000;
  memberCacheMaxSize := 2000;
  memberCacheLifetime := 3600000;
  sweepInterval := 300000
|}.

Lemma expired_entry_absent_after_sweep_witness :
  let cm : t string := constructor (options_with 200 0 10) in
  let ops1 := [OpGet Users "u"; OpAdd Users "v" "V" 5; OpSweep 7] in
  0 < lifetime (options cm) Users
  ∧ 0 + lifetime (options cm) Users < 11
  ∧ get Users "u"
      (run [OpGet Users "u"]
         (sweep 11 (run ops1 (add Users "u" "U" 0 cm))).2) = None.
Proof.
  cbv zeta. split; [reflexivity|]. split; [reflexivity|].
  apply (expired_entry_absent_after_sweep Users "u" "U" 0
           [OpGet Users "u"; OpAdd Users "v" "V" 5; OpSweep 7] 11
           [OpGet Users "u"] (constructor (options_with 200 0 10))).
  - reflexivity.
  - reflexivity.
  - repeat (apply Forall_cons; split); try apply Forall_nil; simpl;
      try exact I. right. discriminate.
  - repeat (apply Forall_cons; split); try apply Forall_nil; exact I.
Defined.

(** C7 as stated fails on the boundary: a sweep that runs exactly at
    [t0 + lifetime] keeps the entry, because [sweep] tests
    [now > expireTime]. *)
Lemma sweep_at_expiry_keeps_entry :
  let cm : t string := constructor (options_with 200 0 10) in
  0 < lifetime (options cm) Users
  ∧ 0 + lifetime (options cm) Users <= 10
  ∧ getUser "u" (sweep 10 (addUser "u" "U" 0 cm)).2 = Some "U".
Proof. cbv zeta. split; [reflexivity|]. split; [simpl; lia|reflexivity]. Qed.

(** The scenario of the specification: capacity 2, no lifetime, ids "a", "b",
    "c" in that order. *)
Lemma eviction_scenario_a_b_c :
  let cm : t string := constructor (options_with 2 0 3600000) in
  messages (addMessage "c" "C" 2 (addMessage "b" "B" 1 (addMessage "a" "A" 0 cm)))
  = [("b", "B"); ("c", "C")].
Proof. reflexivity. Qed.

(** C4 (the code breaks the bound). With [messageCacheMaxSize = 0] the first
    [addMessage] finds nothing to evict and inserts anyway; with capacity 1
    and the empty string as the stored id, [_getOldestEntry] returns the
    empty string, which [addMessage] takes for "no entry" and skips the
    eviction. In both runs the store ends above its maximum. *)
Theorem size_bound_broken :
  let cm0 : t string := constructor (options_with 0 0 3600000) in
  let cm1 : t string := constructor (options_with 1 0 3600000) in
  (maxSize (options cm0) Messages = 0
   ∧ JsMap.size (messages (addMessage "a" "A" 0 cm0)) = 1)
  ∧ (maxSize (options cm1) Messages = 1
     ∧ messages (addMessage "a" "A" 1 (addMessage "" "E" 0 cm1))
       = [("", "E"); ("a", "A")]).
Proof. cbv zeta. repeat split; reflexivity. Qed.

(** C5 (the code misses the eviction target when it is the empty string).
    Without lifetime and at capacity 2, after "", "b", "c" nothing has been
    evicted although "" was inserted first. With lifetime 10 and capacity 3,
    the entry "" holds the least expiration time (11) when "c" arrives, and
    the entry "a" (expiration 15) is evicted in its place. *)
Theorem eviction_skips_empty_id :
  let cm2 : t string := constructor (options_with 2 0 3600000) in
  let cm3 : t string := constructor (options_with 3 10 3600000) in
  let full3 :=
    addMessage "b" "B" 6
      (addMessage "a" "A2" 5 (addMessage "" "E" 1 (addMessage "a" "A" 0 cm3))) in
  messages (addMessage "c" "C" 2 (addMessage "b" "B" 1 (addMessage "" "E" 0 cm2)))
  = [("", "E"); ("b", "B"); ("c", "C")]
  ∧ _messageExpires full3 = [("a", 15); ("", 11); ("b", 16)]
  ∧ _getOldestEntry (messages full3) (_messageExpires full3) = Some "a"
  ∧ messages (addMessage "c" "C" 7 full3)
    = [("", "E"); ("b", "B"); ("c", "C")].
Proof. cbv zeta. repeat split; reflexivity. Qed.

(** *** Further properties of the stores *)


Definition options_two_users : Options := {|
  messageCacheMaxSize := 200; messageCacheLifetime := 0;
  messageSweepInterval := 0; userCacheMaxSize := 2;
  userCacheLifetime := 10; channelCacheMaxSize := 1000;
  channelCacheLifetime := 3600000; guildCacheMaxSize := 100;
  guildCacheLifetime := 3600000; memberCacheMaxSize := 2000;
  memberCacheLifetime := 3600000; sweepInterval := 300000
|}.

Lemma eviction_policy_nonempty_ids_witness :
  let full : t string :=
    addUser "b" "B" 5 (addUser "a" "A" 9 (constructor options_two_users)) in
  maxSize (options full) Users ≤ JsMap.size (collection Users full)
  ∧ collection Users full ≠ []
  ∧ ("" ∉ JsMap.keys (collection Users full))
  ∧ ("" ∉ JsMap.keys (expirations Users full))
  ∧ ∃ victim,
      collection Users (add Users "c" "C" 20 full) =
        JsMap.set "c" "C" (JsMap.delete victim (collection Users full))
      ∧ (expirations Users full = [] →
           head (JsMap.keys (collection Users full)) = Some victim)
      ∧ (expirations Users full ≠ [] →
           ∃ t, (victim, t) ∈ expirations Users full
                ∧ Forall (λ e, t ≤ e.2) (expirations Users full)).
Proof.
  cbv zeta.
  set (full := addUser "b" "B" 5 (addUser "a" "A" 9 (constructor _))).
  assert (H1 : maxSize (options full) Users ≤ JsMap.size (collection Users full))
    by (vm_compute; discriminate).
  assert (H2 : collection Users full ≠ []) by (vm_compute; discriminate).
  assert (H3 : "" ∉ JsMap.keys (collection Users full)).
  { intros H. apply list_elem_of_In in H. vm_compute in H.
    intuition discriminate. }
  assert (H4 : "" ∉ JsMap.keys (expirations Users full)).
  { intros H. apply list_elem_of_In in H. vm_compute in H.
    intuition discriminate. }
  split; [exact H1|]. split; [exact H2|]. split; [exact H3|].
  split; [exact H4|].
  exact (eviction_policy_nonempty_ids Users "c" "C" 20 full H1 H2 H3 H4).
Defined.

Section Extras.
Context {V : Type}.
Implicit Types cm : t V.

#[local] Instance Kind_eq_decision : EqDecision Kind.
Proof. solve_decision. Defined.

(** X3. An entry that was added is returned by [get]; stores of other kinds
    are not touched; and below capacity no other entry of the store is
    lost. *)
Theorem add_then_get k id (data : V) now cm :
  get k id (add k id data now cm) = Some data
  ∧ (∀ k' id', k' ≠ k → get k' id' (add k id data now cm) = get k' id' cm)
  ∧ (JsMap.size (collection k cm) < maxSize (options cm) k →
     ∀ id', id' ≠ id → get k id' (add k id data now cm) = get k id' cm).
Proof.
  split; [|split].
  - unfold get. destruct (add_shape k id data now cm) as (cm1 & _ & -> & _).
    apply JsMap.get_set_eq.
  - intros k' id' Hk. unfold get.
    by destruct (add_other_kind k k' id data now cm) as [-> _].
  - intros Hlt id' Hid. unfold get, add.
    destruct (JsMap.size (collection k cm) >=? maxSize (options cm) k) eqn:E.
    { zbool. lia. }
    destruct (lifetime _ k >? 0).
    + rewrite collection_set_expirations, collection_set_collection.
      by apply JsMap.get_set_ne.
    + rewrite collection_set_collection. by apply JsMap.get_set_ne.
Qed.

(** X4. [remove] tells whether the id was stored, removes the entry and its
    expiration record, and leaves every other entry in place. *)
Theorem remove_then_get k id cm :
  (remove k id cm).1 = bool_decide (is_Some (get k id cm))
  ∧ get k id (remove k id cm).2 = None
  ∧ JsMap.get id (expirations k (remove k id cm).2) = None
  ∧ (∀ k' id', k' ≠ k ∨ id' ≠ id →
       get k' id' (remove k id cm).2 = get k' id' cm).
Proof.
  split; [|split; [|split]].
  - unfold remove, get, JsMap.has. simpl. rewrite collection_set_expirations.
    destruct (JsMap.get id (collection k cm)) eqn:E.
    + symmetry. apply bool_decide_eq_true. by eexists.
    + symmetry. apply bool_decide_eq_false. by intros [? ?].
  - unfold get. rewrite collection_remove. apply JsMap.get_delete_eq.
  - rewrite expirations_remove. apply JsMap.get_delete_eq.
  - intros k' id' Hne. unfold get.
    destruct (decide (k = k')) as [<-|Hk].
    + rewrite collection_remove. destruct Hne as [?|Hid]; [done|].
      apply JsMap.get_delete_ne. congruence.
    + by rewrite collection_remove_ne.
Qed.

(** The stores and their expiration records agree: records belong to stored
    entries, every entry of a store with a lifetime has a record, a store
    without lifetime has none, and no key occurs twice. *)
Definition agreeing (k : Kind) cm : Prop :=
  (∀ id, id ∈ JsMap.keys (expirations k cm) → id ∈ JsMap.keys (collection k cm))
  ∧ (0 < lifetime (options cm) k →
     ∀ id, id ∈ JsMap.keys (collection k cm) → id ∈ JsMap.keys (expirations k cm))
  ∧ (lifetime (options cm) k ≤ 0 → expirations k cm = [])
  ∧ NoDup (JsMap.keys (collection k cm))
  ∧ NoDup (JsMap.keys (expirations k cm)).

Lemma delete_nil_stays k (m : list (string * Z)) :
  m = [] → JsMap.delete k m = [].
Proof. by intros ->. Qed.

Lemma agreeing_remove k k' id cm :
  agreeing k cm → agreeing k (remove k' id cm).2.
Proof.
  intros (H1 & H2 & H3 & H4 & H5). unfold agreeing. rewrite options_remove.
  destruct (decide (k' = k)) as [->|Hk].
  - rewrite collection_remove, expirations_remove.
    split; [|split; [|split; [|split]]].
    + intros i. rewrite !JsMap.keys_delete. intros [? ?]. split; [done|auto].
    + intros Hl i. rewrite !JsMap.keys_delete. intros [? ?]. split; [done|auto].
    + intros Hl. by apply delete_nil_stays, H3.
    + by apply JsMap.NoDup_keys_delete.
    + by apply JsMap.NoDup_keys_delete.
  - by rewrite collection_remove_ne, expirations_remove_ne.
Qed.

Lemma agreeing_add k k' id (data : V) now cm :
  agreeing k cm → agreeing k (add k' id data now cm).
Proof.
  intros Ha. unfold agreeing. rewrite options_add.
  destruct (decide (k' = k)) as [->|Hk].
  2:{ by destruct (add_other_kind k' k id data now cm Hk) as [-> ->]. }
  destruct (add_shape k id data now cm) as (cm1 & Hcm1 & -> & ->).
  assert (H : agreeing k cm1 ∧ options cm1 = options cm).
  { destruct Hcm1 as [->|[oid ->]]; [done|].
    split; [by apply agreeing_remove|apply options_remove]. }
  destruct H as [(H1 & H2 & H3 & H4 & H5) Ho]. rewrite Ho in *.
  destruct (Z.gtb_spec (lifetime (options cm) k) 0) as [Hl|Hl].
  - split; [|split; [|split; [|split]]].
    + intros i. rewrite !JsMap.keys_set. intros [?|?]; [by left|right; auto].
    + intros _ i. rewrite !JsMap.keys_set. intros [?|?]; [by left|right].
      apply H2; [lia|done].
    + lia.
    + by apply JsMap.NoDup_keys_set.
    + by apply JsMap.NoDup_keys_set.
  - split; [|split; [|split; [|split]]].
    + intros i Hi. apply JsMap.keys_set. right. auto.
    + lia.
    + done.
    + by apply JsMap.NoDup_keys_set.
    + done.
Qed.

(** *** Which entry is evicted *)

(** The loop of [_getOldestEntry] stops at the first record with the least
    expiration time: the records before it expire later, those after it not
    earlier. *)
Lemma scan_oldest_first es oid ot :
  (scan_oldest es oid ot = (oid, ot)
   ∧ Forall (λ e, lt_oldest e.2 ot = false) es)
  ∨ (∃ id t before after,
       scan_oldest es oid ot = (Some id, Some t)
       ∧ es = before ++ (id, t) :: after
       ∧ lt_oldest t ot = true
       ∧ Forall (λ e, t < e.2) before
       ∧ Forall (λ e, t ≤ e.2) after).
Proof.
  revert oid ot. induction es as [|[id e] r IH]; intros oid ot; simpl.
  - left. by split.
  - destruct (lt_oldest e ot) eqn:Hlt.
    + right.
      destruct (IH (Some id) (Some e))
        as [[Heq Hall]|(id' & t' & b & a & Heq & Hes & Hlt' & Hb & Ha)].
      * exists id, e, [], r. split; [done|]. split; [done|]. split; [done|].
        split; [apply Forall_nil_2|].
        eapply Forall_impl; [exact Hall|]. simpl. intros [? ?] H; simpl in *.
        lia.
      * exists id', t', ((id, e) :: b), a. split; [done|].
        split; [by rewrite Hes|]. simpl in Hlt'. split.
        -- destruct ot as [o|]; simpl in *; [lia|done].
        -- split; [|done]. apply Forall_cons. split; [simpl; lia|done].
    + destruct (IH oid ot)
        as [[Heq Hall]|(id' & t' & b & a & Heq & Hes & Hlt' & Hb & Ha)].
      * left. split; [done|]. by apply Forall_cons.
      * right. exists id', t', ((id, e) :: b), a. split; [done|].
        split; [by rewrite Hes|]. split; [done|]. split; [|done].
        apply Forall_cons. split; [|done].
        destruct ot as [o|]; simpl in *; [lia|done].
Qed.

Lemma delete_absent {A} key (m : list (string * A)) :
  key ∉ JsMap.keys m → JsMap.delete key m = m.
Proof.
  induction m as [|[k0 v0] r IH]; simpl; [done|]. intros Hn.
  apply not_elem_of_cons in Hn as [Hne Hn].
  destruct (decide (key = k0)); [done|]. by rewrite IH.
Qed.

Lemma size_delete_present {A} key (m : list (string * A)) :
  NoDup (JsMap.keys m) → key ∈ JsMap.keys m →
  JsMap.size (JsMap.delete key m) = JsMap.size m - 1.
Proof.
  unfold JsMap.size. induction m as [|[k0 v0] r IH]; simpl; intros Hnd Hin.
  - by apply elem_of_nil in Hin.
  - apply NoDup_cons in Hnd as [Hnotin Hnd].
    destruct (decide (key = k0)) as [->|Hne].
    + rewrite delete_absent by done. lia.
    + apply elem_of_cons in Hin as [?|Hin]; [done|].
      specialize (IH Hnd Hin). simpl. lia.
Qed.

(** X2. In a state in which the store and its expiration records agree (as
    in every state reached from a new manager), with a non-empty store at or
    over its maximum size and no empty id in it, [add] evicts exactly one
    stored entry before it inserts: the entry of the first expiration record
    with the least time, in the order in which the records were made, or the
    entry inserted first when there is no record. Every other entry
    stays. *)
Theorem eviction_evicts_first_oldest k id (data : V) now cm :
  agreeing k cm →
  maxSize (options cm) k ≤ JsMap.size (collection k cm) →
  collection k cm ≠ [] →
  "" ∉ JsMap.keys (collection k cm) →
  ∃ victim,
    victim ∈ JsMap.keys (collection k cm)
    ∧ collection k (add k id data now cm)
      = JsMap.set id data (JsMap.delete victim (collection k cm))
    ∧ JsMap.size (JsMap.delete victim (collection k cm))
      = JsMap.size (collection k cm) - 1
    ∧ (victim ≠ id → get k victim (add k id data now cm) = None)
    ∧ (∀ id', id' ≠ victim → id' ≠ id →
         get k id' (add k id data now cm) = get k id' cm)
    ∧ (expirations k cm = [] →
         head (JsMap.keys (collection k cm)) = Some victim)
    ∧ (expirations k cm ≠ [] →
         ∃ before t after,
           expirations k cm = before ++ (victim, t) :: after
           ∧ Forall (λ e, t < e.2) before
           ∧ Forall (λ e, t ≤ e.2) after).
Proof.
  intros (Hsub & _ & _ & Hnd & _) Hcap Hne Hc.
  assert (Hv : ∃ victim, _getOldestEntry (collection k cm) (expirations k cm)
                 = Some victim ∧ victim ≠ ""
      ∧ victim ∈ JsMap.keys (collection k cm)
      ∧ (expirations k cm = [] →
           head (JsMap.keys (collection k cm)) = Some victim)
      ∧ (expirations k cm ≠ [] →
           ∃ before t after,
             expirations k cm = before ++ (victim, t) :: after
             ∧ Forall (λ e, t < e.2) before
             ∧ Forall (λ e, t ≤ e.2) after)).
  { unfold _getOldestEntry.
    destruct (collection k cm) as [|[k0 v0] r] eqn:Ec; [done|].
    unfold JsMap.size. cbn [length].
    destruct (Z.eqb_spec (Z.of_nat (S (length r))) 0) as [E|_]; [lia|].
    assert (Hk0 : k0 ≠ "").
    { intros ->. apply Hc. apply list_elem_of_here. }
    destruct (scan_oldest_first (expirations k cm) None None)
      as [[Heq Hall]|(i & t & b & a & Heq & Hes & _ & Hb & Ha)];
      rewrite Heq; simpl.
    - assert (Hnil : expirations k cm = []).
      { destruct (expirations k cm) as [|e es]; [done|].
        by apply Forall_cons in Hall as [? _]. }
      exists k0. split; [done|]. split; [done|].
      split; [apply list_elem_of_here|]. split; [done|]. by intros ?.
    - assert (Hin : i ∈ JsMap.keys (expirations k cm)).
      { rewrite Hes. unfold JsMap.keys. rewrite fmap_app, fmap_cons.
        apply elem_of_app. right. apply list_elem_of_here. }
      assert (Hi : i ≠ "").
      { intros ->. apply Hc. by apply Hsub. }
      apply String.eqb_neq in Hi as Hi'. rewrite Hi'. simpl.
      exists i. split; [done|]. split; [done|].
      split; [by apply Hsub|]. split.
      + intros E. rewrite E in Hes. by destruct b.
      + intros _. by exists b, t, a. }
  destruct Hv as (victim & Hget & Hvne & Hvin & Hnil & Hmin).
  assert (Hcoll : collection k (add k id data now cm)
                  = JsMap.set id data (JsMap.delete victim (collection k cm))).
  { unfold add. apply Z.geb_le in Hcap. rewrite Hcap, Hget.
    apply truthy_Some in Hvne. rewrite Hvne.
    destruct (lifetime _ k >? 0).
    - by rewrite collection_set_expirations, collection_set_collection,
        collection_remove.
    - by rewrite collection_set_collection, collection_remove. }
  exists victim. split; [done|]. split; [done|].
  split; [by apply size_delete_present|].
  split; [|split; [|done]].
  - intros Hvi. unfold get. rewrite Hcoll.
    rewrite JsMap.get_set_ne by done. apply JsMap.get_delete_eq.
  - intros id' Hv Hi. unfold get. rewrite Hcoll.
    rewrite JsMap.get_set_ne by done. by apply JsMap.get_delete_ne.
Qed.

(** X5. After every sequence of operations on a new manager, each store and
    its expiration records agree. *)
Theorem stores_and_expirations_agree o k (ops : list (Op V)) :
  agreeing k (run ops (constructor o)).
Proof.
  assert (H0 : agreeing k (@constructor V o)).
  { unfold agreeing.
    destruct k; simpl; repeat split; try done; try apply NoDup_nil_2;
      intros i Hi; by apply elem_of_nil in Hi. }
  revert H0. generalize (@constructor V o).
  induction ops as [|op r IH]; intros cm H; [done|].
  simpl. apply IH.
  destruct op as [k' id data now|k' id|k' id|now]; simpl.
  - by apply agreeing_add.
  - done.
  - by apply agreeing_remove.
  - apply (sweep_preserves (agreeing k)); [|done].
    intros k0 i c. apply agreeing_remove.
Qed.

Lemma elem_of_delete k x (m : list (string * Z)) :
  x ∈ JsMap.delete k m → x ∈ m.
Proof.
  induction m as [|[k0 v0] r IH]; simpl; [done|].
  destruct (decide (k = k0)).
  - intros H. apply list_elem_of_further. by apply IH.
  - rewrite !elem_of_cons. intros [->|H]; [by left|right; by apply IH].
Qed.

(** No expiration recorded for [id] in store [k] has passed at [now]; and
    the entry and its record are [g] and [e]. *)
Definition unexpired (k : Kind) (id : string) (now : Z)
    (g : option V) (e : option Z) cm : Prop :=
  (∀ x, (id, x) ∈ expirations k cm → now ≤ x)
  ∧ get k id cm = g
  ∧ JsMap.get id (expirations k cm) = e.

Lemma unexpired_remove k id now g e k' id' cm :
  k' ≠ k ∨ id' ≠ id →
  unexpired k id now g e cm → unexpired k id now g e (remove k' id' cm).2.
Proof.
  intros Hne (H1 & H2 & H3). unfold unexpired, get.
  destruct (decide (k' = k)) as [->|Hk].
  - destruct Hne as [?|Hid]; [done|].
    rewrite collection_remove, expirations_remove.
    rewrite !JsMap.get_delete_ne by done. split; [|done].
    intros x Hx. apply H1. by eapply elem_of_delete.
  - by rewrite collection_remove_ne, expirations_remove_ne.
Qed.

Lemma unexpired_sweep_kind k id now g e k' cm :
  unexpired k id now g e cm → unexpired k id now g e (sweep_kind k' now cm).2.
Proof.
  intros Hu. unfold sweep_kind. destruct (lifetime _ k' >? 0); [|done].
  assert (Hl : ∀ x, x ∈ expirations k' cm → now > x.2 → k' ≠ k ∨ x.1 ≠ id).
  { intros [i x] Hin Hgt. destruct (decide (k' = k)) as [->|?]; [|by left].
    right. simpl in *. intros ->. destruct Hu as (H1 & _).
    specialize (H1 x Hin). lia. }
  revert Hl. generalize (expirations k' cm). intros l.
  assert (Hacc : unexpired k id now g e (0, cm).2) by done.
  revert Hacc. generalize (0, cm).
  induction l as [|x r IH]; intros acc Hacc Hl; cbn [fold_left]; [done|].
  apply IH.
  - destruct (Z.gtb_spec now x.2) as [Hgt|_]; [|done]. cbn [snd].
    apply unexpired_remove; [|done].
    apply Hl; [apply list_elem_of_here|lia].
  - intros y Hy. apply Hl. by apply list_elem_of_further.
Qed.

(** X6. [sweep] spares what has not expired: when no expiration recorded for
    an id has passed (or none is recorded), the entry and its record are the
    same after the sweep. *)
Theorem sweep_spares_unexpired k id now cm :
  (∀ x, (id, x) ∈ expirations k cm → now ≤ x) →
  get k id (sweep now cm).2 = get k id cm
  ∧ JsMap.get id (expirations k (sweep now cm).2)
    = JsMap.get id (expirations k cm).
Proof.
  intros H.
  assert (Hu : unexpired k id now (get k id cm)
                 (JsMap.get id (expirations k cm)) cm) by done.
  assert (Hs : unexpired k id now (get k id cm)
                 (JsMap.get id (expirations k cm)) (sweep now cm).2).
  { unfold sweep. cbn [snd]. by do 5 apply unexpired_sweep_kind. }
  by destruct Hs as (_ & ? & ?).
Qed.

End Extras.

Lemma add_then_get_witness :
  let cm : t string := addMessage "a" "A" 0 (constructor (options_with 2 0 10)) in
  JsMap.size (collection Messages cm) < maxSize (options cm) Messages
  ∧ get Messages "a" (add Messages "b" "B" 1 cm) = get Messages "a" cm.
Proof.
  cbv zeta.
  set (cm := addMessage "a" "A" 0 (constructor (options_with 2 0 10))).
  assert (H : JsMap.size (collection Messages cm) < maxSize (options cm) Messages)
    by (vm_compute; reflexivity).
  split; [exact H|].
  destruct (add_then_get Messages "b" "B" 1 cm) as (_ & _ & Hkeep).
  apply (Hkeep H). discriminate.
Defined.

Lemma remove_then_get_witness :
  let cm : t string := addMessage "a" "A" 0 (constructor (options_with 2 0 10)) in
  (Messages ≠ Messages ∨ "b" ≠ "a")
  ∧ get Messages "b" (remove Messages "a" cm).2 = get Messages "b" cm.
Proof.
  cbv zeta.
  assert (H : Messages ≠ Messages ∨ "b" ≠ "a") by (right; discriminate).
  split; [exact H|].
  destruct (remove_then_get Messages "a"
              (addMessage "a" "A" 0 (constructor (options_with 2 0 10))))
    as (_ & _ & _ & Hother).
  exact (Hother Messages "b" H).
Defined.

Lemma eviction_evicts_first_oldest_witness :
  let full : t string :=
    addUser "b" "B" 5 (addUser "a" "A" 5 (constructor options_two_users)) in
  agreeing Users full
  ∧ maxSize (options full) Users ≤ JsMap.size (collection Users full)
  ∧ collection Users full ≠ []
  ∧ ("" ∉ JsMap.keys (collection Users full))
  ∧ ∃ victim,
      victim ∈ JsMap.keys (collection Users full)
      ∧ collection Users (add Users "c" "C" 20 full)
        = JsMap.set "c" "C" (JsMap.delete victim (collection Users full))
      ∧ (expirations Users full ≠ [] →
           ∃ before t after,
             expirations Users full = before ++ (victim, t) :: after
             ∧ Forall (λ e, t < e.2) before
             ∧ Forall (λ e, t ≤ e.2) after).
Proof.
  cbv zeta.
  set (full := addUser "b" "B" 5 (addUser "a" "A" 5 (constructor _))).
  assert (H0 : agreeing Users full).
  { subst full. unfold addUser. do 2 apply agreeing_add.
    unfold agreeing. simpl. repeat split; try done; try apply NoDup_nil_2;
      intros i Hi; by apply elem_of_nil in Hi. }
  assert (H1 : maxSize (options full) Users ≤ JsMap.size (collection Users full))
    by (vm_compute; discriminate).
  assert (H2 : collection Users full ≠ []) by (vm_compute; discriminate).
  assert (H3 : "" ∉ JsMap.keys (collection Users full)).
  { intros H. apply list_elem_of_In in H. vm_compute in H.
    intuition discriminate. }
  split; [exact H0|]. split; [exact H1|]. split; [exact H2|].
  split; [exact H3|].
  destruct (eviction_evicts_first_oldest Users "c" "C" 20 full H0 H1 H2 H3)
    as (victim & Hin & Hcoll & _ & _ & _ & _ & Hfirst).
  exists victim. split; [exact Hin|]. split; [exact Hcoll|exact Hfirst].
Defined.

(** In that state both records expire at 15; the entry of the first one is
    evicted. *)
Lemma eviction_tie_takes_first :
  let full : t string :=
    addUser "b" "B" 5 (addUser "a" "A" 5 (constructor options_two_users)) in
  expirations Users full = [("a", 15); ("b", 15)]
  ∧ collection Users (add Users "c" "C" 20 full) = [("b", "B"); ("c", "C")].
Proof. vm_compute. split; reflexivity. Qed.

Lemma sweep_spares_unexpired_witness :
  let cm : t string := addUser "u" "U" 5 (constructor (options_with 2 0 10)) in
  (∀ x, ("u", x) ∈ expirations Users cm → 15 ≤ x)
  ∧ get Users "u" (sweep 15 cm).2 = get Users "u" cm.
Proof.
  cbv zeta.
  set (cm := addUser "u" "U" 5 (constructor (options_with 2 0 10))).
  assert (H : ∀ x, ("u", x) ∈ expirations Users cm → 15 ≤ x).
  { intros x Hx. apply list_elem_of_In in Hx. vm_compute in Hx.
    destruct Hx as [Hx|[]]. injection Hx as <-. lia. }
  split; [exact H|].
  destruct (sweep_spares_unexpired Users "u" 15 cm H) as [Hg _]. exact Hg.
Defined.

End CacheManager.

(** ** Timers of the host *)

(** Node's [setTimeout] and [setInterval] replace a delay that is not in
    [1 .. 2^31 - 1] by 1 millisecond. *)
Definition TIMEOUT_MAX : Z := 2147483647.

Definition timer_delay (after : Z) : Z :=
  if (1 <=? after) && (after <=? TIMEOUT_MAX) then after else 1.

Lemma timer_delay_pos after : 1 ≤ timer_delay after.
Proof. unfold timer_delay. destruct (_ && _) eqn:E; [|lia]. apply andb_true_iff in E as [E _]. lia. Qed.

Lemma timer_delay_id after :
  1 ≤ after ≤ TIMEOUT_MAX → timer_delay after = after.
Proof.
  intros [H1 H2]. unfold timer_delay.
  apply Z.leb_le in H1, H2. by rewrite H1, H2.
Qed.

(** ** ThrottlingManager (dist/util/ThrottlingManager.js) *)

Module ThrottlingManager.

(** [\d] of a regular expression without the [u] flag: the ten ASCII digits. *)
Definition is_digit (a : ascii) : bool :=
  let n := nat_of_ascii a in (48 <=? n)%nat && (n <=? 57)%nat.

(** [route.replace(/\d+/g, ':id')]: every maximal run of digits becomes
    [:id]. [in_run] tells whether the previous character was a digit. *)
Fixpoint replace_digit_runs (in_run : bool) (s : string) : string :=
  match s with
  | EmptyString => EmptyString
  | String a r =>
      if is_digit a then
        if in_run then replace_digit_runs true r
        else (":id" +:+ replace_digit_runs true r)
      else String a (replace_digit_runs false r)
  end.

Definition formatRoute (route : string) : string :=
  replace_digit_runs false route.

(** The callers' operations are told apart by a number: a queue entry
    [() => this._executeCallback(route, callback, resolve, reject)] is the
    number of its [callback]. *)
Definition Op := nat.

(** How the promise returned by a callback settles. A rejection carries
    [error.status] and [error.response?.data?.retry_after]. *)
Inductive Outcome :=
  | Fulfilled
  | Rejected (status : option Z) (retry_after : option Z).

Record Stats := {
  totalRequests : Z;
  throttledRequests : Z;
  succeededRequests : Z;
  failedRequests : Z;
  lastRequest : option Z
}.

Definition no_stats : Stats := {|
  totalRequests := 0; throttledRequests := 0; succeededRequests := 0;
  failedRequests := 0; lastRequest := None
|}.

(** The fields of the manager. *)
Record Manager := {
  _maxRequestsPerMinute : Qc;
  _retryAfter : Z;
  _bufferSize : Qc;
  _requestLog : gmap string (list Z);
  _queue : gmap string (list Op);
  _rateLimit : gmap string bool;
  _limitTimers : gmap string nat;
  _stats : Stats
}.

(** What a pending [setTimeout] will run. *)
Inductive Task :=
  | ProcessQueue (route : string)
  | ResetLimit (route : string).

Record Timer := { timer_id : nat; fires_at : Z; task : Task }.

(** The host: the time of the latest event, the pending timers, and the
    callbacks that were started and whose promise has not settled yet. *)
Record Host := {
  clock : Z;
  timers : list Timer;
  next_timer : nat;
  inflight : list (Op * string)
}.

(** History variables, for stating properties only: the operations put into
    a queue, taken from a queue, and started, each with its route, in the
    order of the events. *)
Record History := {
  enqueued : list (string * Op);
  dequeued : list (string * Op);
  executed : list (string * Op)
}.

Record World := { mgr : Manager; host : Host; hist : History }.

Record ThrottlingOptions := {
  maxRequestsPerMinute : option Qc;
  retryAfter : option Z;
  bufferSize : option Qc
}.

(** [x || d] on numbers: [undefined] and [0] give [d]. *)
Definition or_default_Qc (x : option Qc) (d : Qc) : Qc :=
  match x with
  | Some v => if decide (v = Q2Qc 0) then d else v
  | None => d
  end.

Definition or_default_Z (x : option Z) (d : Z) : Z :=
  match x with
  | Some v => if decide (v = 0) then d else v
  | None => d
  end.

Definition constructor (options : ThrottlingOptions) : World := {|
  mgr := {|
    _maxRequestsPerMinute := or_default_Qc (maxRequestsPerMinute options) (Qc_of_Z 50);
    _retryAfter := or_default_Z (retryAfter options) 2000;
    _bufferSize := or_default_Qc (bufferSize options) (Q2Qc (Qmake 9 10));
    _requestLog := ∅; _queue := ∅; _rateLimit := ∅; _limitTimers := ∅;
    _stats := no_stats |};
  host := {| clock := 0; timers := []; next_timer := 0; inflight := [] |};
  hist := {| enqueued := []; dequeued := []; executed := [] |}
|}.

(** *** Setters *)

Definition set_requestLog (f : gmap string (list Z) → gmap string (list Z))
    (w : World) : World :=
  let m := mgr w in
  {| mgr := {| _maxRequestsPerMinute := _maxRequestsPerMinute m;
               _retryAfter := _retryAfter m; _bufferSize := _bufferSize m;
               _requestLog := f (_requestLog m); _queue := _queue m;
               _rateLimit := _rateLimit m; _limitTimers := _limitTimers m;
               _stats := _stats m |};
     host := host w; hist := hist w |}.

Definition set_queue (f : gmap string (list Op) → gmap string (list Op))
    (w : World) : World :=
  let m := mgr w in
  {| mgr := {| _maxRequestsPerMinute := _maxRequestsPerMinute m;
               _retryAfter := _retryAfter m; _bufferSize := _bufferSize m;
               _requestLog := _requestLog m; _queue := f (_queue m);
               _rateLimit := _rateLimit m; _limitTimers := _limitTimers m;
               _stats := _stats m |};
     host := host w; hist := hist w |}.

Definition set_rateLimit (f : gmap string bool → gmap string bool)
    (w : World) : World :=
  let m := mgr w in
  {| mgr := {| _maxRequestsPerMinute := _maxRequestsPerMinute m;
               _retryAfter := _retryAfter m; _bufferSize := _bufferSize m;
               _requestLog := _requestLog m; _queue := _queue m;
               _rateLimit := f (_rateLimit m); _limitTimers := _limitTimers m;
               _stats := _stats m |};
     host := host w; hist := hist w |}.

Definition set_limitTimers (f : gmap string nat → gmap string nat)
    (w : World) : World :=
  let m := mgr w in
  {| mgr := {| _maxRequestsPerMinute := _maxRequestsPerMinute m;
               _retryAfter := _retryAfter m; _bufferSize := _bufferSize m;
               _requestLog := _requestLog m; _queue := _queue m;
               _rateLimit := _rateLimit m; _limitTimers := f (_limitTimers m);
               _stats := _stats m |};
     host := host w; hist := hist w |}.

Definition set_stats (f : Stats → Stats) (w : World) : World :=
  let m := mgr w in
  {| mgr := {| _maxRequestsPerMinute := _maxRequestsPerMinute m;
               _retryAfter := _retryAfter m; _bufferSize := _bufferSize m;
               _requestLog := _requestLog m; _queue := _queue m;
               _rateLimit := _rateLimit m; _limitTimers := _limitTimers m;
               _stats := f (_stats m) |};
     host := host w; hist := hist w |}.

Definition set_timers (f : list Timer → list Timer) (w : World) : World :=
  {| mgr := mgr w;
     host := {| clock := clock (host w); timers := f (timers (host w));
                next_timer := next_timer (host w);
                inflight := inflight (host w) |};
     hist := hist w |}.

Definition set_inflight (f : list (Op * string) → list (Op * string))
    (w : World) : World :=
  {| mgr := mgr w;
     host := {| clock := clock (host w); timers := timers (host w);
                next_timer := next_timer (host w);
                inflight := f (inflight (host w)) |};
     hist := hist w |}.

Definition note_enqueued (route : string) (op : Op) (w : World) : World :=
  {| mgr := mgr w; host := host w;
     hist := {| enqueued := enqueued (hist w) ++ [(route, op)];
                dequeued := dequeued (hist w);
                executed := executed (hist w) |} |}.

Definition note_dequeued (route : string) (op : Op) (w : World) : World :=
  {| mgr := mgr w; host := host w;
     hist := {| enqueued := enqueued (hist w);
                dequeued := dequeued (hist w) ++ [(route, op)];
                executed := executed (hist w) |} |}.

Definition note_executed (route : string) (op : Op) (w : World) : World :=
  {| mgr := mgr w; host := host w;
     hist := {| enqueued := enqueued (hist w);
                dequeued := dequeued (hist w);
                executed := executed (hist w) ++ [(route, op)] |} |}.

(** *** The host's [setTimeout] and [clearTimeout] *)

Definition setTimeout (tk : Task) (delay now : Z) (w : World) : nat * World :=
  let id := next_timer (host w) in
  (id,
   {| mgr := mgr w;
      host := {| clock := clock (host w);
                 timers := timers (host w) ++
                   [{| timer_id := id; fires_at := now + timer_delay delay;
                       task := tk |}];
                 next_timer := S id;
                 inflight := inflight (host w) |};
      hist := hist w |}).

Definition clearTimeout (id : nat) (w : World) : World :=
  set_timers (filter (λ tm, timer_id tm ≠ id)) w.

Definition set_clock (now : Z) (w : World) : World :=
  {| mgr := mgr w;
     host := {| clock := now; timers := timers (host w);
                next_timer := next_timer (host w);
                inflight := inflight (host w) |};
     hist := hist w |}.

(** The first element of a list that satisfies [p], and the list without
    it. *)
Fixpoint take_first {A : Type} (p : A → bool) (l : list A) : option (A * list A) :=
  match l with
  | [] => None
  | x :: r =>
      if p x then Some (x, r)
      else match take_first p r with
           | Some (y, r') => Some (y, x :: r')
           | None => None
           end
  end.

(** *** The methods *)

(** [this._rateLimit.get(route)] as a condition. *)
Definition limited (route : string) (w : World) : bool :=
  default false (_rateLimit (mgr w) !! route).

Definition queue_of (route : string) (w : World) : list Op :=
  default [] (_queue (mgr w) !! route).

(** The timestamps later than one minute before [now]. *)
Definition recent (now : Z) (log : list Z) : list Z :=
  filter (λ time, now - 60000 < time) log.

Section Methods.
(** The product of two JavaScript numbers as [*] computes it on IEEE-754
    doubles; it is the exact product whenever that is a double. *)
Variable js_mul : Qc → Qc → Qc.

Definition threshold (w : World) : Qc :=
  js_mul (_maxRequestsPerMinute (mgr w)) (_bufferSize (mgr w)).

Definition _wouldExceedLimit (route : string) (now : Z) (w : World)
    : bool * World :=
  match _requestLog (mgr w) !! route with
  | None => (false, set_requestLog (insert route []) w)
  | Some log =>
      let recentRequests := recent now log in
      (bool_decide (threshold w ≤ Qc_of_Z (Z.of_nat (length recentRequests)))%Qc,
       set_requestLog (insert route recentRequests) w)
  end.

Definition _enqueue (route : string) (callback : Op) (w : World) : World :=
  let w1 := match _queue (mgr w) !! route with
            | None => set_queue (insert route []) w
            | Some _ => w
            end in
  let w2 := set_queue (insert route (queue_of route w1 ++ [callback])) w1 in
  let w3 := set_stats (λ st,
              {| totalRequests := totalRequests st;
                 throttledRequests := throttledRequests st + 1;
                 succeededRequests := succeededRequests st;
                 failedRequests := failedRequests st;
                 lastRequest := lastRequest st |}) w2 in
  note_enqueued route callback w3.

Definition _logRequest (route : string) (now : Z) (w : World) : World :=
  let w1 := match _requestLog (mgr w) !! route with
            | None => set_requestLog (insert route []) w
            | Some _ => w
            end in
  let log := default [] (_requestLog (mgr w1) !! route) in
  let w2 := set_requestLog (insert route (log ++ [now])) w1 in
  set_stats (λ st,
    {| totalRequests := totalRequests st + 1;
       throttledRequests := throttledRequests st;
       succeededRequests := succeededRequests st + 1;
       failedRequests := failedRequests st;
       lastRequest := Some now |}) w2.

Definition _logError (route : string) (w : World) : World :=
  set_stats (λ st,
    {| totalRequests := totalRequests st;
       throttledRequests := throttledRequests st;
       succeededRequests := succeededRequests st;
       failedRequests := failedRequests st + 1;
       lastRequest := lastRequest st |}) w.

Definition _handleRateLimit (route : string) (retryAfter now : Z) (w : World)
    : World :=
  let w1 := set_rateLimit (insert route true) w in
  let w2 := match _limitTimers (mgr w1) !! route with
            | Some id => clearTimeout id w1
            | None => w1
            end in
  let r := setTimeout (ResetLimit route) retryAfter now w2 in
  set_limitTimers (insert route r.1) r.2.

(** [_executeCallback] up to its [await]: the request is logged and the
    callback is started. *)
Definition _executeCallback (route : string) (callback : Op) (now : Z)
    (w : World) : World :=
  let w1 := _logRequest route now w in
  set_inflight (λ l, l ++ [(callback, route)]) (note_executed route callback w1).

(** [_executeCallback] after its [await], when the callback's promise has
    settled. *)
Definition _executeCallback_resume (route : string) (callback : Op)
    (r : Outcome) (now : Z) (w : World) : World :=
  match r with
  | Fulfilled => w
  | Rejected status retry_after =>
      let w1 := _logError route w in
      if decide (status = Some 429) then
        let retryAfter := or_default_Z retry_after (_retryAfter (mgr w1)) in
        let w2 := _handleRateLimit route retryAfter now w1 in
        _enqueue route callback w2
      else w1
  end.

Definition _processQueue (route : string) (now : Z) (w : World) : World :=
  match _queue (mgr w) !! route with
  | None | Some [] => w
  | Some (_ :: _) =>
      let r := _wouldExceedLimit route now w in
      if negb r.1 && negb (limited route r.2) then
        match _queue (mgr r.2) !! route with
        | Some (nextCallback :: rest) =>
            let w1 := set_queue (insert route rest) r.2 in
            let w2 := note_dequeued route nextCallback w1 in
            let w3 := _executeCallback route nextCallback now w2 in
            (setTimeout (ProcessQueue route) 1000 now w3).2
        | _ => r.2
        end
      else (setTimeout (ProcessQueue route) (_retryAfter (mgr r.2)) now r.2).2
  end.

Definition throttle (now : Z) (route : string) (callback : Op) (w : World)
    : World :=
  let formattedRoute := formatRoute route in
  if limited formattedRoute w then _enqueue formattedRoute callback w
  else
    let r := _wouldExceedLimit formattedRoute now w in
    if r.1 then
      let w1 := _enqueue formattedRoute callback r.2 in
      (setTimeout (ProcessQueue formattedRoute) (_retryAfter (mgr w1)) now w1).2
    else _executeCallback formattedRoute callback now r.2.

Definition getStats (w : World) : Stats := _stats (mgr w).

(** [reset]: the limit timers are cleared, the maps emptied and the counters
    zeroed. The histories of the queues start afresh with the queues. *)
Definition reset (w : World) : World :=
  let ids := (map_to_list (_limitTimers (mgr w))).*2 in
  let m := mgr w in
  {| mgr := {| _maxRequestsPerMinute := _maxRequestsPerMinute m;
               _retryAfter := _retryAfter m; _bufferSize := _bufferSize m;
               _requestLog := ∅; _queue := ∅; _rateLimit := ∅;
               _limitTimers := ∅; _stats := no_stats |};
     host := {| clock := clock (host w);
                timers := filter (λ tm, timer_id tm ∉ ids) (timers (host w));
                next_timer := next_timer (host w);
                inflight := inflight (host w) |};
     hist := {| enqueued := []; dequeued := [];
                executed := executed (hist w) |} |}.

(** *** Events *)

Inductive Event :=
  | Call (now : Z) (route : string) (callback : Op)
  | Settle (now : Z) (callback : Op) (r : Outcome)
  | Fire (now : Z) (id : nat)
  | Reset (now : Z).

Definition event_time (ev : Event) : Z :=
  match ev with
  | Call now _ _ | Settle now _ _ | Fire now _ | Reset now => now
  end.

Definition run_task (tk : Task) (now : Z) (w : World) : World :=
  match tk with
  | ProcessQueue route => _processQueue route now w
  | ResetLimit route =>
      let w1 := set_rateLimit (insert route false) w in
      let w2 := set_limitTimers (delete route) w1 in
      _processQueue route now w2
  end.

(** One event of the event loop; [None] when the event cannot happen in
    this state: time does not go back, only a started callback settles, only
    a pending timer that is due fires. *)
Definition step (w : World) (ev : Event) : option World :=
  if decide (clock (host w) ≤ event_time ev) then
    let w0 := set_clock (event_time ev) w in
    match ev with
    | Call now route callback => Some (throttle now route callback w0)
    | Settle now callback r =>
        match take_first (λ x, bool_decide (x.1 = callback)) (inflight (host w0)) with
        | Some ((_, route), rest) =>
            Some (_executeCallback_resume route callback r now
                    (set_inflight (λ _, rest) w0))
        | None => None
        end
    | Fire now id =>
        match take_first (λ tm, bool_decide (timer_id tm = id)) (timers (host w0)) with
        | Some (tm, rest) =>
            if decide (fires_at tm ≤ now)
            then Some (run_task (task tm) now (set_timers (λ _, rest) w0))
            else None
        | None => None
        end
    | Reset now => Some (reset w0)
    end
  else None.

Fixpoint run (evs : list Event) (w : World) : option World :=
  match evs with
  | [] => Some w
  | ev :: r =>
      match step w ev with
      | Some w' => run r w'
      | None => None
      end
  end.

(** *** Statistics *)

Definition balanced (w : World) : Prop :=
  totalRequests (_stats (mgr w)) = succeededRequests (_stats (mgr w)).

Lemma stats_wouldExceedLimit route now w :
  _stats (mgr (_wouldExceedLimit route now w).2) = _stats (mgr w).
Proof. unfold _wouldExceedLimit. by destruct (_ !! _). Qed.

Lemma balanced_enqueue route op w : balanced w → balanced (_enqueue route op w).
Proof. unfold balanced, _enqueue. by destruct (_ !! _). Qed.

Lemma balanced_executeCallback route op now w :
  balanced w → balanced (_executeCallback route op now w).
Proof.
  unfold balanced, _executeCallback, _logRequest.
  destruct (_requestLog (mgr w) !! route); simpl; lia.
Qed.

Lemma balanced_handleRateLimit route retryAfter now w :
  balanced w → balanced (_handleRateLimit route retryAfter now w).
Proof. unfold balanced, _handleRateLimit. simpl. by destruct (_ !! _). Qed.

Lemma balanced_executeCallback_resume route op r now w :
  balanced w → balanced (_executeCallback_resume route op r now w).
Proof.
  intros H. unfold _executeCallback_resume. destruct r as [|status ra]; [done|].
  destruct (decide _); [|done].
  by apply balanced_enqueue, balanced_handleRateLimit.
Qed.

Lemma balanced_setTimeout tk delay now w :
  balanced w → balanced (setTimeout tk delay now w).2.
Proof. done. Qed.

Lemma balanced_processQueue route now w :
  balanced w → balanced (_processQueue route now w).
Proof.
  intros H. unfold _processQueue.
  destruct (_queue (mgr w) !! route) as [[|c q]|]; [done| |done].
  assert (H1 : balanced (_wouldExceedLimit route now w).2).
  { unfold balanced. by rewrite stats_wouldExceedLimit. }
  destruct (_ && _); [|done].
  destruct (_ !! _) as [[|c' q']|]; [done| |done].
  apply balanced_setTimeout, balanced_executeCallback. exact H1.
Qed.

Lemma balanced_throttle now route op w :
  balanced w → balanced (throttle now route op w).
Proof.
  intros H. unfold throttle.
  destruct (limited _ w); [by apply balanced_enqueue|].
  assert (H1 : balanced (_wouldExceedLimit (formatRoute route) now w).2).
  { unfold balanced. by rewrite stats_wouldExceedLimit. }
  destruct (_wouldExceedLimit _ now w).1.
  - by apply balanced_setTimeout, balanced_enqueue.
  - by apply balanced_executeCallback.
Qed.

Lemma balanced_step w ev w' : step w ev = Some w' → balanced w → balanced w'.
Proof.
  unfold step. destruct (decide _); [|done].
  destruct ev as [now route op|now op r|now id|now]; intros Hs H.
  - injection Hs as <-. by apply balanced_throttle.
  - destruct (take_first _ _) as [[[o route] rest]|]; [|done].
    injection Hs as <-. by apply balanced_executeCallback_resume.
  - destruct (take_first _ _) as [[tm rest]|]; [|done].
    destruct (decide _); [|done]. injection Hs as <-.
    destruct (task tm); simpl; by apply balanced_processQueue.
  - by injection Hs as <-.
Qed.

Lemma balanced_run evs w w' : run evs w = Some w' → balanced w → balanced w'.
Proof.
  revert w. induction evs as [|ev r IH]; intros w; simpl.
  - by intros [= <-].
  - destruct (step w ev) as [w1|] eqn:Hs; [|done].
    intros Hr Hb. eapply IH; [done|]. by eapply balanced_step.
Qed.

(** *** Queue order *)

(** The operations of one route in a history, in order. *)
Definition on_route (route : string) (h : list (string * Op)) : list Op :=
  (filter (λ x, x.1 = route) h).*2.

Lemma on_route_snoc route route' op h :
  on_route route (h ++ [(route', op)]) =
  if decide (route' = route) then on_route route h ++ [op] else on_route route h.
Proof.
  unfold on_route. rewrite filter_app, fmap_app.
  destruct (decide (route' = route)) as [->|Hne].
  - by rewrite filter_cons_True.
  - rewrite filter_cons_False by done. simpl. by rewrite app_nil_r.
Qed.

(** What was put into a queue is what was taken from it followed by what is
    still waiting; what was taken from a queue was started at once. *)
Definition fifo (w : World) : Prop :=
  (∀ route, on_route route (enqueued (hist w)) =
            on_route route (dequeued (hist w)) ++ queue_of route w)
  ∧ dequeued (hist w) `sublist_of` executed (hist w).

Lemma queue_wouldExceedLimit route now w :
  _queue (mgr (_wouldExceedLimit route now w).2) = _queue (mgr w).
Proof. unfold _wouldExceedLimit. by destruct (_ !! _). Qed.

Lemma hist_wouldExceedLimit route now w :
  hist (_wouldExceedLimit route now w).2 = hist w.
Proof. unfold _wouldExceedLimit. by destruct (_ !! _). Qed.

Lemma queue_of_enqueue route op route' w :
  queue_of route' (_enqueue route op w) =
  if decide (route = route') then queue_of route w ++ [op] else queue_of route' w.
Proof.
  unfold _enqueue, queue_of.
  destruct (_queue (mgr w) !! route) as [q|] eqn:E; simpl;
    destruct (decide (route = route')) as [<-|Hne];
    rewrite ?E, ?lookup_insert_eq, ?lookup_insert_ne by done; simpl;
    rewrite ?lookup_insert_eq, ?lookup_insert_ne by done; done.
Qed.

Lemma hist_enqueue route op w :
  hist (_enqueue route op w) =
  {| enqueued := enqueued (hist w) ++ [(route, op)];
     dequeued := dequeued (hist w); executed := executed (hist w) |}.
Proof. unfold _enqueue. by destruct (_ !! _). Qed.

Lemma fifo_enqueue route op w : fifo w → fifo (_enqueue route op w).
Proof.
  intros [Hq Hs]. split.
  - intros r. rewrite hist_enqueue, queue_of_enqueue. simpl.
    rewrite on_route_snoc, Hq.
    destruct (decide (route = r)) as [->|Hne]; [|done].
    by rewrite app_assoc.
  - by rewrite hist_enqueue.
Qed.

Lemma queue_executeCallback route op now w :
  _queue (mgr (_executeCallback route op now w)) = _queue (mgr w).
Proof.
  unfold _executeCallback, _logRequest.
  by destruct (_requestLog (mgr w) !! route).
Qed.

Lemma hist_executeCallback route op now w :
  hist (_executeCallback route op now w) =
  {| enqueued := enqueued (hist w); dequeued := dequeued (hist w);
     executed := executed (hist w) ++ [(route, op)] |}.
Proof.
  unfold _executeCallback, _logRequest.
  by destruct (_requestLog (mgr w) !! route).
Qed.

Lemma fifo_executeCallback route op now w :
  fifo w → fifo (_executeCallback route op now w).
Proof.
  intros [Hq Hs]. split.
  - intros r. unfold queue_of.
    rewrite hist_executeCallback, queue_executeCallback. apply Hq.
  - rewrite hist_executeCallback. simpl. by apply sublist_inserts_r.
Qed.

Lemma queue_handleRateLimit route retryAfter now w :
  _queue (mgr (_handleRateLimit route retryAfter now w)) = _queue (mgr w).
Proof. unfold _handleRateLimit. simpl. by destruct (_ !! _). Qed.

Lemma hist_handleRateLimit route retryAfter now w :
  hist (_handleRateLimit route retryAfter now w) = hist w.
Proof. unfold _handleRateLimit. simpl. by destruct (_ !! _). Qed.

Lemma fifo_same w w' :
  _queue (mgr w') = _queue (mgr w) → hist w' = hist w → fifo w → fifo w'.
Proof. unfold fifo, queue_of. by intros -> ->. Qed.

Lemma fifo_executeCallback_resume route op r now w :
  fifo w → fifo (_executeCallback_resume route op r now w).
Proof.
  intros H. unfold _executeCallback_resume. destruct r as [|status ra]; [done|].
  destruct (decide _); [|done]. apply fifo_enqueue.
  eapply fifo_same; [apply queue_handleRateLimit|apply hist_handleRateLimit|done].
Qed.

Lemma fifo_processQueue route now w : fifo w → fifo (_processQueue route now w).
Proof.
  intros H. unfold _processQueue.
  destruct (_queue (mgr w) !! route) as [[|c q]|] eqn:E; [done| |done].
  assert (H1 : fifo (_wouldExceedLimit route now w).2).
  { eapply fifo_same; [apply queue_wouldExceedLimit|apply hist_wouldExceedLimit|done]. }
  destruct (_ && _); [|done].
  rewrite queue_wouldExceedLimit, E.
  eapply (fifo_same (_executeCallback route c now _)); [done|done|].
  destruct H1 as [Hq Hs]. unfold fifo, queue_of.
  rewrite hist_executeCallback, queue_executeCallback. simpl. split.
  - intros r. rewrite on_route_snoc. specialize (Hq r). unfold queue_of in Hq.
    destruct (decide (route = r)) as [->|Hne].
    + rewrite lookup_insert_eq. simpl.
      rewrite queue_wouldExceedLimit, E in Hq. simpl in Hq.
      rewrite Hq. by rewrite <- app_assoc.
    + by rewrite lookup_insert_ne.
  - by apply sublist_app.
Qed.

Lemma fifo_throttle now route op w : fifo w → fifo (throttle now route op w).
Proof.
  intros H. unfold throttle.
  destruct (limited _ w); [by apply fifo_enqueue|].
  assert (H1 : fifo (_wouldExceedLimit (formatRoute route) now w).2).
  { eapply fifo_same; [apply queue_wouldExceedLimit|apply hist_wouldExceedLimit|done]. }
  destruct (_wouldExceedLimit _ now w).1.
  - eapply (fifo_same (_enqueue _ op _)); [done|done|]. by apply fifo_enqueue.
  - by apply fifo_executeCallback.
Qed.

Lemma fifo_reset w : fifo (reset w).
Proof.
  split.
  - intros r. unfold queue_of. simpl. by rewrite lookup_empty.
  - simpl. apply sublist_nil_l.
Qed.

Lemma take_first_Some {A} (p : A → bool) l x r :
  take_first p l = Some (x, r) → p x = true ∧ x ∈ l.
Proof.
  revert r. induction l as [|y l IH]; intros r; simpl; [done|].
  destruct (p y) eqn:Hp.
  - intros [= <- <-]. split; [done|apply list_elem_of_here].
  - destruct (take_first p l) as [[z r']|]; [|done].
    intros [= <- <-]. destruct (IH r' eq_refl) as [? ?].
    split; [done|by apply list_elem_of_further].
Qed.

Lemma fifo_step w ev w' : step w ev = Some w' → fifo w → fifo w'.
Proof.
  unfold step. destruct (decide _); [|done].
  assert (H0 : fifo w → fifo (set_clock (event_time ev) w)) by done.
  destruct ev as [now route op|now op r|now id|now]; intros Hs H.
  - injection Hs as <-. by apply fifo_throttle, H0.
  - destruct (take_first _ _) as [[[o route] rest]|]; [|done].
    injection Hs as <-. apply fifo_executeCallback_resume. exact H.
  - destruct (take_first _ _) as [[tm rest]|]; [|done].
    destruct (decide _); [|done]. injection Hs as <-.
    destruct (task tm); simpl; apply fifo_processQueue; exact H.
  - injection Hs as <-. apply fifo_reset.
Qed.

Lemma fifo_run evs w w' : run evs w = Some w' → fifo w → fifo w'.
Proof.
  revert w. induction evs as [|ev r IH]; intros w; simpl.
  - by intros [= <-].
  - destruct (step w ev) as [w1|] eqn:Hs; [|done].
    intros Hr Hb. eapply IH; [done|]. by eapply fifo_step.
Qed.

Lemma fifo_constructor o : fifo (constructor o).
Proof. split; [done|apply sublist_nil_l]. Qed.

(** C3 (amended). On every route the queue is first in, first out: the
    operations taken from the queue are, in order, the first of the
    operations put into it, so the [i]-th operation enqueued is the [i]-th
    dequeued, and every dequeued operation is started at once. An executed
    operation that fails with status 429 is put back with [_enqueue], at the
    back of its route's queue, behind every operation waiting there. *)
Theorem queue_fifo_requeue_at_back o evs w :
  run evs (constructor o) = Some w →
  (∀ route,
     on_route route (enqueued (hist w)) =
     on_route route (dequeued (hist w)) ++ queue_of route w)
  ∧ (∀ route i a,
       (i < length (on_route route (dequeued (hist w))))%nat →
       on_route route (enqueued (hist w)) !! i = Some a →
       on_route route (dequeued (hist w)) !! i = Some a)
  ∧ dequeued (hist w) `sublist_of` executed (hist w)
  ∧ (∀ now op retry_after w',
       step w (Settle now op (Rejected (Some 429) retry_after)) = Some w' →
       ∃ route, (op, route) ∈ inflight (host w)
                ∧ queue_of route w' = queue_of route w ++ [op]).
Proof.
  intros Hrun.
  destruct (fifo_run _ _ _ Hrun (fifo_constructor o)) as [Hq Hs].
  split; [done|]. split; [|split; [done|]].
  - intros route i a Hi. rewrite Hq. by rewrite lookup_app_l.
  - intros now op ra w'. unfold step. destruct (decide _); [|done].
    destruct (take_first _ _) as [[[o' route] rest]|] eqn:Ht; [|done].
    apply take_first_Some in Ht as [Hp Hin]. apply bool_decide_eq_true in Hp.
    simpl in Hp. subst o'. intros [= <-]. exists route. split; [done|].
    unfold _executeCallback_resume.
    try rewrite (decide_True (P := Some 429 = Some 429)) by done.
    rewrite queue_of_enqueue, decide_True by done.
    unfold queue_of. by rewrite queue_handleRateLimit.
Qed.

(** C10. After every sequence of events on a new manager [totalRequests]
    equals [succeededRequests], both being incremented by [_logRequest]
    before the callback's result is known; starting an operation that then
    fails adds one to [totalRequests], to [succeededRequests] and to
    [failedRequests]. *)
Theorem stats_total_eq_succeeded o evs w :
  run evs (constructor o) = Some w →
  totalRequests (getStats w) = succeededRequests (getStats w)
  ∧ (∀ route op now status retry_after now',
       let w1 := _executeCallback route op now w in
       let w2 := _executeCallback_resume route op
                   (Rejected status retry_after) now' w1 in
       totalRequests (getStats w2) = totalRequests (getStats w) + 1
       ∧ succeededRequests (getStats w2) = succeededRequests (getStats w) + 1
       ∧ failedRequests (getStats w2) = failedRequests (getStats w) + 1).
Proof.
  intros Hrun. split.
  - by apply (balanced_run _ _ _ Hrun).
  - intros route op now status ra now'. unfold getStats.
    unfold _executeCallback_resume, _executeCallback, _logRequest,
      _handleRateLimit, _enqueue, _logError.
    destruct (decide (status = Some 429));
      destruct (_requestLog (mgr w) !! route); simpl;
      repeat case_match; simpl; lia.
Qed.

(** *** Admission *)

Lemma log_wouldExceedLimit route now w :
  _requestLog (mgr (_wouldExceedLimit route now w).2) !! route =
  Some (recent now (default [] (_requestLog (mgr w) !! route))).
Proof.
  unfold _wouldExceedLimit.
  destruct (_requestLog (mgr w) !! route); simpl; by rewrite lookup_insert_eq.
Qed.

Lemma result_wouldExceedLimit route now w :
  (_wouldExceedLimit route now w).1 =
  match _requestLog (mgr w) !! route with
  | Some log =>
      bool_decide
        (js_mul (_maxRequestsPerMinute (mgr w)) (_bufferSize (mgr w))
         ≤ Qc_of_Z (Z.of_nat (length
             (filter (λ time, (now - 60000 < time)%Z) log))))%Qc
  | None => false
  end.
Proof.
  unfold _wouldExceedLimit. by destruct (_requestLog (mgr w) !! route).
Qed.

Lemma inflight_executeCallback route op now w :
  inflight (host (_executeCallback route op now w)) =
  inflight (host w) ++ [(op, route)].
Proof.
  unfold _executeCallback, _logRequest.
  by destruct (_requestLog (mgr w) !! route).
Qed.

Lemma log_executeCallback route op now w :
  _requestLog (mgr (_executeCallback route op now w)) !! route =
  Some (default [] (_requestLog (mgr w) !! route) ++ [now]).
Proof.
  unfold _executeCallback, _logRequest.
  destruct (_requestLog (mgr w) !! route) eqn:E; simpl;
    rewrite ?E, ?lookup_insert_eq; simpl; by rewrite ?lookup_insert_eq.
Qed.

Lemma lookup_queue_enqueue route op w :
  _queue (mgr (_enqueue route op w)) !! route =
  Some (default [] (_queue (mgr w) !! route) ++ [op]).
Proof.
  unfold _enqueue, queue_of.
  destruct (_queue (mgr w) !! route) as [q|] eqn:E; simpl;
    rewrite ?E, ?lookup_insert_eq; simpl; by rewrite ?lookup_insert_eq.
Qed.

Lemma inflight_enqueue route op w :
  inflight (host (_enqueue route op w)) = inflight (host w).
Proof. unfold _enqueue. by destruct (_queue (mgr w) !! route). Qed.

(** C6 (amended). [throttle] puts the operation into the queue of its
    normalized route exactly when that route is marked rate limited, or a
    request log exists for the route and the timestamps in it later than
    60000 ms before the call number at least
    [maxRequestsPerMinute * bufferSize]. Then nothing is started. Otherwise
    the operation is started at once, no queue changes, and the time of the
    call is appended to the timestamps of the last 60000 ms, which become the
    route's log. When the product is positive the condition is that of the
    claim: marked, or at least the product of timestamps within the last
    60000 ms. *)
Theorem throttle_admission (w : World) (now : Z) (route : string) (op : Op) :
  let formattedRoute := formatRoute route in
  let log := _requestLog (mgr w) !! formattedRoute in
  let window := filter (λ time, now - 60000 < time) (default [] log) in
  let quota := js_mul (_maxRequestsPerMinute (mgr w)) (_bufferSize (mgr w)) in
  let marked := _rateLimit (mgr w) !! formattedRoute = Some true in
  let full := (quota ≤ Qc_of_Z (Z.of_nat (length window)))%Qc in
  let deny := marked ∨ (is_Some log ∧ full) in
  let w' := throttle now route op w in
  (_queue (mgr w') !! formattedRoute
     = Some (default [] (_queue (mgr w) !! formattedRoute) ++ [op]) ↔ deny)
  ∧ (deny → executed (hist w') = executed (hist w)
            ∧ inflight (host w') = inflight (host w))
  ∧ (¬ deny →
       executed (hist w') = executed (hist w) ++ [(formattedRoute, op)]
       ∧ inflight (host w') = inflight (host w) ++ [(op, formattedRoute)]
       ∧ _requestLog (mgr w') !! formattedRoute = Some (window ++ [now])
       ∧ _queue (mgr w') = _queue (mgr w))
  ∧ ((Q2Qc 0 < quota)%Qc → (deny ↔ marked ∨ full)).
Proof.
  intros fr log window quota marked full deny w'.
  assert (Hmarked : limited fr w = true ↔ marked).
  { subst marked. unfold limited.
    destruct (_rateLimit (mgr w) !! fr) as [[|]|]; simpl; split; congruence. }
  assert (Hcase :
    (deny ∧ _queue (mgr w') !! fr = Some (default [] (_queue (mgr w) !! fr) ++ [op])
          ∧ executed (hist w') = executed (hist w)
          ∧ inflight (host w') = inflight (host w))
    ∨ (¬ deny ∧ _queue (mgr w') = _queue (mgr w)
         ∧ executed (hist w') = executed (hist w) ++ [(fr, op)]
         ∧ inflight (host w') = inflight (host w) ++ [(op, fr)]
         ∧ _requestLog (mgr w') !! fr = Some (window ++ [now]))).
  { subst deny w' window full quota log. unfold throttle. fold fr.
    destruct (limited fr w) eqn:Hl.
    { left. split; [left; by apply Hmarked|].
      by rewrite lookup_queue_enqueue, hist_enqueue, inflight_enqueue. }
    assert (Hnm : ¬ marked).
    { intros Hm. apply Hmarked in Hm. congruence. }
    rewrite result_wouldExceedLimit.
    set (r := _wouldExceedLimit fr now w).
    assert (Hrq : _queue (mgr r.2) = _queue (mgr w))
      by apply queue_wouldExceedLimit.
    assert (Hrh : hist r.2 = hist w) by apply hist_wouldExceedLimit.
    assert (Hri : inflight (host r.2) = inflight (host w)).
    { subst r. unfold _wouldExceedLimit.
      by destruct (_requestLog (mgr w) !! fr). }
    assert (Hrl : _requestLog (mgr r.2) !! fr
                  = Some (filter (λ time, now - 60000 < time)
                            (default [] (_requestLog (mgr w) !! fr))))
      by apply log_wouldExceedLimit.
    clearbody r.
    destruct (_requestLog (mgr w) !! fr) as [l|] eqn:El.
    - destruct (bool_decide _) eqn:Hb.
      + apply bool_decide_eq_true in Hb. left.
        split; [right; split; [by eexists|exact Hb]|].
        cbn [snd mgr hist host setTimeout inflight].
        by rewrite lookup_queue_enqueue, hist_enqueue, inflight_enqueue,
          Hrq, Hrh, Hri.
      + apply bool_decide_eq_false in Hb. right.
        split; [intros [?|[_ ?]]; [done|by apply Hb]|].
        rewrite queue_executeCallback, hist_executeCallback,
          inflight_executeCallback, log_executeCallback, Hrq, Hrh, Hri, Hrl.
        done.
    - right. split; [intros [?|[[? ?] _]]; done|].
      rewrite queue_executeCallback, hist_executeCallback,
        inflight_executeCallback, log_executeCallback, Hrq, Hrh, Hri, Hrl.
      done. }
  destruct Hcase as [(Hd & Hq & He & Hi)|(Hd & Hq & He & Hi & Hlog)].
  - split; [done|]. split; [done|]. split; [by intros ?|].
    intros Hpos. split; [|by intros _].
    intros _. destruct Hd as [?|[_ ?]]; [by left|by right].
  - split; [|split; [by intros ?|split; [done|]]].
    + split; [|by intros ?]. rewrite Hq. intros Heq.
      destruct (_queue (mgr w) !! fr) as [q|]; [|done].
      injection Heq as Heq. simpl in Heq.
      apply (f_equal length) in Heq. rewrite length_app in Heq.
      simpl in Heq. lia.
    + intros Hpos. split; [by intros ?|]. intros [Hm|Hf]; [by left|].
      right. split; [|done]. subst log.
      destruct (_requestLog (mgr w) !! fr) as [l|] eqn:El; [by eexists|].
      exfalso. subst full window. simpl in Hf.
      by apply (Qclt_not_le _ _ Hpos).
Qed.

End Methods.

(** *** Concrete runs (the products below are exact) *)

Definition options_1_per_minute : ThrottlingOptions :=
  {| maxRequestsPerMinute := Some (Qc_of_Z 1); retryAfter := Some 60000;
     bufferSize := Some (Qc_of_Z 1) |}.

(** Operation 0 runs at once; operations 1 and 2 are queued in that order.
    When the window frees, operation 1 is taken from the queue and started;
    it fails with status 429 while operation 2 is still waiting. *)
Definition trace_until_429 : list Event :=
  [ Call 0 "/x" 0%nat; Call 1 "/x" 1%nat; Call 2 "/x" 2%nat;
    Settle 50 0%nat Fulfilled;
    Fire 60001 0%nat; Fire 60002 1%nat;
    Settle 60500 1%nat (Rejected (Some 429) None) ].

(** Every pending timer then fires when it is due, until the queue is
    empty. *)
Definition trace_after_429 : list Event :=
  [ Fire 61001 2%nat; Fire 120002 3%nat; Fire 120500 4%nat;
    Settle 120600 2%nat Fulfilled;
    Fire 121001 5%nat; Fire 121500 7%nat; Fire 180002 6%nat;
    Fire 181001 8%nat ].

Definition world_after (evs : list Event) : World :=
  default (constructor options_1_per_minute)
    (run Qcmult evs (constructor options_1_per_minute)).

(** C3 as stated fails: after its 429, operation 1 stands behind operation
    2, which was enqueued after it, and operation 2 is started before
    operation 1 is retried. *)
Lemma requeue_goes_behind_waiting :
  run Qcmult trace_until_429 (constructor options_1_per_minute)
  = Some (world_after trace_until_429)
  ∧ on_route "/x" (enqueued (hist (world_after trace_until_429)))
    = [1; 2; 1]%nat
  ∧ on_route "/x" (dequeued (hist (world_after trace_until_429))) = [1%nat]
  ∧ queue_of "/x" (world_after trace_until_429) = [2; 1]%nat
  ∧ run Qcmult (trace_until_429 ++ trace_after_429)
      (constructor options_1_per_minute)
    = Some (world_after (trace_until_429 ++ trace_after_429))
  ∧ executed (hist (world_after (trace_until_429 ++ trace_after_429)))
    = [("/x", 0); ("/x", 1); ("/x", 2); ("/x", 1)]%nat.
Proof. vm_compute. repeat split; reflexivity. Qed.

Lemma queue_fifo_requeue_at_back_witness :
  run Qcmult (trace_until_429 ++ trace_after_429)
    (constructor options_1_per_minute)
  = Some (world_after (trace_until_429 ++ trace_after_429))
  ∧ on_route "/x"
      (enqueued (hist (world_after (trace_until_429 ++ trace_after_429))))
    = on_route "/x"
        (dequeued (hist (world_after (trace_until_429 ++ trace_after_429))))
      ++ queue_of "/x" (world_after (trace_until_429 ++ trace_after_429)).
Proof.
  assert (Hrun : run Qcmult (trace_until_429 ++ trace_after_429)
                   (constructor options_1_per_minute)
                 = Some (world_after (trace_until_429 ++ trace_after_429))).
  { vm_compute. reflexivity. }
  split; [exact Hrun|].
  destruct (queue_fifo_requeue_at_back Qcmult options_1_per_minute
              (trace_until_429 ++ trace_after_429)
              (world_after (trace_until_429 ++ trace_after_429)) Hrun)
    as [Hq _].
  exact (Hq "/x").
Defined.

Lemma stats_total_eq_succeeded_witness :
  run Qcmult trace_until_429 (constructor options_1_per_minute)
  = Some (world_after trace_until_429)
  ∧ totalRequests (getStats (world_after trace_until_429))
    = succeededRequests (getStats (world_after trace_until_429)).
Proof.
  assert (Hrun : run Qcmult trace_until_429 (constructor options_1_per_minute)
                 = Some (world_after trace_until_429)).
  { vm_compute. reflexivity. }
  split; [exact Hrun|].
  destruct (stats_total_eq_succeeded Qcmult options_1_per_minute
              trace_until_429 (world_after trace_until_429) Hrun) as [Heq _].
  exact Heq.
Defined.

(** In that run two operations were started, one of them failed, and both
    are counted as succeeded. *)
Lemma stats_after_one_failure :
  getStats (world_after trace_until_429)
  = {| totalRequests := 2; throttledRequests := 3; succeededRequests := 2;
       failedRequests := 1; lastRequest := Some 60001 |}.
Proof. vm_compute. reflexivity. Qed.

Definition options_2_per_minute : ThrottlingOptions :=
  {| maxRequestsPerMinute := Some (Qc_of_Z 2); retryAfter := None;
     bufferSize := Some (Qc_of_Z 1) |}.

(** The scenario of the specification: two requests per minute, factor 1,
    three calls at time 0 on one route. The first two are started, the third
    waits; it is started by the first run of the queue after the window has
    freed. *)
Lemma admission_scenario_three_calls :
  let w3 := default (constructor options_2_per_minute)
              (run Qcmult [Call 0 "GET /x" 1%nat; Call 0 "GET /x" 2%nat;
                           Call 0 "GET /x" 3%nat]
                 (constructor options_2_per_minute)) in
  executed (hist w3) = [("GET /x", 1); ("GET /x", 2)]%nat
  ∧ queue_of "GET /x" w3 = [3%nat]
  ∧ executed (hist (_processQueue Qcmult "GET /x" 59999 w3))
    = [("GET /x", 1); ("GET /x", 2)]%nat
  ∧ executed (hist (_processQueue Qcmult "GET /x" 60000 w3))
    = [("GET /x", 1); ("GET /x", 2); ("GET /x", 3)]%nat.
Proof. vm_compute. repeat split; reflexivity. Qed.

Lemma throttle_admission_witness :
  let w := world_after trace_until_429 in
  _rateLimit (mgr w) !! formatRoute "/x" = Some true
  ∧ _queue (mgr (throttle Qcmult 60600 "/x" 7%nat w)) !! formatRoute "/x"
    = Some (default [] (_queue (mgr w) !! formatRoute "/x") ++ [7%nat]).
Proof.
  cbv zeta.
  assert (Hm : _rateLimit (mgr (world_after trace_until_429)) !! formatRoute "/x"
               = Some true).
  { vm_compute. reflexivity. }
  split; [exact Hm|].
  pose proof (throttle_admission Qcmult (world_after trace_until_429) 60600
                "/x" 7%nat) as H.
  cbv zeta in H. destruct H as [Hiff _].
  exact (proj2 Hiff (or_introl Hm)).
Defined.

Definition options_negative_quota : ThrottlingOptions :=
  {| maxRequestsPerMinute := Some (Qc_of_Z (-1)); retryAfter := None;
     bufferSize := None |}.

(** C6 as stated fails when [maxRequestsPerMinute * bufferSize] is not
    positive: on a route without a request log [_wouldExceedLimit] answers
    [false] before it counts, so the first call is started although the
    number of timestamps within the last 60 seconds, 0, is at least the
    product. The second call on the route finds the log and is queued. *)
Lemma first_call_admitted_at_nonpositive_quota :
  let w := constructor options_negative_quota in
  let w1 := throttle Qcmult 0 "/x" 0%nat w in
  let w2 := throttle Qcmult 1 "/x" 1%nat w1 in
  (Qcmult (_maxRequestsPerMinute (mgr w)) (_bufferSize (mgr w))
   ≤ Qc_of_Z (Z.of_nat (length
       (filter (λ time, (0 - 60000 < time)%Z)
          (default [] (_requestLog (mgr w) !! "/x"))))))%Qc
  ∧ _rateLimit (mgr w) !! "/x" = None
  ∧ executed (hist w1) = [("/x", 0%nat)]
  ∧ _queue (mgr w1) !! "/x" = None
  ∧ executed (hist w2) = [("/x", 0%nat)]
  ∧ _queue (mgr w2) !! "/x" = Some [1%nat].
Proof.
  cbv zeta. split; [vm_compute; discriminate|].
  vm_compute. repeat split; reflexivity.
Qed.

(** *** Further properties: route normalization *)

Fixpoint digits_only (s : string) : bool :=
  match s with
  | EmptyString => true
  | String a r => is_digit a && digits_only r
  end.

Fixpoint digit_free (s : string) : bool :=
  match s with
  | EmptyString => true
  | String a r => negb (is_digit a) && digit_free r
  end.




Lemma digit_free_app s1 s2 :
  digit_free (s1 +:+ s2) = digit_free s1 && digit_free s2.
Proof.
  induction s1 as [|a r IH]; simpl; [done|]. rewrite IH.
  by destruct (is_digit a).
Qed.

Lemma replace_digit_runs_digit_free in_run s :
  digit_free (replace_digit_runs in_run s) = true.
Proof.
  revert in_run. induction s as [|a r IH]; intros in_run; simpl; [done|].
  destruct (is_digit a) eqn:Ha.
  - destruct in_run; [apply IH|]. rewrite digit_free_app, IH. done.
  - simpl. by rewrite Ha, IH.
Qed.

Lemma replace_digit_runs_id in_run s :
  digit_free s = true → replace_digit_runs in_run s = s.
Proof.
  revert in_run. induction s as [|a r IH]; intros in_run; simpl; [done|].
  intros H. apply andb_true_iff in H as [Ha Hr].
  apply negb_true_iff in Ha. rewrite Ha. by rewrite IH.
Qed.

(** X8. A normalized route contains no digit, and normalizing it again
    changes nothing. *)
Theorem formatRoute_idempotent route :
  digit_free (formatRoute route) = true
  ∧ formatRoute (formatRoute route) = formatRoute route.
Proof.
  split.
  - apply replace_digit_runs_digit_free.
  - apply replace_digit_runs_id, replace_digit_runs_digit_free.
Qed.

Section MoreMethods.
Variable js_mul : Qc → Qc → Qc.

(** *** Further properties: counting and draining *)

Definition throttled_counted (w : World) : Prop :=
  throttledRequests (_stats (mgr w)) = Z.of_nat (length (enqueued (hist w))).

Lemma throttled_counted_same w w' :
  _stats (mgr w') = _stats (mgr w) → hist w' = hist w →
  throttled_counted w → throttled_counted w'.
Proof. unfold throttled_counted. by intros -> ->. Qed.

Lemma throttled_counted_enqueue route op w :
  throttled_counted w → throttled_counted (_enqueue route op w).
Proof.
  unfold throttled_counted. rewrite hist_enqueue. simpl.
  rewrite length_app. simpl. unfold _enqueue.
  destruct (_queue (mgr w) !! route); simpl; lia.
Qed.

Lemma throttled_counted_executeCallback route op now w :
  throttled_counted w → throttled_counted (_executeCallback route op now w).
Proof.
  unfold throttled_counted. rewrite hist_executeCallback. simpl.
  unfold _executeCallback, _logRequest.
  by destruct (_requestLog (mgr w) !! route).
Qed.

Lemma stats_handleRateLimit route retryAfter now w :
  _stats (mgr (_handleRateLimit route retryAfter now w)) = _stats (mgr w).
Proof. unfold _handleRateLimit. simpl. by destruct (_ !! _). Qed.

Lemma throttled_counted_processQueue route now w :
  throttled_counted w → throttled_counted (_processQueue js_mul route now w).
Proof.
  intros H. unfold _processQueue.
  destruct (_queue (mgr w) !! route) as [[|c q]|] eqn:E; [done| |done].
  assert (H1 : throttled_counted (_wouldExceedLimit js_mul route now w).2).
  { eapply throttled_counted_same;
      [apply stats_wouldExceedLimit|apply hist_wouldExceedLimit|done]. }
  destruct (_ && _); [|done].
  rewrite queue_wouldExceedLimit, E.
  eapply (throttled_counted_same (_executeCallback route c now _)); [done|done|].
  apply throttled_counted_executeCallback. exact H1.
Qed.

Lemma throttled_counted_step w ev w' :
  step js_mul w ev = Some w' → throttled_counted w → throttled_counted w'.
Proof.
  unfold step. destruct (decide _); [|done].
  destruct ev as [now route op|now op r|now id|now]; intros Hs H.
  - injection Hs as <-. unfold throttle.
    destruct (limited _ _); [by apply throttled_counted_enqueue|].
    assert (H1 : throttled_counted
                   (_wouldExceedLimit js_mul (formatRoute route) now
                      (set_clock now w)).2).
    { eapply throttled_counted_same;
        [apply stats_wouldExceedLimit|apply hist_wouldExceedLimit|done]. }
    destruct (_wouldExceedLimit _ _ now _).1.
    + eapply (throttled_counted_same (_enqueue _ op _)); [done|done|].
      by apply throttled_counted_enqueue.
    + by apply throttled_counted_executeCallback.
  - destruct (take_first _ _) as [[[o route] rest]|]; [|done].
    injection Hs as <-. unfold _executeCallback_resume.
    destruct r as [|status ra]; [done|].
    destruct (decide _); [|done]. apply throttled_counted_enqueue.
    eapply throttled_counted_same;
      [apply stats_handleRateLimit|apply hist_handleRateLimit|done].
  - destruct (take_first _ _) as [[tm rest]|]; [|done].
    destruct (decide _); [|done]. injection Hs as <-.
    destruct (task tm); simpl; apply throttled_counted_processQueue; exact H.
  - by injection Hs as <-.
Qed.

(** X9. [throttledRequests] counts the operations put into a queue since the
    manager was made or last reset, a re-queued operation once more each
    time. *)
Theorem throttled_counts_enqueues o evs w :
  run js_mul evs (constructor o) = Some w →
  throttledRequests (getStats w) = Z.of_nat (length (enqueued (hist w))).
Proof.
  assert (H0 : throttled_counted (constructor o)) by done.
  revert H0. generalize (constructor o).
  induction evs as [|ev r IH]; intros w0 H0; simpl.
  - by intros [= <-].
  - destruct (step js_mul w0 ev) as [w1|] eqn:Hs; [|done].
    intros Hr. eapply IH; [|done]. by eapply throttled_counted_step.
Qed.

Lemma timers_executeCallback route op now w :
  timers (host (_executeCallback route op now w)) = timers (host w)
  ∧ next_timer (host (_executeCallback route op now w)) = next_timer (host w).
Proof.
  unfold _executeCallback, _logRequest.
  by destruct (_requestLog (mgr w) !! route).
Qed.

(** X10. One run of [_processQueue] does nothing when the route's queue is
    empty; otherwise it arms exactly one timer for the next run and starts
    at most one operation, the one at the head of the queue. *)
Theorem processQueue_one_per_run route now w :
  let w' := _processQueue js_mul route now w in
  (queue_of route w = [] → w' = w)
  ∧ (queue_of route w ≠ [] →
     (∃ tm, timers (host w') = timers (host w) ++ [tm]
            ∧ task tm = ProcessQueue route
            ∧ timer_id tm = next_timer (host w))
     ∧ ((queue_of route w' = queue_of route w
         ∧ executed (hist w') = executed (hist w))
        ∨ (∃ op, queue_of route w = op :: queue_of route w'
                 ∧ executed (hist w') = executed (hist w) ++ [(route, op)]))).
Proof.
  intros w'. subst w'. unfold _processQueue, queue_of.
  destruct (_queue (mgr w) !! route) as [[|c q]|] eqn:E;
    cbn [default from_option id];
    [split; [done|intros Hne; exfalso; by apply Hne]|
    |split; [done|intros Hne; exfalso; by apply Hne]].
  split; [intros Hnil; discriminate|intros _].
  set (r := _wouldExceedLimit js_mul route now w).
  assert (Hh : host r.2 = host w).
  { subst r. unfold _wouldExceedLimit.
    by destruct (_requestLog (mgr w) !! route). }
  assert (Hq : _queue (mgr r.2) = _queue (mgr w))
    by apply queue_wouldExceedLimit.
  assert (Hhist : hist r.2 = hist w) by apply hist_wouldExceedLimit.
  clearbody r.
  destruct (negb r.1 && negb (limited route r.2)).
  - rewrite Hq, E.
    set (w3 := _executeCallback route c now
                 (note_dequeued route c (set_queue (insert route q) r.2))).
    assert (H3h : timers (host w3) = timers (host w)
                  ∧ next_timer (host w3) = next_timer (host w)).
    { subst w3.
      destruct (timers_executeCallback route c now
                  (note_dequeued route c (set_queue (insert route q) r.2)))
        as [-> ->].
      simpl. by rewrite Hh. }
    assert (H3q : _queue (mgr w3) !! route = Some q).
    { subst w3. rewrite queue_executeCallback. simpl. apply lookup_insert_eq. }
    assert (H3e : executed (hist w3) = executed (hist w) ++ [(route, c)]).
    { subst w3. rewrite hist_executeCallback. simpl. by rewrite Hhist. }
    destruct H3h as [H3t H3n]. split.
    + exists {| timer_id := next_timer (host w3);
                fires_at := now + timer_delay 1000;
                task := ProcessQueue route |}.
      unfold setTimeout. cbn [snd host timers timer_id task].
      by rewrite H3t, H3n.
    + right. exists c. unfold setTimeout. cbn [snd mgr hist].
      by rewrite H3q, H3e.
  - split.
    + exists {| timer_id := next_timer (host r.2);
                fires_at := now + timer_delay (_retryAfter (mgr r.2));
                task := ProcessQueue route |}.
      unfold setTimeout. cbn [snd host timers timer_id task].
      by rewrite Hh.
    + left. unfold setTimeout. cbn [snd mgr hist].
      by rewrite Hq, Hhist, E.
Qed.


(** *** Further properties: the timers that lift a rate limit *)

(** Pending timers have distinct ids below the next id; the pending timers
    that lift the limit of a route and the entries of [_limitTimers]
    correspond to each other; a route marked limited has such a timer. *)
Definition timers_ok (w : World) : Prop :=
  NoDup (timer_id <$> timers (host w))
  ∧ (∀ tm, tm ∈ timers (host w) → (timer_id tm < next_timer (host w))%nat)
  ∧ (∀ tm r, tm ∈ timers (host w) → task tm = ResetLimit r →
       _limitTimers (mgr w) !! r = Some (timer_id tm))
  ∧ (∀ r id, _limitTimers (mgr w) !! r = Some id →
       ∃ tm, tm ∈ timers (host w) ∧ timer_id tm = id ∧ task tm = ResetLimit r)
  ∧ (∀ r, limited r w = true →
       ∃ tm, tm ∈ timers (host w) ∧ task tm = ResetLimit r).

(** The part of the state that [timers_ok] reads. *)
Definition same_timers (w w' : World) : Prop :=
  timers (host w') = timers (host w)
  ∧ next_timer (host w') = next_timer (host w)
  ∧ _limitTimers (mgr w') = _limitTimers (mgr w)
  ∧ _rateLimit (mgr w') = _rateLimit (mgr w).

Lemma timers_ok_same w w' : same_timers w w' → timers_ok w → timers_ok w'.
Proof.
  intros (Ht & Hn & Hl & Hr) H. unfold timers_ok, limited.
  by rewrite Ht, Hn, Hl, Hr.
Qed.

Lemma same_timers_wouldExceedLimit route now w :
  same_timers w (_wouldExceedLimit js_mul route now w).2.
Proof.
  unfold _wouldExceedLimit. by destruct (_requestLog (mgr w) !! route).
Qed.

Lemma same_timers_enqueue route op w : same_timers w (_enqueue route op w).
Proof. unfold _enqueue. by destruct (_queue (mgr w) !! route). Qed.

Lemma same_timers_executeCallback route op now w :
  same_timers w (_executeCallback route op now w).
Proof.
  unfold _executeCallback, _logRequest.
  by destruct (_requestLog (mgr w) !! route).
Qed.

Lemma same_id_same_timer (l : list Timer) x y :
  NoDup (timer_id <$> l) → x ∈ l → y ∈ l → timer_id x = timer_id y → x = y.
Proof.
  intros Hnd Hx Hy Hxy.
  apply list_elem_of_lookup in Hx as [i Hi], Hy as [j Hj].
  assert (i = j).
  { apply (NoDup_lookup _ i j (timer_id x) Hnd).
    - by rewrite list_lookup_fmap, Hi.
    - rewrite list_lookup_fmap, Hj. simpl. by rewrite Hxy. }
  subst j. congruence.
Qed.

Lemma NoDup_ids_filter (P : Timer → Prop) `{∀ x, Decision (P x)} l :
  NoDup (timer_id <$> l) → NoDup (timer_id <$> filter P l).
Proof.
  intros Hnd. apply NoDup_fmap_2_strong.
  - intros x y Hx Hy. apply list_elem_of_filter in Hx as [_ Hx], Hy as [_ Hy].
    by apply (same_id_same_timer l).
  - apply NoDup_filter. by eapply NoDup_fmap_1.
Qed.

Lemma NoDup_ids_snoc (l : list Timer) tm :
  NoDup (timer_id <$> l) → (∀ x, x ∈ l → timer_id x ≠ timer_id tm) →
  NoDup (timer_id <$> l ++ [tm]).
Proof.
  intros Hnd Hne. rewrite fmap_app. apply NoDup_app. split; [done|]. split.
  - intros i Hi Hi'. apply list_elem_of_singleton in Hi'.
    apply list_elem_of_fmap in Hi as (x & -> & Hx). by apply (Hne x).
  - apply NoDup_singleton.
Qed.

Lemma take_first_perm {A} (p : A → bool) l x r :
  take_first p l = Some (x, r) → l ≡ₚ x :: r.
Proof.
  revert r. induction l as [|y l IH]; intros r; simpl; [done|].
  destruct (p y).
  - by intros [= <- <-].
  - destruct (take_first p l) as [[z r']|]; [|done].
    intros [= <- <-]. rewrite (IH r' eq_refl). apply Permutation_swap.
Qed.

Lemma timers_ok_setTimeout_processQueue route delay now w :
  timers_ok w → timers_ok (setTimeout (ProcessQueue route) delay now w).2.
Proof.
  intros (Hnd & Hlt & Hreg & Hpend & Hlim). unfold timers_ok, limited, setTimeout.
  cbn [snd host mgr timers next_timer].
  split; [|split; [|split; [|split]]].
  - apply NoDup_ids_snoc; [done|]. intros x Hx. specialize (Hlt x Hx).
    simpl. lia.
  - intros tm Htm. apply elem_of_app in Htm as [Htm|Htm].
    + specialize (Hlt tm Htm). lia.
    + apply list_elem_of_singleton in Htm. subst tm. simpl. lia.
  - intros tm r Htm Htask. apply elem_of_app in Htm as [Htm|Htm].
    + by apply Hreg.
    + apply list_elem_of_singleton in Htm. by subst tm.
  - intros r id Hr. destruct (Hpend r id Hr) as (tm & Htm & Hid & Htask).
    exists tm. split; [|done]. apply elem_of_app. by left.
  - intros r Hr. destruct (Hlim r Hr) as (tm & Htm & Htask).
    exists tm. split; [|done]. apply elem_of_app. by left.
Qed.

Lemma timers_ok_handleRateLimit route retryAfter now w :
  timers_ok w → timers_ok (_handleRateLimit route retryAfter now w).
Proof.
  intros (Hnd & Hlt & Hreg & Hpend & Hlim).
  assert (H2 : ∃ l2,
    timers (host (match _limitTimers (mgr w) !! route with
                  | Some id => clearTimeout id (set_rateLimit (insert route true) w)
                  | None => set_rateLimit (insert route true) w
                  end)) = l2
    ∧ NoDup (timer_id <$> l2)
    ∧ (∀ tm, tm ∈ l2 → tm ∈ timers (host w) ∧ task tm ≠ ResetLimit route)
    ∧ (∀ tm, tm ∈ timers (host w) → task tm ≠ ResetLimit route → tm ∈ l2)).
  { destruct (_limitTimers (mgr w) !! route) as [id|] eqn:E.
    - exists (filter (λ tm, timer_id tm ≠ id) (timers (host w))).
      split; [done|]. split; [by apply NoDup_ids_filter|]. split.
      + intros tm Htm. apply list_elem_of_filter in Htm as [Hid Htm].
        split; [done|]. intros Htask. apply Hid.
        specialize (Hreg tm route Htm Htask). congruence.
      + intros tm Htm Htask. apply list_elem_of_filter. split; [|done].
        intros Hid. destruct (Hpend route id E) as (tm' & Htm' & Hid' & Htask').
        apply Htask. rewrite <- Hid' in Hid.
        by rewrite (same_id_same_timer _ tm tm' Hnd Htm Htm' Hid).
    - exists (timers (host w)). split; [done|]. split; [done|]. split.
      + intros tm Htm. split; [done|]. intros Htask.
        specialize (Hreg tm route Htm Htask). congruence.
      + done. }
  destruct H2 as (l2 & Hl2 & Hnd2 & Hin2 & Hkeep).
  assert (Hn2 : next_timer (host (match _limitTimers (mgr w) !! route with
                  | Some id => clearTimeout id (set_rateLimit (insert route true) w)
                  | None => set_rateLimit (insert route true) w
                  end)) = next_timer (host w))
    by (by destruct (_limitTimers (mgr w) !! route)).
  assert (Hm2 : mgr (match _limitTimers (mgr w) !! route with
                  | Some id => clearTimeout id (set_rateLimit (insert route true) w)
                  | None => set_rateLimit (insert route true) w
                  end) = mgr (set_rateLimit (insert route true) w))
    by (by destruct (_limitTimers (mgr w) !! route)).
  unfold timers_ok, limited, _handleRateLimit, setTimeout.
  cbn [fst snd host mgr timers next_timer set_limitTimers _limitTimers _rateLimit].
  change (_limitTimers (mgr (set_rateLimit (insert route true) w)))
    with (_limitTimers (mgr w)).
  rewrite Hl2, Hn2, Hm2.
  cbn [set_rateLimit mgr _limitTimers _rateLimit].
  split; [|split; [|split; [|split]]].
  - apply NoDup_ids_snoc; [done|]. intros x Hx.
    destruct (Hin2 x Hx) as [Hx' _]. specialize (Hlt x Hx'). simpl. lia.
  - intros tm Htm. apply elem_of_app in Htm as [Htm|Htm].
    + destruct (Hin2 tm Htm) as [Htm' _]. specialize (Hlt tm Htm'). lia.
    + apply list_elem_of_singleton in Htm. subst tm. simpl. lia.
  - intros tm r Htm Htask. apply elem_of_app in Htm as [Htm|Htm].
    + destruct (Hin2 tm Htm) as [Htm' Hne].
      rewrite lookup_insert_ne; [by apply Hreg|]. intros <-. by apply Hne.
    + apply list_elem_of_singleton in Htm. subst tm. simpl in Htask.
      injection Htask as <-. simpl. by rewrite lookup_insert_eq.
  - intros r id Hr. destruct (decide (r = route)) as [->|Hne].
    + rewrite lookup_insert_eq in Hr. injection Hr as <-.
      eexists. split; [apply elem_of_app; right; apply list_elem_of_singleton; reflexivity|].
      done.
    + rewrite lookup_insert_ne in Hr by done.
      destruct (Hpend r id Hr) as (tm & Htm & Hid & Htask).
      exists tm. split; [|done]. apply elem_of_app. left. apply Hkeep; [done|].
      rewrite Htask. congruence.
  - intros r Hr. destruct (decide (r = route)) as [->|Hne].
    + eexists. split; [apply elem_of_app; right; apply list_elem_of_singleton; reflexivity|].
      done.
    + rewrite lookup_insert_ne in Hr by done.
      destruct (Hlim r Hr) as (tm & Htm & Htask).
      exists tm. split; [|done]. apply elem_of_app. left. apply Hkeep; [done|].
      rewrite Htask. congruence.
Qed.

Lemma timers_ok_processQueue route now w :
  timers_ok w → timers_ok (_processQueue js_mul route now w).
Proof.
  intros H. unfold _processQueue.
  destruct (_queue (mgr w) !! route) as [[|c q]|] eqn:E; [done| |done].
  assert (H1 : timers_ok (_wouldExceedLimit js_mul route now w).2)
    by (eapply timers_ok_same; [apply same_timers_wouldExceedLimit|done]).
  destruct (_ && _).
  - rewrite queue_wouldExceedLimit, E.
    apply timers_ok_setTimeout_processQueue.
    eapply timers_ok_same; [apply same_timers_executeCallback|].
    eapply timers_ok_same; [|exact H1]. done.
  - by apply timers_ok_setTimeout_processQueue.
Qed.

Lemma timers_ok_throttle now route op w :
  timers_ok w → timers_ok (throttle js_mul now route op w).
Proof.
  intros H. unfold throttle.
  destruct (limited _ _).
  - eapply timers_ok_same; [apply same_timers_enqueue|done].
  - assert (H1 : timers_ok (_wouldExceedLimit js_mul (formatRoute route) now w).2)
      by (eapply timers_ok_same; [apply same_timers_wouldExceedLimit|done]).
    destruct (_wouldExceedLimit _ _ now _).1.
    + apply timers_ok_setTimeout_processQueue.
      eapply timers_ok_same; [apply same_timers_enqueue|done].
    + eapply timers_ok_same; [apply same_timers_executeCallback|done].
Qed.

Lemma timers_ok_executeCallback_resume route op r now w :
  timers_ok w → timers_ok (_executeCallback_resume route op r now w).
Proof.
  intros H. unfold _executeCallback_resume.
  destruct r as [|status ra]; [done|].
  assert (H1 : timers_ok (_logError route w))
    by (eapply timers_ok_same; [|exact H]; done).
  destruct (decide _); [|done].
  eapply timers_ok_same; [apply same_timers_enqueue|].
  by apply timers_ok_handleRateLimit.
Qed.

Lemma timers_ok_fire p tm rest now w :
  take_first p (timers (host w)) = Some (tm, rest) →
  timers_ok w → timers_ok (run_task js_mul (task tm) now (set_timers (λ _, rest) w)).
Proof.
  intros Htf (Hnd & Hlt & Hreg & Hpend & Hlim).
  pose proof (take_first_perm _ _ _ _ Htf) as Hperm.
  assert (Hnd' : NoDup (timer_id <$> tm :: rest)) by (by rewrite <- Hperm).
  rewrite fmap_cons in Hnd'. apply NoDup_cons in Hnd' as [Hnot Hndr].
  assert (Hsub : ∀ x, x ∈ rest → x ∈ timers (host w) ∧ x ≠ tm).
  { intros x Hx. split.
    - rewrite Hperm. by apply list_elem_of_further.
    - intros ->. apply Hnot. by apply list_elem_of_fmap_2. }
  assert (Hkeep : ∀ x, x ∈ timers (host w) → x ≠ tm → x ∈ rest).
  { intros x Hx Hne. rewrite Hperm in Hx.
    apply elem_of_cons in Hx as [?|?]; done. }
  assert (Htm : tm ∈ timers (host w)).
  { rewrite Hperm. apply list_elem_of_here. }
  destruct (task tm) as [route|route] eqn:Htask; simpl;
    apply timers_ok_processQueue.
  - split; [done|]. split; [|split; [|split]]; simpl.
    + intros x Hx. apply Hlt. by apply Hsub.
    + intros x r Hx. apply Hreg. by apply Hsub.
    + intros r id Hr. destruct (Hpend r id Hr) as (x & Hx & Hid & Hxt).
      exists x. split; [|done]. apply Hkeep; [done|]. intros ->. congruence.
    + intros r Hr. destruct (Hlim r Hr) as (x & Hx & Hxt).
      exists x. split; [|done]. apply Hkeep; [done|]. intros ->. congruence.
  - assert (Hother : ∀ x r, x ∈ rest → task x = ResetLimit r → r ≠ route).
    { intros x r Hx Hxt ->. destruct (Hsub x Hx) as [Hx' Hne]. apply Hne.
      apply (same_id_same_timer _ x tm Hnd Hx' Htm).
      pose proof (Hreg x route Hx' Hxt). pose proof (Hreg tm route Htm Htask).
      congruence. }
    split; [done|]. split; [|split; [|split]]; unfold limited; simpl.
    + intros x Hx. apply Hlt. by apply Hsub.
    + intros x r Hx Hxt. rewrite lookup_delete_ne.
      * apply Hreg; [by apply Hsub|done].
      * intros <-. by apply (Hother x route Hx Hxt).
    + intros r id Hr. destruct (decide (r = route)) as [->|Hne].
      * by rewrite lookup_delete_eq in Hr.
      * rewrite lookup_delete_ne in Hr by done.
        destruct (Hpend r id Hr) as (x & Hx & Hid & Hxt).
        exists x. split; [|done]. apply Hkeep; [done|]. intros ->. congruence.
    + intros r Hr. destruct (decide (r = route)) as [->|Hne].
      * by rewrite lookup_insert_eq in Hr.
      * rewrite lookup_insert_ne in Hr by done.
        destruct (Hlim r Hr) as (x & Hx & Hxt).
        exists x. split; [|done]. apply Hkeep; [done|]. intros ->. congruence.
Qed.

Lemma timers_ok_reset w : timers_ok w → timers_ok (reset w).
Proof.
  intros (Hnd & Hlt & Hreg & Hpend & Hlim).
  unfold timers_ok, limited, reset. cbn [host mgr timers next_timer _limitTimers _rateLimit].
  split; [by apply NoDup_ids_filter|]. split; [|split; [|split]].
  - intros tm Htm. apply list_elem_of_filter in Htm as [_ Htm]. auto.
  - intros tm r Htm Htask. apply list_elem_of_filter in Htm as [Hid Htm].
    exfalso. apply Hid. apply list_elem_of_fmap. exists (r, timer_id tm).
    split; [done|]. apply elem_of_map_to_list. by apply Hreg.
  - intros r id Hr. by rewrite lookup_empty in Hr.
  - intros r Hr. by rewrite lookup_empty in Hr.
Qed.

Lemma timers_ok_step w ev w' :
  step js_mul w ev = Some w' → timers_ok w → timers_ok w'.
Proof.
  unfold step. destruct (decide _); [|done].
  assert (H0 : timers_ok w → timers_ok (set_clock (event_time ev) w)).
  { apply timers_ok_same. done. }
  destruct ev as [now route op|now op r|now id|now]; intros Hs H.
  - injection Hs as <-. by apply timers_ok_throttle, H0.
  - destruct (take_first _ _) as [[[o route] rest]|]; [|done].
    injection Hs as <-. apply timers_ok_executeCallback_resume.
    eapply timers_ok_same; [|exact (H0 H)]. done.
  - destruct (take_first _ _) as [[tm rest]|] eqn:Htf; [|done].
    destruct (decide _); [|done]. injection Hs as <-.
    eapply timers_ok_fire; [exact Htf|]. by apply H0.
  - injection Hs as <-. by apply timers_ok_reset, H0.
Qed.

Lemma timers_ok_run evs w w' :
  run js_mul evs w = Some w' → timers_ok w → timers_ok w'.
Proof.
  revert w. induction evs as [|ev r IH]; intros w; simpl.
  - by intros [= <-].
  - destruct (step js_mul w ev) as [w1|] eqn:Hs; [|done].
    intros Hr H. eapply IH; [done|]. by eapply timers_ok_step.
Qed.

Lemma timers_ok_constructor o : timers_ok (constructor o).
Proof.
  unfold timers_ok, limited. simpl. split; [apply NoDup_nil_2|].
  split; [intros tm Htm; by apply elem_of_nil in Htm|].
  split; [intros tm r Htm; by apply elem_of_nil in Htm|].
  split; intros r; [intros id|]; by rewrite lookup_empty.
Qed.

(** X11. In every state reached from a new manager, each route has at most
    one pending timer that lifts its rate limit, that timer is the one
    registered for the route in [_limitTimers], and a route that is marked
    limited has such a timer pending: the mark is always lifted in the
    end. *)
Theorem limit_timer_unique_and_pending o evs w route :
  run js_mul evs (constructor o) = Some w →
  (∀ i j tm1 tm2,
     timers (host w) !! i = Some tm1 → timers (host w) !! j = Some tm2 →
     task tm1 = ResetLimit route → task tm2 = ResetLimit route → i = j)
  ∧ (limited route w = true →
     ∃ tm, tm ∈ timers (host w) ∧ task tm = ResetLimit route
           ∧ _limitTimers (mgr w) !! route = Some (timer_id tm)).
Proof.
  intros Hrun.
  destruct (timers_ok_run _ _ _ Hrun (timers_ok_constructor o))
    as (Hnd & Hlt & Hreg & Hpend & Hlim).
  split.
  - intros i j tm1 tm2 Hi Hj H1 H2.
    pose proof (Hreg tm1 route (list_elem_of_lookup_2 _ _ _ Hi) H1) as E1.
    pose proof (Hreg tm2 route (list_elem_of_lookup_2 _ _ _ Hj) H2) as E2.
    apply (NoDup_lookup _ i j (timer_id tm1) Hnd).
    + by rewrite list_lookup_fmap, Hi.
    + rewrite list_lookup_fmap, Hj. simpl. congruence.
  - intros Hl. destruct (Hlim route Hl) as (tm & Htm & Htask).
    exists tm. split; [done|]. split; [done|]. by apply Hreg.
Qed.

End MoreMethods.

Lemma throttled_counts_enqueues_witness :
  run Qcmult trace_until_429 (constructor options_1_per_minute)
  = Some (world_after trace_until_429)
  ∧ throttledRequests (getStats (world_after trace_until_429))
    = Z.of_nat (length (enqueued (hist (world_after trace_until_429)))).
Proof.
  assert (Hrun : run Qcmult trace_until_429 (constructor options_1_per_minute)
                 = Some (world_after trace_until_429)).
  { vm_compute. reflexivity. }
  split; [exact Hrun|].
  exact (throttled_counts_enqueues Qcmult options_1_per_minute
           trace_until_429 (world_after trace_until_429) Hrun).
Defined.

Lemma processQueue_one_per_run_witness :
  let w := world_after trace_until_429 in
  queue_of "/x" w ≠ []
  ∧ ∃ tm, timers (host (_processQueue Qcmult "/x" 61001 w))
          = timers (host w) ++ [tm]
          ∧ task tm = ProcessQueue "/x"
          ∧ timer_id tm = next_timer (host w).
Proof.
  cbv zeta.
  assert (H : queue_of "/x" (world_after trace_until_429) ≠ [])
    by (vm_compute; discriminate).
  split; [exact H|].
  destruct (processQueue_one_per_run Qcmult "/x" 61001
              (world_after trace_until_429)) as [_ Hne].
  destruct (Hne H) as [Htm _]. exact Htm.
Defined.

Lemma limit_timer_unique_and_pending_witness :
  let w := world_after trace_until_429 in
  run Qcmult trace_until_429 (constructor options_1_per_minute) = Some w
  ∧ limited "/x" w = true
  ∧ ∃ tm, tm ∈ timers (host w) ∧ task tm = ResetLimit "/x"
          ∧ _limitTimers (mgr w) !! "/x" = Some (timer_id tm).
Proof.
  cbv zeta.
  assert (Hrun : run Qcmult trace_until_429 (constructor options_1_per_minute)
                 = Some (world_after trace_until_429)).
  { vm_compute. reflexivity. }
  assert (Hl : limited "/x" (world_after trace_until_429) = true).
  { vm_compute. reflexivity. }
  split; [exact Hrun|]. split; [exact Hl|].
  destruct (limit_timer_unique_and_pending Qcmult options_1_per_minute
              trace_until_429 (world_after trace_until_429) "/x" Hrun)
    as [_ Hex].
  exact (Hex Hl).
Defined.

End ThrottlingManager.

(** ** RESTManager (rest/RESTManager.js) *)

Module RESTManager.

(** The response headers the manager reads. A numeric header is given by the
    integer its text denotes ([parseInt] and [Number] agree on it); an absent
    header is [None]. A header that is present is a non-empty string, hence
    truthy, also when it reads [0]. *)
Record Headers := {
  retry_after : option Z;
  x_ratelimit_limit : option Z;
  x_ratelimit_remaining : option Z;
  x_ratelimit_reset : option Z;
  x_ratelimit_reset_after : option Z;
  x_ratelimit_bucket : option string
}.

Definition no_headers : Headers := {|
  retry_after := None; x_ratelimit_limit := None;
  x_ratelimit_remaining := None; x_ratelimit_reset := None;
  x_ratelimit_reset_after := None; x_ratelimit_bucket := None
|}.

(** The body of a response. *)
Definition Data := string.

Record Response := { status : Z; headers : Headers; data : Data }.

(** How one call of the HTTP layer ends: with a response (axios resolves on a
    2xx status and rejects with [error.response] otherwise), with
    [error.request] only (no response was received), or with neither (the
    request could not be set up). The last two carry the error object. *)
Inductive Outcome :=
  | Responded (r : Response)
  | NoResponse (e : string)
  | SetupFailed (e : string).

(** One call of the HTTP layer as the environment decides it: its outcome,
    the time it takes, and the value of [Math.floor(Math.random() * 1000)]
    drawn if the manager backs off after it. *)
Record Exchange := { outcome : Outcome; took : Z; jitter : Z }.

(** What a rejected promise carries: an [Error] made by the manager, or the
    error object of the HTTP layer passed on as it is. *)
Inductive Rejection :=
  | JsError (message : string)
  | AxiosError (e : string).

(** An entry of [_rateLimits]. [_updateRateLimit] writes [limited], [limit],
    [remaining], [reset]; [_processRateLimit] writes [remaining], [reset],
    [limit] ([NaN], here [None], without the header) and [path]. *)
Record RateLimitInfo := {
  limited : option bool;
  limit : option Z;
  remaining : Z;
  reset : Z;
  path : option string
}.

Record t := {
  restTimeOffset : Z;
  restRequestTimeout : Z;
  retryLimit : Z;
  retryAfter : Z;
  _rateLimits : gmap string RateLimitInfo;
  emitted : list (string * string)
}.

Record RESTOptions := {
  opt_restTimeOffset : option Z;
  opt_restRequestTimeout : option Z;
  opt_retryLimit : option Z
}.

(** [a || b || d] on numbers. *)
Definition or3 (a b : option Z) (d : Z) : Z :=
  ThrottlingManager.or_default_Z a (ThrottlingManager.or_default_Z b d).

(** The constructor, from the manager's options and the client's. *)
Definition constructor (options client_options : RESTOptions) : t := {|
  restTimeOffset :=
    or3 (opt_restTimeOffset options) (opt_restTimeOffset client_options) 500;
  restRequestTimeout :=
    or3 (opt_restRequestTimeout options)
      (opt_restRequestTimeout client_options) 15000;
  retryLimit := or3 (opt_retryLimit options) (opt_retryLimit client_options) 3;
  retryAfter := 1000;
  _rateLimits := ∅;
  emitted := []
|}.

Definition set_rateLimits (f : gmap string RateLimitInfo → gmap string RateLimitInfo)
    (m : t) : t :=
  {| restTimeOffset := restTimeOffset m;
     restRequestTimeout := restRequestTimeout m;
     retryLimit := retryLimit m; retryAfter := retryAfter m;
     _rateLimits := f (_rateLimits m); emitted := emitted m |}.

(** [this.client.emit(event, text)]. *)
Definition emit (event text : string) (m : t) : t :=
  {| restTimeOffset := restTimeOffset m;
     restRequestTimeout := restRequestTimeout m;
     retryLimit := retryLimit m; retryAfter := retryAfter m;
     _rateLimits := _rateLimits m;
     emitted := emitted m ++ [(event, text)] |}.

(** The request configuration: [method], [url], [params] in the order of
    [Object.keys], and [_retryCount] of the interceptors. *)
Record Config := {
  method : string;
  url : string;
  params : option (list (string * string));
  _retryCount : option Z
}.

(** *** [_getAPIRoute] *)

(** [url.replace(/\/\d+/g, '/:id')]: a slash followed by digits becomes
    [/:id]. [skip] tells whether the digits of a replaced run are being
    passed over. *)
Fixpoint replace_id_segments (skip : bool) (s : string) : string :=
  match s with
  | EmptyString => EmptyString
  | String a r =>
      if skip && ThrottlingManager.is_digit a then replace_id_segments true r
      else
        match r with
        | String b _ =>
            if Ascii.eqb a "/" && ThrottlingManager.is_digit b
            then "/:id" +:+ replace_id_segments true r
            else String a (replace_id_segments false r)
        | EmptyString => String a EmptyString
        end
  end.

(** Insertion of a key into a sorted list of keys, and [Array.sort] on keys
    (code unit order). *)
Fixpoint insert_sorted (k : string) (l : list string) : list string :=
  match l with
  | [] => [k]
  | x :: r => if String.leb k x then k :: l else x :: insert_sorted k r
  end.

Definition sort_keys (l : list string) : list string :=
  foldr insert_sorted [] l.

Definition _getAPIRoute (config : Config) : string :=
  let route := replace_id_segments false (url config) in
  let route :=
    match params config with
    | Some ps =>
        fold_left
          (fun (route : string) (key : string) =>
             match JsMap.get key ps with
             | Some v =>
                 if String.eqb v "" then route
                 else route +:+ "&" +:+ key +:+ "=" +:+ v
             | None => route
             end)
          (sort_keys (JsMap.keys ps)) route
    | None => route
    end in
  method config +:+ ":" +:+ route.

(** *** Rate limit bookkeeping *)

(** [info && info.limited]. *)
Definition is_limited (info : option RateLimitInfo) : bool :=
  match info with
  | Some i => default false (limited i)
  | None => false
  end.

(** [_handleRateLimit(config)], the request interceptor: the number of
    milliseconds passed to [setTimeout] before the request goes on, if
    any. *)
Definition _handleRateLimit (config : Config) (now : Z) (m : t) : option Z :=
  let rateLimitInfo := _rateLimits m !! _getAPIRoute config in
  if is_limited rateLimitInfo then
    match rateLimitInfo with
    | Some i =>
        if now <? reset i then Some (reset i - now + restTimeOffset m) else None
    | None => None
    end
  else None.

(** The time at which a request that enters the request interceptor at
    [now] is handed to the HTTP layer. *)
Definition send_time (config : Config) (now : Z) (m : t) : Z :=
  match _handleRateLimit config now m with
  | Some waitTime => now + timer_delay waitTime
  | None => now
  end.

Definition default_info : RateLimitInfo :=
  {| limited := Some false; limit := Some 0; remaining := 0; reset := 0;
     path := None |}.

(** [_updateRateLimit(response, retryAfter = 0)] at time [now]; the response
    of the HTTP layer always has headers. *)
Definition _updateRateLimit (config : Config) (h : Headers) (retryAfter now : Z)
    (m : t) : t :=
  let route := _getAPIRoute config in
  let i0 := default default_info (_rateLimits m !! route) in
  let limit1 := match x_ratelimit_limit h with
                | Some l => Some l
                | None => limit i0
                end in
  let remaining1 := default (remaining i0) (x_ratelimit_remaining h) in
  let reset1 := match x_ratelimit_reset_after h with
                | Some ra => now + ra * 1000
                | None => match x_ratelimit_reset h with
                          | Some r => r * 1000
                          | None => reset i0
                          end
                end in
  let i1 :=
    if retryAfter >? 0 then
      {| limited := Some true; limit := limit1; remaining := remaining1;
         reset := now + retryAfter; path := path i0 |}
    else
      {| limited := Some ((remaining1 =? 0) && (reset1 >? now));
         limit := limit1; remaining := remaining1; reset := reset1;
         path := path i0 |} in
  set_rateLimits (insert route i1) m.

(** [_processRateLimit(response, path)]. *)
Definition _processRateLimit (h : Headers) (path : string) (m : t) : t :=
  match x_ratelimit_bucket h, x_ratelimit_remaining h, x_ratelimit_reset h with
  | Some bucket, Some rem, Some rst =>
      if String.eqb bucket "" then m
      else set_rateLimits
             (insert bucket
                {| limited := None; limit := x_ratelimit_limit h;
                   remaining := rem; reset := rst * 1000;
                   path := Some path |}) m
  | _, _, _ => m
  end.

(** *** Requests through [make] and [_request] *)

(** A call in progress, as an observer sees it: how it settled ([None] while
    it is still waiting for the HTTP layer), when, the times at which a
    request was handed to the HTTP layer, and the manager's state. *)
Record Run := {
  result : option (Data + Rejection);
  finished : Z;
  sent_at : list Z;
  final : t
}.

Definition resolve (d : Data) (now : Z) (m : t) : Run :=
  {| result := Some (inl d); finished := now; sent_at := []; final := m |}.

Definition reject (e : Rejection) (now : Z) (m : t) : Run :=
  {| result := Some (inr e); finished := now; sent_at := []; final := m |}.

Definition sent (now : Z) (r : Run) : Run :=
  {| result := result r; finished := finished r;
     sent_at := now :: sent_at r; final := final r |}.

(** [Math.floor(Math.random() * 1000) + 1000], with the random part
    given. *)
Definition backoff (rnd : Z) : Z := rnd + 1000.

(** [_handleResponse(response, requestOptions, retryCount)] at time [now].
    [retry] is [this._request(requestOptions, ...)]: it takes the retry
    count, the time of the call and the state. *)
Definition _handleResponse (retry : Z → Z → t → Run) (response : Response)
    (requestOptions : Config) (retryCount : Z) (rnd : Z) (now : Z) (m : t)
    : Run :=
  let m := _processRateLimit (headers response) (url requestOptions) m in
  let st := status response in
  if (200 <=? st) && (st <? 300) then resolve (data response) now m
  else if st =? 429 then
    let retryAfter := match retry_after (headers response) with
                      | Some s => s * 1000
                      | None => retryAfter m
                      end in
    let m := emit "debug"
               ("Rate limited on " +:+ url requestOptions +:+
                ". Retrying after " +:+ pretty retryAfter +:+ "ms") m in
    retry retryCount (now + timer_delay retryAfter) m
  else if st =? 401 then reject (JsError "UNAUTHORIZED") now m
  else if st =? 403 then reject (JsError "FORBIDDEN") now m
  else if st =? 404 then reject (JsError "NOT_FOUND") now m
  else if (st =? 500) || (st =? 502) || (st =? 503) || (st =? 504) then
    if retryCount <? retryLimit m then
      let retryAfter := backoff rnd in
      let m := emit "debug"
                 ("Server error " +:+ pretty st +:+ " on " +:+
                  url requestOptions +:+ ". Retrying after " +:+
                  pretty retryAfter +:+ "ms") m in
      retry (retryCount + 1) (now + timer_delay retryAfter) m
    else reject (JsError "SERVER_ERROR") now m
  else reject (JsError ("UNKNOWN_ERROR: " +:+ pretty st)) now m.

(** [_request(options, retryCount)] called at time [now]. Each call of the
    HTTP layer takes the next exchange of [script]; when the script is used
    up the call is waiting for an answer. *)
Fixpoint _request (script : list Exchange) (options : Config)
    (retryCount : Z) (now : Z) (m : t) : Run :=
  match script with
  | [] => {| result := None; finished := now; sent_at := [now]; final := m |}
  | x :: rest =>
      let arrived := now + took x in
      sent now
        match outcome x with
        | Responded response =>
            _handleResponse (_request rest options) response options
              retryCount (jitter x) arrived m
        | NoResponse e =>
            if retryCount <? retryLimit m then
              let retryAfter := backoff (jitter x) in
              let m := emit "debug"
                         ("Request timeout on " +:+ url options +:+
                          ". Retrying after " +:+ pretty retryAfter +:+ "ms")
                         m in
              _request rest options (retryCount + 1)
                (arrived + timer_delay retryAfter) m
            else reject (JsError "REQUEST_TIMEOUT") arrived m
        | SetupFailed e => reject (AxiosError e) arrived m
        end
  end.

(** [String.prototype.toUpperCase] on ASCII letters. *)
Definition upper (a : ascii) : ascii :=
  let n := nat_of_ascii a in
  if (97 <=? n)%nat && (n <=? 122)%nat then ascii_of_nat (n - 32) else a.

Fixpoint toUpperCase (s : string) : string :=
  match s with
  | EmptyString => EmptyString
  | String a r => String (upper a) (toUpperCase r)
  end.

(** [make(method, path, options)]; [api_text] is the text that
    [`${this.api}`] yields. *)
Definition make (api_text : string) (method path : string)
    (query : option (list (string * string)))
    (script : list Exchange) (now : Z) (m : t) : Run :=
  let url := if String.prefix "https://" path then path
             else api_text +:+ path in
  _request script
    {| method := toUpperCase method; url := url; params := query;
       _retryCount := None |} 0 now m.

Definition get (api_text path : string) := make api_text "get" path.
Definition post (api_text path : string) := make api_text "post" path.
Definition put (api_text path : string) := make api_text "put" path.
Definition patch (api_text path : string) := make api_text "patch" path.
Definition delete (api_text path : string) := make api_text "delete" path.

(** *** Requests through the axios instance [this.api] and its interceptors *)

Inductive ApiError :=
  | HttpError (r : Response)
  | TransportError (e : string).

Record ApiRun := {
  api_result : option (Response + ApiError);
  api_finished : Z;
  api_sent_at : list Z;
  api_final : t
}.

Definition api_sent (now : Z) (r : ApiRun) : ApiRun :=
  {| api_result := api_result r; api_finished := api_finished r;
     api_sent_at := now :: api_sent_at r; api_final := api_final r |}.

Definition with_retryCount (n : Z) (config : Config) : Config :=
  {| method := method config; url := url config; params := params config;
     _retryCount := Some n |}.

(** The events emitted for a response with an error status; the body stands
    for its [message]. *)
Definition emit_status (config : Config) (r : Response) (m : t) : t :=
  let st := status r in
  let m := if st =? 401 then emit "error" "INVALID_TOKEN" m else m in
  let m := if st =? 403 then emit "error" ("FORBIDDEN: " +:+ data r) m else m in
  let m := if st =? 404
           then emit "debug" ("Resource not found: " +:+ _getAPIRoute config) m
           else m in
  if st >=? 500
  then emit "error" ("API ERROR: " +:+ pretty st +:+ " " +:+ data r) m
  else m.

(** The last part of the response interceptor's error handler: one automatic
    retry for a request that has no retry count yet. [has_config] tells
    whether the error carries the request configuration. *)
Definition auto_retry (retry : Config → Z → t → ApiRun) (has_config : bool)
    (config : Config) (err : ApiError) (now : Z) (m : t) : ApiRun :=
  let rejection :=
    {| api_result := Some (inr err); api_finished := now; api_sent_at := [];
       api_final := m |} in
  if has_config &&
     match _retryCount config with Some n => n =? 0 | None => true end
  then
    if 1 <=? retryLimit m
    then retry (with_retryCount 1 config) (now + timer_delay (retryAfter m)) m
    else rejection
  else rejection.

(** A request through [this.api(config)] at time [now]: the request
    interceptor, the HTTP layer, the response interceptor. An error without
    request or response is taken to carry no configuration. *)
Fixpoint api (script : list Exchange) (config : Config) (now : Z) (m : t)
    : ApiRun :=
  let sending := send_time config now m in
  match script with
  | [] => {| api_result := None; api_finished := sending;
             api_sent_at := [sending]; api_final := m |}
  | x :: rest =>
      let arrived := sending + took x in
      api_sent sending
        match outcome x with
        | Responded r =>
            if (200 <=? status r) && (status r <? 300) then
              {| api_result := Some (inl r); api_finished := arrived;
                 api_sent_at := [];
                 api_final := _updateRateLimit config (headers r) 0 arrived m |}
            else if status r =? 429 then
              let retryAfter := match retry_after (headers r) with
                                | Some s => s * 1000
                                | None => retryAfter m
                                end in
              let m := _updateRateLimit config (headers r) retryAfter arrived m in
              let count := ThrottlingManager.or_default_Z (_retryCount config) 0 + 1 in
              if count <=? retryLimit m then
                api rest (with_retryCount count config)
                  (arrived + timer_delay retryAfter) m
              else
                auto_retry (api rest) true config (HttpError r) arrived
                  (emit_status config r m)
            else
              auto_retry (api rest) true config (HttpError r) arrived
                (emit_status config r m)
        | NoResponse e =>
            auto_retry (api rest) true config (TransportError e) arrived m
        | SetupFailed e =>
            auto_retry (api rest) false config (TransportError e) arrived m
        end
  end.

(** *** What a call through [_request] can end with *)

Lemma retryLimit_processRateLimit h p m :
  retryLimit (_processRateLimit h p m) = retryLimit m.
Proof. unfold _processRateLimit. by repeat case_match. Qed.

Lemma retryAfter_processRateLimit h p m :
  retryAfter (_processRateLimit h p m) = retryAfter m.
Proof. unfold _processRateLimit. by repeat case_match. Qed.

(** The four ways [_handleResponse] goes on. *)
Lemma handleResponse_cases retry response options retryCount rnd now m :
  let R := _handleResponse retry response options retryCount rnd now m in
  (200 ≤ status response < 300
   ∧ ∃ m', R = resolve (data response) now m')
  ∨ (status response = 429
     ∧ ∃ now' m', R = retry retryCount now' m' ∧ retryLimit m' = retryLimit m)
  ∨ (status response ≠ 429
     ∧ ∃ msg m', R = reject (JsError msg) now m'
         ∧ (msg ∈ ["UNAUTHORIZED"; "FORBIDDEN"; "NOT_FOUND"; "SERVER_ERROR"]
            ∨ msg = "UNKNOWN_ERROR: " +:+ pretty (status response)))
  ∨ (status response ≠ 429 ∧ retryCount < retryLimit m
     ∧ ∃ now' m', R = retry (retryCount + 1) now' m'
         ∧ retryLimit m' = retryLimit m).
Proof.
  intros R. subst R. unfold _handleResponse.
  set (m1 := _processRateLimit _ _ m).
  assert (Hl : retryLimit m1 = retryLimit m) by apply retryLimit_processRateLimit.
  destruct ((200 <=? status response) && (status response <? 300)) eqn:H2xx.
  { left. apply andb_true_iff in H2xx as [H1 H2]. split; [lia|]. by eexists. }
  destruct (status response =? 429) eqn:H429.
  { right. left. split; [lia|]. do 2 eexists. split; [done|]. exact Hl. }
  assert (Hne : status response ≠ 429) by lia.
  destruct (status response =? 401).
  { right. right. left. split; [done|]. do 2 eexists. split; [done|].
    left. elem_solve. }
  destruct (status response =? 403).
  { right. right. left. split; [done|]. do 2 eexists. split; [done|].
    left. elem_solve. }
  destruct (status response =? 404).
  { right. right. left. split; [done|]. do 2 eexists. split; [done|].
    left. elem_solve. }
  destruct (_ || _).
  - destruct (retryCount <? retryLimit m1) eqn:Hlt.
    + right. right. right. split; [done|]. split; [lia|].
      do 2 eexists. split; [done|]. exact Hl.
    + right. right. left. split; [done|]. do 2 eexists. split; [done|].
      left. elem_solve.
  - right. right. left. split; [done|]. do 2 eexists. split; [done|]. by right.
Qed.

Definition is_429 (x : Exchange) : bool :=
  match outcome x with
  | Responded r => status r =? 429
  | _ => false
  end.

(** The ends of a call that the manager accounts for, given the exchanges
    with the HTTP layer: the body of a 2xx response; an [Error] with one of
    the manager's messages; or the HTTP layer's own error when a request
    could not be set up. *)
Definition accounted (script : list Exchange) (r : Data + Rejection) : Prop :=
  match r with
  | inl d =>
      ∃ x response, x ∈ script ∧ outcome x = Responded response
        ∧ 200 ≤ status response < 300 ∧ d = data response
  | inr (JsError msg) =>
      msg ∈ ["UNAUTHORIZED"; "FORBIDDEN"; "NOT_FOUND"; "SERVER_ERROR";
             "REQUEST_TIMEOUT"]
      ∨ ∃ x response, x ∈ script ∧ outcome x = Responded response
          ∧ msg = "UNKNOWN_ERROR: " +:+ pretty (status response)
  | inr (AxiosError e) => ∃ x, x ∈ script ∧ outcome x = SetupFailed e
  end.

Lemma accounted_cons x script r : accounted script r → accounted (x :: script) r.
Proof.
  destruct r as [d|[msg|e]]; simpl.
  - intros (y & resp & Hin & Ho & Hs & Hd). exists y, resp.
    split; [by apply list_elem_of_further|done].
  - intros [H|(y & resp & Hin & Ho & Hm)]; [by left|right].
    exists y, resp. split; [by apply list_elem_of_further|done].
  - intros (y & Hin & Ho). exists y. split; [by apply list_elem_of_further|done].
Qed.

Lemma request_accounted script options retryCount now m r :
  result (_request script options retryCount now m) = Some r →
  accounted script r.
Proof.
  revert retryCount now m.
  induction script as [|x rest IH]; intros retryCount now m; simpl; [done|].
  destruct (outcome x) as [response|e|e] eqn:Ho.
  - destruct (handleResponse_cases (_request rest options) response options
                retryCount (jitter x) (now + took x) m)
      as [[H2 (m' & ->)]|[[H4 (now' & m' & -> & _)]|[[Hn (msg & m' & -> & Hmsg)]
         |(Hn & Hlt & now' & m' & -> & _)]]]; simpl.
    + intros [= <-]. exists x, response. split; [apply list_elem_of_here|done].
    + intros H. by apply accounted_cons, (IH _ _ _ H).
    + intros [= <-]. simpl. destruct Hmsg as [Hmsg| ->].
      * left. elem_solve.
      * right. exists x, response. split; [apply list_elem_of_here|done].
    + intros H. by apply accounted_cons, (IH _ _ _ H).
  - destruct (retryCount <? retryLimit m); simpl.
    + intros H. by apply accounted_cons, (IH _ _ _ H).
    + intros [= <-]. simpl. left. elem_solve.
  - intros [= <-]. simpl. exists x. split; [apply list_elem_of_here|done].
Qed.

Lemma request_settles script options retryCount now m :
  Z.max 0 (retryLimit m - retryCount)
    < Z.of_nat (length (filter (λ x, is_429 x = false) script)) →
  is_Some (result (_request script options retryCount now m)).
Proof.
  revert retryCount now m.
  induction script as [|x rest IH]; intros retryCount now m; simpl.
  { lia. }
  intros Hlen.
  destruct (outcome x) as [response|e|e] eqn:Ho.
  - destruct (handleResponse_cases (_request rest options) response options
                retryCount (jitter x) (now + took x) m)
      as [[H2 (m' & ->)]|[[H4 (now' & m' & -> & Hl)]|[[Hn (msg & m' & -> & Hmsg)]
         |(Hn & Hlt & now' & m' & -> & Hl)]]]; simpl; [by eexists| |by eexists|].
    + apply IH. rewrite Hl.
      rewrite filter_cons_False in Hlen; [done|].
      unfold is_429. rewrite Ho. intros E. lia.
    + apply IH. rewrite Hl.
      rewrite filter_cons_True in Hlen by (unfold is_429; rewrite Ho; lia).
      cbn [length] in Hlen. lia.
  - rewrite filter_cons_True in Hlen by (unfold is_429; by rewrite Ho).
    cbn [length] in Hlen.
    destruct (retryCount <? retryLimit m) eqn:Hlt; simpl; [|by eexists].
    apply IH. simpl. lia.
  - by eexists.
Qed.

(** C8 (amended). A call through [_request] that settles resolves with the
    body of a 2xx response, or rejects with an [Error] whose message is
    UNAUTHORIZED, FORBIDDEN, NOT_FOUND, SERVER_ERROR, REQUEST_TIMEOUT or
    UNKNOWN_ERROR with the status, or rejects with the HTTP layer's own error
    when the request could not be set up; and it settles as soon as the HTTP
    layer has given more answers other than 429 than there are retries
    left. *)
Theorem request_ends_accounted script options retryCount now m :
  (∀ r, result (_request script options retryCount now m) = Some r →
        accounted script r)
  ∧ (Z.max 0 (retryLimit m - retryCount)
       < Z.of_nat (length (filter (λ x, is_429 x = false) script)) →
     is_Some (result (_request script options retryCount now m))).
Proof.
  split.
  - intros r. apply request_accounted.
  - apply request_settles.
Qed.

(** *** Concrete exchanges *)

Definition no_options : RESTOptions :=
  {| opt_restTimeOffset := None; opt_restRequestTimeout := None;
     opt_retryLimit := None |}.

(** A manager with the client's [retryLimit]. *)
Definition manager_with_retryLimit (n : Z) : t :=
  constructor no_options
    {| opt_restTimeOffset := None; opt_restRequestTimeout := None;
       opt_retryLimit := Some n |}.

Definition answer (st : Z) (h : Headers) (d : Data) (tk : Z) : Exchange :=
  {| outcome := Responded {| status := st; headers := h; data := d |};
     took := tk; jitter := 0 |}.

Definition with_retry_after (s : Z) : Headers :=
  {| retry_after := Some s; x_ratelimit_limit := None;
     x_ratelimit_remaining := None; x_ratelimit_reset := None;
     x_ratelimit_reset_after := None; x_ratelimit_bucket := None |}.

Definition exhausted_bucket (bucket : string) (reset_s : Z) : Headers :=
  {| retry_after := None; x_ratelimit_limit := Some 5;
     x_ratelimit_remaining := Some 0; x_ratelimit_reset := Some reset_s;
     x_ratelimit_reset_after := None; x_ratelimit_bucket := Some bucket |}.

Definition get_x : Config :=
  {| method := "GET"; url := "/x"; params := None; _retryCount := None |}.

Lemma request_ends_accounted_witness :
  let script := [answer 429 no_headers "" 5; answer 503 no_headers "" 5;
                 answer 404 no_headers "" 5] in
  Z.max 0 (retryLimit (manager_with_retryLimit 1) - 0)
    < Z.of_nat (length (filter (λ x, is_429 x = false) script))
  ∧ is_Some (result (_request script get_x 0 0 (manager_with_retryLimit 1))).
Proof.
  cbv zeta.
  assert (H : Z.max 0 (retryLimit (manager_with_retryLimit 1) - 0)
              < Z.of_nat (length (filter (λ x, is_429 x = false)
                  [answer 429 no_headers "" 5; answer 503 no_headers "" 5;
                   answer 404 no_headers "" 5]))).
  { vm_compute. reflexivity. }
  split; [exact H|].
  destruct (request_ends_accounted
              [answer 429 no_headers "" 5; answer 503 no_headers "" 5;
               answer 404 no_headers "" 5] get_x 0 0
              (manager_with_retryLimit 1)) as [_ Hs].
  exact (Hs H).
Defined.

(** As long as the answers are 429 the call neither resolves nor rejects,
    whatever the retry limit. *)
Lemma request_pending_under_429 n ra tk options retryCount now m :
  result (_request (replicate n (answer 429 (with_retry_after ra) "" tk))
            options retryCount now m) = None.
Proof.
  revert now m. induction n as [|n IH]; intros now m; [done|].
  simpl. unfold _handleResponse. simpl. apply IH.
Qed.

(** C8 as stated fails: when the request cannot be set up, the call rejects
    with the error object of the HTTP layer itself. *)
Lemma request_rejects_with_raw_error :
  result (make "" "get" "/x" None
            [{| outcome := SetupFailed "ERR_INVALID_URL"; took := 0;
                jitter := 0 |}] 0 (manager_with_retryLimit 3))
  = Some (inr (AxiosError "ERR_INVALID_URL")).
Proof. reflexivity. Qed.

(** *** Retries after 429 *)

(** In [_request], retries after 429 are not counted: after any number of
    429 answers the next 2xx answer resolves the call, with one call of the
    HTTP layer per answer, whatever the retry limit and the retry count. *)
Lemma rate_limit_retries_not_counted n ra tk d options retryCount now m :
  let run := _request (replicate n (answer 429 (with_retry_after ra) "" tk)
                       ++ [answer 200 no_headers d tk])
               options retryCount now m in
  result run = Some (inl d) ∧ length (sent_at run) = S n.
Proof.
  revert now m. induction n as [|n IH]; intros now m.
  - done.
  - simpl. unfold _handleResponse. simpl. split.
    + apply (proj1 (IH _ _)).
    + f_equal. apply (proj2 (IH _ _)).
Qed.

(** The scenario of the specification: one 429 with [retry-after: 2], then
    success. The call resolves through exactly one retry, at least 2000 ms
    after it was made; the retry limit plays no part. *)
Lemma retry_scenario_single_429 tk1 tk2 d options now m :
  0 ≤ tk1 → 0 ≤ tk2 →
  let run := _request [answer 429 (with_retry_after 2) "" tk1;
                       answer 200 no_headers d tk2] options 0 now m in
  result run = Some (inl d)
  ∧ sent_at run = [now; now + tk1 + 2000]
  ∧ now + 2000 ≤ finished run.
Proof.
  intros H1 H2. simpl. unfold _handleResponse. simpl.
  change (timer_delay (2 * 1000)) with 2000.
  split; [done|]. split; [done|]. lia.
Qed.

(** C2 (the retry budget is not applied in [_request]). With a retry limit
    of 1 and the answers 429, 429, 429, 200, the call through [_request]
    resolves after three retries; the same request through the axios
    instance, whose response interceptor counts its 429 retries, gives up
    after one retry. *)
Theorem rate_limit_retries_exceed_limit :
  let m := manager_with_retryLimit 1 in
  let script := [answer 429 (with_retry_after 2) "" 10;
                 answer 429 no_headers "" 10; answer 429 no_headers "" 10;
                 answer 200 no_headers "OK" 10] in
  retryLimit m = 1
  ∧ result (_request script get_x 0 0 m) = Some (inl "OK")
  ∧ sent_at (_request script get_x 0 0 m) = [0; 2010; 3020; 4030]
  ∧ api_sent_at (api script get_x 0 m) = [0; 2010]
  ∧ api_result (api script get_x 0 m)
    = Some (inr (HttpError {| status := 429; headers := no_headers;
                              data := "" |})).
Proof. vm_compute. repeat split; reflexivity. Qed.

(** *** The check before sending *)

(** X13. Through the axios instance, a request on a route that is marked
    limited with its reset in the future is handed to the HTTP layer at
    [reset + restTimeOffset]. *)
Lemma presend_check_waits script config now m info :
  _rateLimits m !! _getAPIRoute config = Some info →
  limited info = Some true →
  now < reset info →
  1 ≤ reset info - now + restTimeOffset m ≤ TIMEOUT_MAX →
  _handleRateLimit config now m = Some (reset info - now + restTimeOffset m)
  ∧ head (api_sent_at (api script config now m))
    = Some (reset info + restTimeOffset m).
Proof.
  intros Hinfo Hlim Hnow Hrange.
  assert (Hw : _handleRateLimit config now m
               = Some (reset info - now + restTimeOffset m)).
  { unfold _handleRateLimit. rewrite Hinfo. simpl. rewrite Hlim. simpl.
    apply Z.ltb_lt in Hnow. by rewrite Hnow. }
  split; [done|].
  assert (Hs : send_time config now m = reset info + restTimeOffset m).
  { unfold send_time. rewrite Hw, timer_delay_id by done. lia. }
  destruct script; simpl; by rewrite Hs.
Qed.

(** A request through [_request] is handed to the HTTP layer at the time of
    the call, whatever the recorded rate limits. *)
Lemma request_sends_at_once script options retryCount now m :
  head (sent_at (_request script options retryCount now m)) = Some now.
Proof. by destruct script. Qed.

(** C1 (no check before sending in [make] and [_request]). A first call
    records the bucket of its response with [remaining = 0] and a reset at
    10000 ms; a second call on the same path at 5000 ms is sent at once,
    before [reset + restTimeOffset]. The same holds when the route is marked
    limited by the interceptors: the axios instance then waits until 10500
    ms, [_request] does not. *)
Theorem request_ignores_rate_limit :
  let m0 := manager_with_retryLimit 3 in
  let first := make "" "get" "/x" None
                 [answer 200 (exhausted_bucket "b" 10) "OK" 100] 4000 m0 in
  let m1 := final first in
  let m2 := api_final
              (api [answer 200 (exhausted_bucket "b" 10) "OK" 100] get_x 4000 m0) in
  (_rateLimits m1 !! "b"
     = Some {| limited := None; limit := Some 5; remaining := 0;
               reset := 10000; path := Some "/x" |}
   ∧ sent_at (make "" "get" "/x" None [] 5000 m1) = [5000]
   ∧ 5000 < 10000 + restTimeOffset m1)
  ∧ (_rateLimits m2 !! _getAPIRoute get_x
       = Some {| limited := Some true; limit := Some 5; remaining := 0;
                 reset := 10000; path := None |}
     ∧ api_sent_at (api [] get_x 5000 m2) = [10500]
     ∧ sent_at (_request [] get_x 0 5000 m2) = [5000]).
Proof. vm_compute. repeat split; reflexivity. Qed.

(** *** Further properties: route keys *)

Lemma replace_id_segments_digits d rest :
  ThrottlingManager.digits_only d = true →
  replace_id_segments true (d +:+ rest) = replace_id_segments true rest.
Proof.
  induction d as [|a d IH]; [done|]. simpl. intros H.
  apply andb_true_iff in H as [Ha Hd]. rewrite Ha. by apply IH.
Qed.

Lemma replace_id_segments_segment skip before rest :
  ∃ f, ∀ d', d' ≠ "" → ThrottlingManager.digits_only d' = true →
    replace_id_segments skip (before +:+ "/" +:+ d' +:+ rest)
    = f (replace_id_segments true rest).
Proof.
  revert skip. induction before as [|a r IH]; intros skip.
  - exists (λ x, "/:id" +:+ x). intros d' Hne Hd.
    destruct d' as [|b d'']; [done|].
    pose proof Hd as Hd'. simpl in Hd'.
    apply andb_true_iff in Hd' as [Hb Hd''].
    change ("" +:+ "/" +:+ String b d'' +:+ rest)
      with (String "/" (String b (d'' +:+ rest))).
    cbn [replace_id_segments].
    replace (skip && ThrottlingManager.is_digit "/") with false
      by (by destruct skip).
    rewrite Hb. cbn [andb].
    by rewrite (replace_id_segments_digits d'' rest Hd'').
  - destruct (IH true) as [ft Hft]. destruct (IH false) as [ff Hff].
    destruct (skip && ThrottlingManager.is_digit a) eqn:Hs.
    + exists ft. intros d' Hne Hd.
      change (String a r +:+ "/" +:+ d' +:+ rest)
        with (String a (r +:+ "/" +:+ d' +:+ rest)).
      cbn [replace_id_segments]. rewrite Hs. by apply Hft.
    + destruct r as [|b r'].
      * exists (λ x, String a (ff x)). intros d' Hne Hd.
        change (String a "" +:+ "/" +:+ d' +:+ rest)
          with (String a (String "/" (d' +:+ rest))).
        cbn [replace_id_segments]. rewrite Hs.
        replace (Ascii.eqb a "/" && ThrottlingManager.is_digit "/") with false
          by (by destruct (Ascii.eqb a "/")).
        f_equal. by apply (Hff d').
      * destruct (Ascii.eqb a "/" && ThrottlingManager.is_digit b) eqn:Hb.
        -- exists (λ x, "/:id" +:+ ft x). intros d' Hne Hd.
           change (String a (String b r') +:+ "/" +:+ d' +:+ rest)
             with (String a (String b (r' +:+ "/" +:+ d' +:+ rest))).
           cbn [replace_id_segments]. rewrite Hs, Hb.
           f_equal. by apply (Hft d').
        -- exists (λ x, String a (ff x)). intros d' Hne Hd.
           change (String a (String b r') +:+ "/" +:+ d' +:+ rest)
             with (String a (String b (r' +:+ "/" +:+ d' +:+ rest))).
           cbn [replace_id_segments]. rewrite Hs, Hb.
           f_equal. by apply (Hff d').
Qed.

(** X12. Two requests with the same method and parameters whose URLs differ
    only in a numeric id after a slash have the same route key. *)
Theorem getAPIRoute_collapses_ids meth ps rc1 rc2 before d1 d2 rest :
  d1 ≠ "" → d2 ≠ "" →
  ThrottlingManager.digits_only d1 = true →
  ThrottlingManager.digits_only d2 = true →
  _getAPIRoute {| method := meth; url := before +:+ "/" +:+ d1 +:+ rest;
                  params := ps; _retryCount := rc1 |}
  = _getAPIRoute {| method := meth; url := before +:+ "/" +:+ d2 +:+ rest;
                    params := ps; _retryCount := rc2 |}.
Proof.
  intros H1 H2 Hd1 Hd2. unfold _getAPIRoute. cbn [url params method].
  destruct (replace_id_segments_segment false before rest) as [f Hf].
  by rewrite (Hf d1), (Hf d2).
Qed.

Lemma getAPIRoute_collapses_ids_witness :
  "42" ≠ "" ∧ "1337" ≠ ""
  ∧ ThrottlingManager.digits_only "42" = true
  ∧ ThrottlingManager.digits_only "1337" = true
  ∧ _getAPIRoute {| method := "GET";
                    url := "/channels" +:+ "/" +:+ "42" +:+ "/messages";
                    params := Some [("limit", "50")]; _retryCount := None |}
    = _getAPIRoute {| method := "GET";
                      url := "/channels" +:+ "/" +:+ "1337" +:+ "/messages";
                      params := Some [("limit", "50")]; _retryCount := Some 1 |}.
Proof.
  split; [discriminate|]. split; [discriminate|].
  split; [reflexivity|]. split; [reflexivity|].
  apply (getAPIRoute_collapses_ids "GET" (Some [("limit", "50")]) None (Some 1)
           "/channels" "42" "1337" "/messages");
    (discriminate || reflexivity).
Defined.

(** *** Further properties: the retry budget *)

Lemma retryLimit_updateRateLimit config h ra now m :
  retryLimit (_updateRateLimit config h ra now m) = retryLimit m.
Proof. done. Qed.

Lemma retryLimit_emit_status config r m :
  retryLimit (emit_status config r m) = retryLimit m.
Proof. unfold emit_status. by repeat case_match. Qed.

(** The retry count a configuration stands for: [_retryCount || 0]. *)
Definition retries_made (config : Config) : Z :=
  ThrottlingManager.or_default_Z (_retryCount config) 0.

Lemma auto_retry_bound retry has_config config err now m :
  (∀ cfg now' m', retryLimit m' = retryLimit m →
     (length (api_sent_at (retry cfg now' m'))
      ≤ S (Z.to_nat (retryLimit m - retries_made cfg)))%nat) →
  (length (api_sent_at (auto_retry retry has_config config err now m))
   ≤ Z.to_nat (retryLimit m - retries_made config))%nat.
Proof.
  intros IH. unfold auto_retry.
  destruct (has_config && _) eqn:Hc; [|simpl; lia].
  destruct (Z.leb_spec 1 (retryLimit m)) as [Hle|Hgt]; [|simpl; lia].
  apply andb_true_iff in Hc as [_ Hc].
  etransitivity; [apply IH; done|].
  unfold retries_made, with_retryCount. simpl.
  destruct (_retryCount config) as [n|]; simpl.
  - apply Z.eqb_eq in Hc as ->. simpl. lia.
  - lia.
Qed.

(** X14. Through the axios instance the retries are counted: a request whose
    configuration stands for [c] retries made is handed to the HTTP layer at
    most [retryLimit - c] more times after the first, whatever the answers
    are. *)
Theorem api_retry_budget script config now m :
  (length (api_sent_at (api script config now m))
   ≤ S (Z.to_nat (retryLimit m - retries_made config)))%nat.
Proof.
  revert config now m.
  induction script as [|x rest IH]; intros config now m; cbn [api].
  { simpl. lia. }
  cbv zeta. unfold api_sent. cbn [api_sent_at length]. apply le_n_S.
  assert (Hauto : ∀ hc err time m', retryLimit m' = retryLimit m →
    (length (api_sent_at (auto_retry (api rest) hc config err time m'))
     ≤ Z.to_nat (retryLimit m - retries_made config))%nat).
  { intros hc err time m' Hm'. rewrite <- Hm'. apply auto_retry_bound.
    intros cfg now' m'' <-. apply IH. }
  destruct (outcome x) as [r|e|e]; [|by apply Hauto|by apply Hauto].
  destruct ((200 <=? status r) && (status r <? 300)); [simpl; lia|].
  destruct (status r =? 429).
  - rewrite retryLimit_updateRateLimit.
    fold (retries_made config).
    destruct (Z.leb_spec (retries_made config + 1) (retryLimit m)) as [Hle|Hgt].
    + etransitivity; [apply IH|].
      rewrite retryLimit_updateRateLimit.
      unfold retries_made at 1, with_retryCount. simpl.
      destruct (decide (retries_made config + 1 = 0)) as [E|E]; lia.
    + apply Hauto.
      by rewrite retryLimit_emit_status, retryLimit_updateRateLimit.
  - apply Hauto. by rewrite retryLimit_emit_status.
Qed.



(** *** Further properties: marking a route and waiting *)

(** X16. What the response interceptor records decides the wait of the next
    request on the same route through the axios instance: after a 429 the
    route is held until the time of the response plus its retry time; after
    another response with [x-ratelimit-remaining: 0] and
    [x-ratelimit-reset-after] it is held until the reset; after a response
    that leaves requests it is not held. The wait is the time left plus
    [restTimeOffset]. *)
Theorem updateRateLimit_then_handleRateLimit config h retryAfter now now' m :
  now ≤ now' →
  let m' := _updateRateLimit config h retryAfter now m in
  (0 < retryAfter →
     _handleRateLimit config now' m' =
     if now' <? now + retryAfter
     then Some (now + retryAfter - now' + restTimeOffset m) else None)
  ∧ (retryAfter ≤ 0 → ∀ ra,
       x_ratelimit_remaining h = Some 0 →
       x_ratelimit_reset_after h = Some ra →
       _handleRateLimit config now' m' =
       if now' <? now + ra * 1000
       then Some (now + ra * 1000 - now' + restTimeOffset m) else None)
  ∧ (retryAfter ≤ 0 → ∀ r,
       x_ratelimit_remaining h = Some r → r ≠ 0 →
       _handleRateLimit config now' m' = None).
Proof.
  intros Hnow m'. subst m'. unfold _handleRateLimit, _updateRateLimit.
  cbn [set_rateLimits _rateLimits restTimeOffset].
  rewrite lookup_insert_eq.
  split; [|split].
  - intros Hra. destruct (Z.gtb_spec retryAfter 0) as [_|?]; [|lia]. done.
  - intros Hra ra Hrem Hreset.
    destruct (Z.gtb_spec retryAfter 0) as [?|_]; [lia|].
    rewrite Hrem, Hreset. cbn [default from_option id is_limited limited reset].
    destruct (Z.gtb_spec (now + ra * 1000) now) as [Hgt|Hle]; simpl.
    + done.
    + destruct (Z.ltb_spec now' (now + ra * 1000)); [lia|done].
  - intros Hra r Hrem Hne.
    destruct (Z.gtb_spec retryAfter 0) as [?|_]; [lia|].
    rewrite Hrem. cbn [default from_option id is_limited limited].
    destruct (Z.eqb_spec r 0) as [?|_]; [done|]. done.
Qed.

Lemma updateRateLimit_then_handleRateLimit_witness :
  5000 ≤ 6000
  ∧ _handleRateLimit get_x 6000
      (_updateRateLimit get_x (with_retry_after 2) 2000 5000
         (manager_with_retryLimit 3))
    = Some 1500.
Proof.
  split; [lia|].
  destruct (updateRateLimit_then_handleRateLimit get_x (with_retry_after 2)
              2000 5000 6000 (manager_with_retryLimit 3)) as [H _]; [lia|].
  exact (H ltac:(lia)).
Defined.

(** No entry of [_rateLimits] is marked limited. *)
Definition unmarked (m : t) : Prop :=
  ∀ key, is_limited (_rateLimits m !! key) = false.

Lemma unmarked_processRateLimit h p m :
  unmarked m → unmarked (_processRateLimit h p m).
Proof.
  intros H. unfold _processRateLimit.
  destruct (x_ratelimit_bucket h) as [bucket|]; [|done].
  destruct (x_ratelimit_remaining h) as [rem|]; [|done].
  destruct (x_ratelimit_reset h) as [rst|]; [|done].
  destruct (String.eqb bucket ""); [done|].
  intros key. cbn [set_rateLimits _rateLimits].
  destruct (decide (key = bucket)) as [->|Hne].
  - by rewrite lookup_insert_eq.
  - rewrite lookup_insert_ne by done. apply H.
Qed.

Lemma unmarked_handleResponse retry response options retryCount rnd now m :
  (∀ rc time m', unmarked m' → unmarked (final (retry rc time m'))) →
  unmarked m →
  unmarked (final (_handleResponse retry response options retryCount rnd now m)).
Proof.
  intros Hretry Hm. unfold _handleResponse.
  pose proof (unmarked_processRateLimit (headers response) (url options) m Hm)
    as H1.
  repeat case_match; try exact H1; by apply Hretry.
Qed.

Lemma unmarked_request script options retryCount now m :
  unmarked m → unmarked (final (_request script options retryCount now m)).
Proof.
  revert retryCount now m.
  induction script as [|x rest IH]; intros retryCount now m Hm; cbn [_request].
  { done. }
  cbv zeta. unfold sent. cbn [final].
  destruct (outcome x) as [response|e|e].
  - apply unmarked_handleResponse; [|done].
    intros rc time m' Hm'. by apply IH.
  - destruct (retryCount <? retryLimit m); [|done]. by apply IH.
  - done.
Qed.

(** X17. Calls through [make] and [_request] never mark a route as limited:
    the entries that [_processRateLimit] writes carry no [limited] field, so
    after any such call the check that the axios instance makes before
    sending finds nothing to wait for, whatever the responses said. *)
Theorem request_never_marks_limited script options retryCount now m :
  unmarked m →
  ∀ config time,
    _handleRateLimit config time
      (final (_request script options retryCount now m)) = None.
Proof.
  intros Hm config time.
  pose proof (unmarked_request script options retryCount now m Hm) as H.
  unfold _handleRateLimit. by rewrite (H (_getAPIRoute config)).
Qed.

Lemma request_never_marks_limited_witness :
  unmarked (manager_with_retryLimit 3)
  ∧ _handleRateLimit get_x 5000
      (final (_request [answer 200 (exhausted_bucket "GET:/x" 10) "OK" 100]
                get_x 0 4000 (manager_with_retryLimit 3))) = None.
Proof.
  assert (H : unmarked (manager_with_retryLimit 3)).
  { intros key. simpl. by rewrite lookup_empty. }
  split; [exact H|].
  exact (request_never_marks_limited
           [answer 200 (exhausted_bucket "GET:/x" 10) "OK" 100]
           get_x 0 4000 (manager_with_retryLimit 3) H get_x 5000).
Defined.

Lemma presend_check_waits_witness :
  let m := api_final
             (api [answer 200 (exhausted_bucket "b" 10) "OK" 100] get_x 4000
                (manager_with_retryLimit 3)) in
  let info := {| limited := Some true; limit := Some 5; remaining := 0;
                 reset := 10000; path := None |} in
  _rateLimits m !! _getAPIRoute get_x = Some info
  ∧ 5000 < reset info
  ∧ head (api_sent_at (api [] get_x 5000 m))
    = Some (reset info + restTimeOffset m).
Proof.
  cbv zeta.
  set (m := api_final
              (api [answer 200 (exhausted_bucket "b" 10) "OK" 100] get_x 4000
                 (manager_with_retryLimit 3))).
  set (info := {| limited := Some true; limit := Some 5; remaining := 0;
                  reset := 10000; path := None |}).
  assert (H1 : _rateLimits m !! _getAPIRoute get_x = Some info)
    by (vm_compute; reflexivity).
  assert (H2 : 5000 < reset info) by (simpl; lia).
  assert (H3 : 1 ≤ reset info - 5000 + restTimeOffset m ≤ TIMEOUT_MAX)
    by (vm_compute; split; discriminate).
  split; [exact H1|]. split; [exact H2|].
  destruct (presend_check_waits [] get_x 5000 m info H1 eq_refl H2 H3)
    as [_ H].
  exact H.
Defined.

End RESTManager.

(** ** Client (client/Client.js): the gateway connection *)

Module Client.

(** [Constants.OPCodes]. *)
Module OPCodes.
Definition DISPATCH : Z := 0.
Definition HEARTBEAT : Z := 1.
Definition IDENTIFY : Z := 2.
Definition PRESENCE_UPDATE : Z := 3.
Definition VOICE_STATE_UPDATE : Z := 4.
Definition RESUME : Z := 6.
Definition RECONNECT : Z := 7.
Definition REQUEST_GUILD_MEMBERS : Z := 8.
Definition INVALID_SESSION : Z := 9.
Definition HELLO : Z := 10.
Definition HEARTBEAT_ACK : Z := 11.
End OPCodes.

(** A parsed packet: [op], [s] ([null] is [None]), [t], and of [d] the
    fields the client reads: [d.heartbeat_interval] and [d.session_id]. *)
Record Packet := {
  op : Z;
  s : option Z;
  t : option string;
  heartbeat_interval : Z;
  session_id : string
}.

(** The text received on the socket: what [JSON.parse] makes of it. *)
Inductive Inbound :=
  | Malformed
  | Parsed (p : Packet).

(** The frames the client writes to the socket. *)
Inductive Frame :=
  | Heartbeat (d : option Z)
  | Identify.

(** A running [setInterval] timer: its id, its period, and the time at
    which it fires next. *)
Record Interval := { interval_id : nat; period : Z; due : Z }.

(** The client's connection state, with the host's clock and timers and the
    frames written to the socket, each with the time of writing. *)
Record State := {
  _sequence : option Z;
  _sessionId : option string;
  _heartbeatInterval : option nat;
  ping : Z;
  lastHeartbeatAck : Z;
  lastHeartbeatSent : Z;
  connected : bool;
  now : Z;
  intervals : list Interval;
  reconnects : list Z;
  next_timer : nat;
  sent : list (Z * Frame);
  emitted : list (string * string)
}.

(** The state made by the constructor, at time [now]. *)
Definition constructor (now : Z) : State := {|
  _sequence := None; _sessionId := None; _heartbeatInterval := None;
  ping := 0; lastHeartbeatAck := 0; lastHeartbeatSent := 0;
  connected := false; now := now; intervals := []; reconnects := [];
  next_timer := 0; sent := []; emitted := []
|}.

Definition emit (event text : string) (c : State) : State :=
  {| _sequence := _sequence c; _sessionId := _sessionId c;
     _heartbeatInterval := _heartbeatInterval c;
     ping := ping c; lastHeartbeatAck := lastHeartbeatAck c;
     lastHeartbeatSent := lastHeartbeatSent c; connected := connected c;
     now := now c; intervals := intervals c; reconnects := reconnects c;
     next_timer := next_timer c; sent := sent c;
     emitted := emitted c ++ [(event, text)] |}.

(** [this._ws.send(JSON.stringify(frame))]. *)
Definition ws_send (f : Frame) (c : State) : State :=
  {| _sequence := _sequence c; _sessionId := _sessionId c;
     _heartbeatInterval := _heartbeatInterval c;
     ping := ping c; lastHeartbeatAck := lastHeartbeatAck c;
     lastHeartbeatSent := lastHeartbeatSent c; connected := connected c;
     now := now c; intervals := intervals c; reconnects := reconnects c;
     next_timer := next_timer c; sent := sent c ++ [(now c, f)];
     emitted := emitted c |}.

(** [_sendHeartbeat]. *)
Definition _sendHeartbeat (c : State) : State :=
  let c := ws_send (Heartbeat (_sequence c)) c in
  let c :=
    {| _sequence := _sequence c; _sessionId := _sessionId c;
       _heartbeatInterval := _heartbeatInterval c;
       ping := ping c; lastHeartbeatAck := lastHeartbeatAck c;
       lastHeartbeatSent := now c; connected := connected c;
       now := now c; intervals := intervals c; reconnects := reconnects c;
       next_timer := next_timer c; sent := sent c; emitted := emitted c |} in
  emit "debug" "Heartbeat sent" c.

(** [_identify]. *)
Definition _identify (c : State) : State :=
  emit "debug" "Identify payload sent" (ws_send Identify c).

(** [this._heartbeatInterval = setInterval(() => this._sendHeartbeat(), n)]. *)
Definition arm_heartbeat (n : Z) (c : State) : State :=
  let id := next_timer c in
  {| _sequence := _sequence c; _sessionId := _sessionId c;
     _heartbeatInterval := Some id;
     ping := ping c; lastHeartbeatAck := lastHeartbeatAck c;
     lastHeartbeatSent := lastHeartbeatSent c; connected := connected c;
     now := now c;
     intervals := intervals c ++
       [{| interval_id := id; period := timer_delay n;
           due := now c + timer_delay n |}];
     reconnects := reconnects c;
     next_timer := S id; sent := sent c; emitted := emitted c |}.

(** [packet.s ? packet.s : this._sequence]: a sequence number that is [null]
    or 0 leaves the stored one. *)
Definition next_sequence (p : Packet) (old : option Z) : option Z :=
  match s p with
  | Some z => if z =? 0 then old else Some z
  | None => old
  end.

(** [_handleDispatch]: READY stores the session and marks the client
    connected; MESSAGE_CREATE is passed on as a [message] event. The entity
    objects built on the way are left out. *)
Definition _handleDispatch (p : Packet) (c : State) : State :=
  match t p with
  | Some "READY" =>
      emit "ready" ""
        {| _sequence := _sequence c; _sessionId := Some (session_id p);
           _heartbeatInterval := _heartbeatInterval c;
           ping := ping c; lastHeartbeatAck := lastHeartbeatAck c;
           lastHeartbeatSent := lastHeartbeatSent c; connected := true;
           now := now c; intervals := intervals c; reconnects := reconnects c;
           next_timer := next_timer c; sent := sent c; emitted := emitted c |}
  | Some "MESSAGE_CREATE" => emit "message" "" c
  | _ => c
  end.

(** [_onMessage(data)]. *)
Definition _onMessage (data : Inbound) (c : State) : State :=
  match data with
  | Malformed => emit "error" "WEBSOCKET_MESSAGE_PARSE_ERROR" c
  | Parsed packet =>
      let c :=
        {| _sequence := next_sequence packet (_sequence c);
           _sessionId := _sessionId c;
           _heartbeatInterval := _heartbeatInterval c;
           ping := ping c; lastHeartbeatAck := lastHeartbeatAck c;
           lastHeartbeatSent := lastHeartbeatSent c; connected := connected c;
           now := now c; intervals := intervals c; reconnects := reconnects c;
           next_timer := next_timer c; sent := sent c; emitted := emitted c |} in
      if op packet =? OPCodes.HELLO then
        _identify (arm_heartbeat (heartbeat_interval packet) c)
      else if op packet =? OPCodes.HEARTBEAT_ACK then
        emit "debug"
          ("Heartbeat acknowledged, ping: " +:+
           pretty (now c - lastHeartbeatSent c) +:+ "ms")
          {| _sequence := _sequence c; _sessionId := _sessionId c;
             _heartbeatInterval := _heartbeatInterval c;
             ping := now c - lastHeartbeatSent c;
             lastHeartbeatAck := now c;
             lastHeartbeatSent := lastHeartbeatSent c;
             connected := connected c;
             now := now c; intervals := intervals c;
             reconnects := reconnects c;
             next_timer := next_timer c; sent := sent c;
             emitted := emitted c |}
      else if op packet =? OPCodes.DISPATCH then _handleDispatch packet c
      else c
  end.

(** [_onClose(code, reason)]: the heartbeat timer is cleared; a close code
    other than 1000 schedules a reconnection 5000 ms later. *)
Definition _onClose (code : Z) (c : State) : State :=
  let c := emit "debug" ("WebSocket closed with code " +:+ pretty code) c in
  let c :=
    {| _sequence := _sequence c; _sessionId := _sessionId c;
       _heartbeatInterval := None;
       ping := ping c; lastHeartbeatAck := lastHeartbeatAck c;
       lastHeartbeatSent := lastHeartbeatSent c; connected := false;
       now := now c;
       intervals :=
         match _heartbeatInterval c with
         | Some id => filter (λ iv, interval_id iv ≠ id) (intervals c)
         | None => intervals c
         end;
       reconnects := reconnects c;
       next_timer := next_timer c; sent := sent c; emitted := emitted c |} in
  if code =? 1000 then emit "disconnect" "Clean disconnect" c
  else
    {| _sequence := _sequence c; _sessionId := _sessionId c;
       _heartbeatInterval := _heartbeatInterval c;
       ping := ping c; lastHeartbeatAck := lastHeartbeatAck c;
       lastHeartbeatSent := lastHeartbeatSent c; connected := connected c;
       now := now c; intervals := intervals c;
       reconnects := reconnects c ++ [now c + timer_delay 5000];
       next_timer := next_timer c; sent := sent c; emitted := emitted c |}.

(** *** The host's clock *)

(** The timers of [ivs] that are due at the current time fire, in the order
    of their creation; each runs [_sendHeartbeat] and is due again one
    period later. The result is the new list of timers and the state. *)
Fixpoint fire_due (ivs : list Interval) (c : State) : list Interval * State :=
  match ivs with
  | [] => ([], c)
  | iv :: r =>
      if due iv =? now c then
        let res := fire_due r (_sendHeartbeat c) in
        ({| interval_id := interval_id iv; period := period iv;
            due := due iv + period iv |} :: res.1, res.2)
      else
        let res := fire_due r c in (iv :: res.1, res.2)
  end.

Definition set_now_intervals (time : Z) (ivs : list Interval) (c : State)
    : State :=
  {| _sequence := _sequence c; _sessionId := _sessionId c;
     _heartbeatInterval := _heartbeatInterval c;
     ping := ping c; lastHeartbeatAck := lastHeartbeatAck c;
     lastHeartbeatSent := lastHeartbeatSent c; connected := connected c;
     now := time; intervals := ivs; reconnects := reconnects c;
     next_timer := next_timer c; sent := sent c; emitted := emitted c |}.

(** One millisecond passes. *)
Definition tick (c : State) : State :=
  let c := set_now_intervals (now c + 1) (intervals c) c in
  let res := fire_due (intervals c) c in
  set_now_intervals (now res.2) res.1 res.2.

(** [ms] milliseconds pass. *)
Fixpoint advance (ms : nat) (c : State) : State :=
  match ms with
  | O => c
  | S ms' => tick (advance ms' c)
  end.

(** What happens to an open connection: time passes, or a text arrives. *)
Inductive Event :=
  | Wait (ms : nat)
  | Message (data : Inbound).

Definition step (c : State) (ev : Event) : State :=
  match ev with
  | Wait ms => advance ms c
  | Message data => _onMessage data c
  end.

Definition run (evs : list Event) (c : State) : State := fold_left step evs c.

(** *** The heartbeat schedule *)

(** The sequence number the client holds when the clock reaches [time']:
    [evs] are the events from [time] on and [seq] is the number held at
    [time]. *)
Fixpoint sequence_at (evs : list Event) (time : Z) (seq : option Z) (time' : Z)
    : option Z :=
  match evs with
  | [] => seq
  | Wait ms :: r =>
      if time' <=? time + Z.of_nat ms then seq
      else sequence_at r (time + Z.of_nat ms) seq time'
  | Message (Parsed p) :: r => sequence_at r time (next_sequence p seq) time'
  | Message Malformed :: r => sequence_at r time seq time'
  end.

(** The event is not a HELLO packet. *)
Definition not_hello (ev : Event) : Prop :=
  match ev with
  | Message (Parsed p) => op p ≠ OPCodes.HELLO
  | _ => True
  end.

Definition rearmed (iv : Interval) (k : nat) : Interval :=
  {| interval_id := interval_id iv; period := period iv;
     due := due iv + period iv * Z.of_nat k |}.

(** The heartbeats of one timer: [k] frames, one period apart from [due iv]
    on, the [i]-th carrying [seq_of] of its time. *)
Definition beats (iv : Interval) (seq_of : Z → option Z) (k : nat)
    : list (Z * Frame) :=
  (λ i : nat, let time := due iv + period iv * Z.of_nat i in
              (time, Heartbeat (seq_of time))) <$> seq 0 k.

Lemma beats_S iv seq_of k :
  beats iv seq_of (S k) =
  beats iv seq_of k ++
  [(due iv + period iv * Z.of_nat k, Heartbeat (seq_of (due iv + period iv * Z.of_nat k)))].
Proof. unfold beats. by rewrite seq_S, fmap_app. Qed.

Lemma beats_ext iv f g k :
  (∀ i, (i < k)%nat → f (due iv + period iv * Z.of_nat i)
                      = g (due iv + period iv * Z.of_nat i)) →
  beats iv f k = beats iv g k.
Proof.
  intros H. unfold beats. apply list_fmap_ext. intros j i Hi.
  apply lookup_seq in Hi as [-> Hlt]. simpl. by rewrite H.
Qed.

Lemma beats_app iv seq_of k1 k2 :
  beats iv seq_of (k1 + k2) =
  beats iv seq_of k1 ++ beats (rearmed iv k1) seq_of k2.
Proof.
  unfold beats. rewrite seq_app, fmap_app. f_equal.
  replace (0 + k1)%nat with (k1 + 0)%nat by lia.
  rewrite <- fmap_add_seq, <- list_fmap_compose.
  apply list_fmap_ext. intros j i _. simpl.
  replace (due iv + period iv * Z.of_nat (k1 + i))
    with (due iv + period iv * Z.of_nat k1 + period iv * Z.of_nat i) by lia.
  done.
Qed.

(** The state of the single timer [iv] and of the connection after a run in
    which the timer fired [k] times. *)
Record beaten (iv : Interval) (k : nat) (c c' : State) (seq_of : Z → option Z)
    : Prop := {
  beaten_intervals : intervals c' = [rearmed iv k];
  beaten_next : now c' < due iv + period iv * Z.of_nat k ≤ now c' + period iv;
  beaten_sent : sent c' = sent c ++ beats iv seq_of k;
  beaten_last :
    lastHeartbeatSent c' =
    match k with
    | O => lastHeartbeatSent c
    | S k' => due iv + period iv * Z.of_nat k'
    end
}.

Lemma tick_single c iv :
  intervals c = [iv] →
  now (tick c) = now c + 1
  ∧ _sequence (tick c) = _sequence c
  ∧ (due iv = now c + 1 →
       intervals (tick c) = [rearmed iv 1]
       ∧ sent (tick c) = sent c ++ [(now c + 1, Heartbeat (_sequence c))]
       ∧ lastHeartbeatSent (tick c) = now c + 1)
  ∧ (due iv ≠ now c + 1 →
       intervals (tick c) = [iv]
       ∧ sent (tick c) = sent c
       ∧ lastHeartbeatSent (tick c) = lastHeartbeatSent c).
Proof.
  intros Hiv. unfold tick. simpl. rewrite Hiv. simpl.
  destruct (Z.eqb_spec (due iv) (now c + 1)) as [E|E]; simpl.
  - split; [done|]. split; [done|]. split; [|done]. intros _.
    unfold rearmed. by rewrite Z.mul_1_r.
  - split; [done|]. split; [done|]. split; [done|]. intros _.
    by destruct iv.
Qed.

(** While time passes, a single timer fires once per period, and each
    heartbeat carries the sequence number held meanwhile. *)
Lemma advance_single ms c iv :
  intervals c = [iv] → 1 ≤ period iv →
  now c < due iv ≤ now c + period iv →
  now (advance ms c) = now c + Z.of_nat ms
  ∧ _sequence (advance ms c) = _sequence c
  ∧ ∃ k, beaten iv k c (advance ms c) (λ _, _sequence c).
Proof.
  intros Hiv Hp Hdue. induction ms as [|ms IH].
  - simpl. split; [lia|]. split; [done|]. exists O. split; simpl.
    + unfold rearmed. rewrite Z.mul_0_r, Z.add_0_r. by destruct iv.
    + lia.
    + by rewrite app_nil_r.
    + done.
  - destruct IH as (Hnow & Hseq & k & [Hi Hn Hs Hl]).
    cbn [advance].
    destruct (tick_single (advance ms c) (rearmed iv k) Hi)
      as (Tnow & Tseq & Tfire & Tidle).
    split; [lia|]. split; [congruence|].
    destruct (decide (due (rearmed iv k) = now (advance ms c) + 1)) as [E|E].
    + destruct (Tfire E) as (Ti & Ts & Tl). exists (S k). split.
      * rewrite Ti. unfold rearmed. simpl. f_equal. f_equal. lia.
      * simpl in E. lia.
      * rewrite Ts, Hs, beats_S, <- app_assoc. simpl in E.
        by rewrite Hseq, <- E.
      * simpl in E. lia.
    + destruct (Tidle E) as (Ti & Ts & Tl). exists k. split.
      * done.
      * simpl in E. lia.
      * by rewrite Ts.
      * by rewrite Tl.
Qed.

Definition waited (evs : list Event) : Z :=
  foldr (λ ev acc, match ev with Wait ms => Z.of_nat ms + acc | _ => acc end)
    0 evs.

(** A packet other than HELLO leaves the timers, the clock, the frames sent
    and the time of the last heartbeat as they are. *)
Lemma onMessage_not_hello data c :
  not_hello (Message data) →
  intervals (_onMessage data c) = intervals c
  ∧ now (_onMessage data c) = now c
  ∧ sent (_onMessage data c) = sent c
  ∧ lastHeartbeatSent (_onMessage data c) = lastHeartbeatSent c
  ∧ _sequence (_onMessage data c) =
    match data with
    | Parsed p => next_sequence p (_sequence c)
    | Malformed => _sequence c
    end.
Proof.
  destruct data as [|p]; simpl; [done|]. intros Hop.
  destruct (Z.eqb_spec (op p) OPCodes.HELLO) as [?|_]; [done|].
  destruct (op p =? OPCodes.HEARTBEAT_ACK); [done|].
  destruct (op p =? OPCodes.DISPATCH); [|done].
  unfold _handleDispatch. by repeat case_match.
Qed.

(** Over any run of an open connection that receives no further HELLO, the
    single timer fires once per period and each heartbeat carries the
    sequence number held when it is sent. *)
Lemma run_single evs c iv :
  Forall not_hello evs →
  intervals c = [iv] → 1 ≤ period iv →
  now c < due iv ≤ now c + period iv →
  now (run evs c) = now c + waited evs
  ∧ ∃ k, beaten iv k c (run evs c) (sequence_at evs (now c) (_sequence c)).
Proof.
  intros Hq. revert c iv.
  induction Hq as [|ev evs Hev Hevs IH]; intros c iv Hiv Hp Hdue.
  - simpl. split; [lia|]. exists O. split; simpl.
    + unfold rearmed. rewrite Z.mul_0_r, Z.add_0_r. by destruct iv.
    + lia.
    + by rewrite app_nil_r.
    + done.
  - destruct ev as [ms|data]; cbn [run fold_left step].
    + destruct (advance_single ms c iv Hiv Hp Hdue)
        as (Hnow & Hseq & k1 & [Hi1 Hn1 Hs1 Hl1]).
      destruct (IH (advance ms c) (rearmed iv k1) Hi1 Hp Hn1)
        as (Hnow2 & k2 & [Hi2 Hn2 Hs2 Hl2]).
      fold (run evs (advance ms c)) in *.
      split; [simpl; lia|].
      exists (k1 + k2)%nat. split.
      * rewrite Hi2. unfold rearmed. simpl. f_equal. f_equal. lia.
      * simpl in Hn2. lia.
      * rewrite Hs2, Hs1, <- app_assoc, beats_app. f_equal. f_equal.
        -- apply beats_ext. intros i Hi. simpl.
           destruct (Z.leb_spec (due iv + period iv * Z.of_nat i)
                       (now c + Z.of_nat ms)) as [_|Hgt]; [done|].
           exfalso. nia.
        -- apply beats_ext. intros i Hi. simpl.
           destruct (Z.leb_spec (due iv + period iv * Z.of_nat k1
                                 + period iv * Z.of_nat i)
                       (now c + Z.of_nat ms)) as [Hle|_].
           ++ exfalso. nia.
           ++ by rewrite Hnow, Hseq.
      * rewrite Hl2. destruct k2 as [|k2'].
        -- by rewrite Nat.add_0_r.
        -- rewrite Nat.add_succ_r. simpl. lia.
    + destruct (onMessage_not_hello data c Hev) as (Mi & Mn & Ms & Ml & Mq).
      destruct (IH (_onMessage data c) iv) as (Hnow2 & k & [Hi2 Hn2 Hs2 Hl2]);
        [congruence|done|by rewrite Mn|].
      fold (run evs (_onMessage data c)) in *.
      split; [simpl; lia|].
      exists k. split.
      * done.
      * lia.
      * rewrite Hs2, Ms. f_equal. apply beats_ext. intros i Hi.
        rewrite Mn, Mq. by destruct data.
      * by rewrite Hl2, Ml.
Qed.

(** *** The last sequence number seen *)

(** The packets among [evs] that arrive before [time']; [evs] are the events
    from [time] on. *)
Fixpoint packets_before (evs : list Event) (time time' : Z) : list Packet :=
  match evs with
  | [] => []
  | Wait ms :: r => packets_before r (time + Z.of_nat ms) time'
  | Message (Parsed p) :: r =>
      if time <? time' then p :: packets_before r time time'
      else packets_before r time time'
  | Message Malformed :: r => packets_before r time time'
  end.

(** The sequence numbers that the packets carry, in order of arrival; [null]
    and 0 are no sequence number. *)
Definition sequence_numbers (ps : list Packet) : list Z :=
  filter (λ z, z ≠ 0) (omap s ps).

(** The last sequence number seen in [ps], or [held] when [ps] carries
    none. *)
Definition last_sequence_number (ps : list Packet) (held : option Z)
    : option Z :=
  match last (sequence_numbers ps) with
  | Some z => Some z
  | None => held
  end.

Lemma last_sequence_number_cons p ps held :
  last_sequence_number (p :: ps) held
  = last_sequence_number ps (next_sequence p held).
Proof.
  unfold last_sequence_number, sequence_numbers, next_sequence.
  cbn [omap list_omap]. destruct (s p) as [z|]; [|done].
  rewrite filter_cons. destruct (decide (z ≠ 0)) as [Hz|Hz].
  - destruct (Z.eqb_spec z 0) as [?|_]; [done|].
    rewrite last_cons. by destruct (last _).
  - destruct (Z.eqb_spec z 0) as [_|?]; [done|]. exfalso. by apply Hz.
Qed.

Lemma packets_before_late evs time time' :
  time' ≤ time → packets_before evs time time' = [].
Proof.
  revert time. induction evs as [|[ms|[|p]] r IH]; intros time Hle; simpl.
  - done.
  - apply IH. lia.
  - by apply IH.
  - destruct (Z.ltb_spec time time'); [lia|]. by apply IH.
Qed.

(** The sequence number the client holds is the last one seen. *)
Lemma sequence_at_last_seen evs time seq time' :
  time < time' →
  sequence_at evs time seq time'
  = last_sequence_number (packets_before evs time time') seq.
Proof.
  revert time seq. induction evs as [|[ms|[|p]] r IH]; intros time seq Hlt; simpl.
  - done.
  - destruct (Z.leb_spec time' (time + Z.of_nat ms)) as [Hle|Hgt].
    + by rewrite packets_before_late.
    + by apply IH.
  - by apply IH.
  - destruct (Z.ltb_spec time time'); [|lia].
    rewrite last_sequence_number_cons. by apply IH.
Qed.

(** C9 (amended). When a HELLO packet with [heartbeat_interval = n],
    [1 <= n <= 2^31 - 1], arrives at time [t0] on a connection without a
    running heartbeat timer, then as long as the connection stays open and
    receives no further HELLO, the client has sent, after the identify frame,
    exactly one heartbeat frame at each of the times [t0 + n], [t0 + 2n], ...
    up to the present; the heartbeat sent at a time carries the last sequence
    number seen in the packets that arrived before that time, the HELLO
    included, or the number held before the HELLO when they carry none; and a
    heartbeat acknowledgment sets [ping] to its arrival time minus the time
    of the last heartbeat sent. *)
Theorem heartbeat_every_interval c p evs :
  intervals c = [] →
  op p = OPCodes.HELLO →
  1 ≤ heartbeat_interval p ≤ TIMEOUT_MAX →
  Forall not_hello evs →
  let n := heartbeat_interval p in
  let t0 := now c in
  let c2 := run evs (_onMessage (Parsed p) c) in
  let k := Z.to_nat ((now c2 - t0) / n) in
  now c2 = t0 + waited evs
  ∧ sent c2 =
      sent c ++ [(t0, Identify)] ++
      ((λ i : nat,
          let time := t0 + n * Z.of_nat (S i) in
          (time,
           Heartbeat
             (last_sequence_number (p :: packets_before evs t0 time)
                (_sequence c))))
       <$> seq 0 k)
  ∧ (∀ ack, op ack = OPCodes.HEARTBEAT_ACK →
       ping (_onMessage (Parsed ack) c2)
       = now c2 - (if decide (k = 0%nat) then lastHeartbeatSent c
                   else t0 + n * Z.of_nat k)
       ∧ lastHeartbeatAck (_onMessage (Parsed ack) c2) = now c2).
Proof.
  intros Hnone Hop Hn Hevs n t0 c2 k.
  set (c1 := _onMessage (Parsed p) c) in *.
  assert (Hn' : 1 ≤ n ≤ TIMEOUT_MAX) by exact Hn.
  set (iv := {| interval_id := next_timer c; period := n; due := t0 + n |}).
  assert (H1 : intervals c1 = [iv] ∧ now c1 = t0
               ∧ sent c1 = sent c ++ [(t0, Identify)]
               ∧ _sequence c1 = next_sequence p (_sequence c)
               ∧ lastHeartbeatSent c1 = lastHeartbeatSent c).
  { subst c1 iv. unfold _onMessage. rewrite Hop. simpl.
    rewrite Hnone. fold n. rewrite (timer_delay_id n) by done. done. }
  destruct H1 as (Hiv & Hnow1 & Hsent1 & Hseq1 & Hlast1).
  destruct (run_single evs c1 iv Hevs Hiv) as (Hnow2 & k' & [Hi Hnx Hs Hl]).
  { simpl. lia. }
  { simpl. lia. }
  fold c2 in Hnow2, Hi, Hnx, Hs, Hl. simpl in Hnx.
  assert (Hk : k = k').
  { subst k. rewrite Hnow1 in *.
    rewrite <- (Z.div_unique (now c2 - t0) n (Z.of_nat k')
                  (now c2 - t0 - n * Z.of_nat k')); [lia| |lia].
    left. lia. }
  rewrite <- Hk in *. clear Hk k'.
  split; [by rewrite Hnow2, Hnow1|]. split.
  - rewrite Hs, Hsent1, <- app_assoc. f_equal. f_equal.
    unfold beats. apply list_fmap_ext. intros j i _. simpl.
    rewrite Hnow1.
    replace (t0 + n + n * Z.of_nat i)
      with (t0 + n * Z.pos (Pos.of_succ_nat i)) by lia.
    rewrite sequence_at_last_seen by lia.
    by rewrite last_sequence_number_cons, Hseq1.
  - intros ack Hack. unfold _onMessage. rewrite Hack. simpl.
    split; [|done]. rewrite Hl.
    destruct k as [|k0]; simpl; [by rewrite Hlast1|]. lia.
Qed.

Definition hello (n : Z) : Packet :=
  {| op := OPCodes.HELLO; s := None; t := None; heartbeat_interval := n;
     session_id := "" |}.

Definition dispatch (seq : Z) (name : string) : Packet :=
  {| op := OPCodes.DISPATCH; s := Some seq; t := Some name;
     heartbeat_interval := 0; session_id := "session" |}.

Definition heartbeat_ack : Packet :=
  {| op := OPCodes.HEARTBEAT_ACK; s := None; t := None;
     heartbeat_interval := 0; session_id := "" |}.

(** A connection opened at time 100 with a heartbeat interval of 5 ms. *)
Definition short_session : list Event :=
  [ Wait 3; Message (Parsed (dispatch 1 "READY")); Wait 4;
    Message (Parsed heartbeat_ack); Message Malformed; Wait 5;
    Message (Parsed (dispatch 2 "MESSAGE_CREATE")); Wait 4 ].

Lemma heartbeat_every_interval_witness :
  intervals (constructor 100) = []
  ∧ op (hello 5) = OPCodes.HELLO
  ∧ 1 ≤ heartbeat_interval (hello 5) ≤ TIMEOUT_MAX
  ∧ Forall not_hello short_session
  ∧ now (run short_session (_onMessage (Parsed (hello 5)) (constructor 100)))
    = 100 + waited short_session.
Proof.
  assert (H : Forall not_hello short_session).
  { unfold short_session.
    repeat (apply Forall_cons; split); try apply Forall_nil; simpl;
      try exact I; discriminate. }
  split; [reflexivity|]. split; [reflexivity|].
  split; [split; [simpl; lia|unfold TIMEOUT_MAX; simpl; lia]|].
  split; [exact H|].
  destruct (heartbeat_every_interval (constructor 100) (hello 5) short_session
              eq_refl eq_refl) as [Hnow _].
  - split; [simpl; lia|unfold TIMEOUT_MAX; simpl; lia].
  - exact H.
  - exact Hnow.
Defined.

(** The frames of that session: the first packet with a sequence number
    arrives at 103, so the heartbeat at 105 carries 1; the one at 115 carries
    2. *)
Lemma short_session_frames :
  sent (run short_session (_onMessage (Parsed (hello 5)) (constructor 100)))
  = [(100, Identify); (105, Heartbeat (Some 1)); (110, Heartbeat (Some 1));
     (115, Heartbeat (Some 2))].
Proof. vm_compute. reflexivity. Qed.

(** C9 as stated fails without its conditions. A second HELLO on the open
    connection starts a second timer, so with [n = 5] four heartbeats are
    sent within 10 ms of the second HELLO instead of two; with
    [heartbeat_interval = 0] the timer fires every millisecond; and a packet
    with [s = 0] is not taken for a sequence number, so the heartbeat after
    it carries the number seen before. *)
Lemma heartbeat_schedule_fails_without_conditions :
  sent (run [Wait 2; Message (Parsed (hello 5)); Wait 10]
          (_onMessage (Parsed (hello 5)) (constructor 100)))
  = [(100, Identify); (102, Identify); (105, Heartbeat None);
     (107, Heartbeat None); (110, Heartbeat None); (112, Heartbeat None)]
  ∧ sent (run [Wait 3] (_onMessage (Parsed (hello 0)) (constructor 100)))
    = [(100, Identify); (101, Heartbeat None); (102, Heartbeat None);
       (103, Heartbeat None)]
  ∧ sent (run [Message (Parsed (dispatch 7 "MESSAGE_CREATE"));
               Message (Parsed (dispatch 0 "MESSAGE_CREATE")); Wait 5]
            (_onMessage (Parsed (hello 5)) (constructor 100)))
    = [(100, Identify); (105, Heartbeat (Some 7))].
Proof. vm_compute. repeat split; reflexivity. Qed.

(** *** Further properties: closing the connection *)

(** The ids and periods of the running timers. *)
Definition running (c : State) : list (nat * Z) :=
  (λ iv, (interval_id iv, period iv)) <$> intervals c.

Lemma fire_due_running ivs c :
  (λ iv, (interval_id iv, period iv)) <$> (fire_due ivs c).1
  = (λ iv, (interval_id iv, period iv)) <$> ivs
  ∧ _heartbeatInterval (fire_due ivs c).2 = _heartbeatInterval c
  ∧ next_timer (fire_due ivs c).2 = next_timer c
  ∧ (ivs = [] → sent (fire_due ivs c).2 = sent c).
Proof.
  revert c. induction ivs as [|iv r IH]; intros c; [done|].
  cbn [fire_due]. destruct (due iv =? now c); cbn [fst snd].
  - destruct (IH (_sendHeartbeat c)) as (H1 & H2 & H3 & _).
    rewrite !fmap_cons, H1, H2, H3. done.
  - destruct (IH c) as (H1 & H2 & H3 & _).
    rewrite !fmap_cons, H1, H2, H3. done.
Qed.

Lemma tick_running c :
  running (tick c) = running c
  ∧ _heartbeatInterval (tick c) = _heartbeatInterval c
  ∧ next_timer (tick c) = next_timer c
  ∧ (intervals c = [] → sent (tick c) = sent c).
Proof.
  unfold tick, running. cbn [set_now_intervals intervals _heartbeatInterval
                              next_timer sent].
  set (c1 := set_now_intervals (now c + 1) (intervals c) c).
  destruct (fire_due_running (intervals c) c1) as (H1 & H2 & H3 & H4).
  rewrite H1, H2, H3. split; [done|]. split; [done|]. split; [done|].
  intros Hnil. by rewrite (H4 Hnil).
Qed.

Lemma advance_running ms c :
  running (advance ms c) = running c
  ∧ _heartbeatInterval (advance ms c) = _heartbeatInterval c
  ∧ next_timer (advance ms c) = next_timer c
  ∧ (intervals c = [] → sent (advance ms c) = sent c).
Proof.
  induction ms as [|ms (H1 & H2 & H3 & H4)]; [done|]. cbn [advance].
  destruct (tick_running (advance ms c)) as (T1 & T2 & T3 & T4).
  rewrite T1, T2, T3, H1, H2, H3. split; [done|]. split; [done|].
  split; [done|]. intros Hnil. rewrite T4, H4; [done|done|].
  unfold running in H1. rewrite Hnil in H1.
  by apply fmap_nil_inv in H1.
Qed.

Lemma onMessage_running data c :
  not_hello (Message data) →
  running (_onMessage data c) = running c
  ∧ _heartbeatInterval (_onMessage data c) = _heartbeatInterval c
  ∧ next_timer (_onMessage data c) = next_timer c
  ∧ sent (_onMessage data c) = sent c.
Proof.
  destruct data as [|p]; simpl; [done|]. intros Hop.
  destruct (Z.eqb_spec (op p) OPCodes.HELLO) as [?|_]; [done|].
  destruct (op p =? OPCodes.HEARTBEAT_ACK); [done|].
  destruct (op p =? OPCodes.DISPATCH); [|done].
  unfold _handleDispatch. by repeat case_match.
Qed.

Lemma run_running evs c :
  Forall not_hello evs →
  running (run evs c) = running c
  ∧ _heartbeatInterval (run evs c) = _heartbeatInterval c
  ∧ next_timer (run evs c) = next_timer c
  ∧ (intervals c = [] → sent (run evs c) = sent c).
Proof.
  intros Hq. revert c. induction Hq as [|ev evs Hev Hevs IH]; intros c; [done|].
  cbn [run fold_left]. fold (run evs (step c ev)).
  destruct (IH (step c ev)) as (H1 & H2 & H3 & H4).
  assert (Hs : running (step c ev) = running c
               ∧ _heartbeatInterval (step c ev) = _heartbeatInterval c
               ∧ next_timer (step c ev) = next_timer c
               ∧ (intervals c = [] → sent (step c ev) = sent c)).
  { destruct ev as [ms|data]; cbn [step].
    - apply advance_running.
    - destruct (onMessage_running data c Hev) as (M1 & M2 & M3 & M4). done. }
  destruct Hs as (S1 & S2 & S3 & S4).
  rewrite H1, H2, H3, S1, S2, S3. split; [done|]. split; [done|].
  split; [done|]. intros Hnil. rewrite H4, S4; [done|done|].
  unfold running in S1. rewrite Hnil in S1. by apply fmap_nil_inv in S1.
Qed.

Lemma running_hello p c :
  op p = OPCodes.HELLO →
  running (_onMessage (Parsed p) c)
  = running c ++ [(next_timer c, timer_delay (heartbeat_interval p))]
  ∧ _heartbeatInterval (_onMessage (Parsed p) c) = Some (next_timer c)
  ∧ next_timer (_onMessage (Parsed p) c) = S (next_timer c).
Proof.
  intros Hop. unfold _onMessage, running. rewrite Hop. simpl.
  by rewrite fmap_app.
Qed.

Lemma running_onClose code c :
  running (_onClose code c)
  = match _heartbeatInterval c with
    | Some id => filter (λ x, x.1 ≠ id) (running c)
    | None => running c
    end
  ∧ _heartbeatInterval (_onClose code c) = None
  ∧ sent (_onClose code c) = sent c.
Proof.
  unfold _onClose, running.
  destruct (code =? 1000); simpl;
    (split; [|done]); destruct (_heartbeatInterval c); try done;
    induction (intervals c) as [|iv r IH]; try done;
    rewrite fmap_cons, !filter_cons; simpl;
    destruct (decide (interval_id iv ≠ n)); by rewrite ?fmap_cons, IH.
Qed.

(** X18. Closing the connection stops the heartbeat: after a HELLO on a
    connection without a running timer, any further traffic other than HELLO,
    and a close with any code, no timer is running, and nothing more is
    written to the socket whatever time passes and whatever arrives. *)
Theorem close_stops_heartbeat c p evs code evs' :
  intervals c = [] →
  op p = OPCodes.HELLO →
  Forall not_hello evs → Forall not_hello evs' →
  let c2 := _onClose code (run evs (_onMessage (Parsed p) c)) in
  intervals c2 = []
  ∧ _heartbeatInterval c2 = None
  ∧ sent (run evs' c2) = sent c2.
Proof.
  intros Hnone Hop Hevs Hevs' c2.
  destruct (running_hello p c Hop) as (R1 & R2 & R3).
  destruct (run_running evs (_onMessage (Parsed p) c) Hevs) as (E1 & E2 & E3 & _).
  destruct (running_onClose code (run evs (_onMessage (Parsed p) c)))
    as (C1 & C2 & C3).
  fold c2 in C1, C2, C3.
  assert (Hi : intervals c2 = []).
  { rewrite E2, R2, E1, R1 in C1. unfold running at 2 in C1.
    rewrite Hnone in C1. simpl in C1.
    rewrite filter_cons_False in C1 by (simpl; intros H; by apply H).
    rewrite filter_nil in C1. unfold running in C1.
    by apply fmap_nil_inv in C1. }
  split; [done|]. split; [done|].
  by destruct (run_running evs' c2 Hevs') as (_ & _ & _ & ->).
Qed.

(** X19. A HELLO that arrives while a heartbeat timer is running starts a
    second timer and forgets the first: closing the connection afterwards
    clears only the second, and the first stays armed whatever time passes
    and whatever arrives. *)
Theorem second_hello_leaves_timer c p1 p2 evs1 evs2 code evs3 :
  intervals c = [] →
  op p1 = OPCodes.HELLO → op p2 = OPCodes.HELLO →
  Forall not_hello evs1 → Forall not_hello evs2 → Forall not_hello evs3 →
  let c1 := run evs1 (_onMessage (Parsed p1) c) in
  let c2 := run evs2 (_onMessage (Parsed p2) c1) in
  running c2 = [(next_timer c, timer_delay (heartbeat_interval p1));
                (S (next_timer c), timer_delay (heartbeat_interval p2))]
  ∧ running (run evs3 (_onClose code c2))
    = [(next_timer c, timer_delay (heartbeat_interval p1))].
Proof.
  intros Hnone Hop1 Hop2 Hevs1 Hevs2 Hevs3 c1 c2.
  destruct (running_hello p1 c Hop1) as (R1 & R2 & R3).
  destruct (run_running evs1 (_onMessage (Parsed p1) c) Hevs1)
    as (E1 & E2 & E3 & _).
  fold c1 in E1, E2, E3.
  destruct (running_hello p2 c1 Hop2) as (Q1 & Q2 & Q3).
  destruct (run_running evs2 (_onMessage (Parsed p2) c1) Hevs2)
    as (F1 & F2 & F3 & _).
  fold c2 in F1, F2, F3.
  assert (Hr : running c2
               = [(next_timer c, timer_delay (heartbeat_interval p1));
                  (S (next_timer c), timer_delay (heartbeat_interval p2))]).
  { rewrite F1, Q1, E1, R1, E3, R3. unfold running. by rewrite Hnone. }
  split; [done|].
  destruct (running_onClose code c2) as (C1 & _ & _).
  destruct (run_running evs3 (_onClose code c2) Hevs3) as (G1 & _).
  rewrite G1, C1, F2, Q2, E3, R3, Hr.
  rewrite filter_cons_True by (simpl; lia).
  rewrite filter_cons_False by (simpl; intros H; by apply H).
  done.
Qed.

Lemma close_stops_heartbeat_witness :
  intervals (constructor 100) = []
  ∧ op (hello 5) = OPCodes.HELLO
  ∧ Forall not_hello short_session
  ∧ sent (run [Wait 50; Message (Parsed heartbeat_ack)]
            (_onClose 1006
               (run short_session
                  (_onMessage (Parsed (hello 5)) (constructor 100)))))
    = sent (_onClose 1006
              (run short_session
                 (_onMessage (Parsed (hello 5)) (constructor 100)))).
Proof.
  assert (H : Forall not_hello short_session).
  { unfold short_session.
    repeat (apply Forall_cons; split); try apply Forall_nil; simpl;
      try exact I; discriminate. }
  assert (H' : Forall not_hello [Wait 50; Message (Parsed heartbeat_ack)]).
  { repeat (apply Forall_cons; split); try apply Forall_nil; simpl;
      try exact I; discriminate. }
  split; [reflexivity|]. split; [reflexivity|]. split; [exact H|].
  destruct (close_stops_heartbeat (constructor 100) (hello 5) short_session
              1006 [Wait 50; Message (Parsed heartbeat_ack)]
              eq_refl eq_refl H H') as (_ & _ & Hs).
  exact Hs.
Defined.

Lemma second_hello_leaves_timer_witness :
  intervals (constructor 100) = []
  ∧ op (hello 5) = OPCodes.HELLO ∧ op (hello 7) = OPCodes.HELLO
  ∧ Forall not_hello short_session
  ∧ running (run [Wait 20]
               (_onClose 1000
                  (run short_session
                     (_onMessage (Parsed (hello 7))
                        (run [] (_onMessage (Parsed (hello 5))
                                   (constructor 100)))))))
    = [(0%nat, timer_delay (heartbeat_interval (hello 5)))].
Proof.
  assert (H : Forall not_hello short_session).
  { unfold short_session.
    repeat (apply Forall_cons; split); try apply Forall_nil; simpl;
      try exact I; discriminate. }
  assert (H' : Forall not_hello [Wait 20]).
  { repeat (apply Forall_cons; split); try apply Forall_nil; simpl;
      exact I. }
  split; [reflexivity|]. split; [reflexivity|]. split; [reflexivity|].
  split; [exact H|].
  destruct (second_hello_leaves_timer (constructor 100) (hello 5) (hello 7)
              [] short_session 1000 [Wait 20]
              eq_refl eq_refl eq_refl (Forall_nil_2 _) H H') as [_ Hr].
  exact Hr.
Defined.

End Client.
